(** * go-iost p2p: the peer-connection layer (p2p/peer.go) and the naive
    length-prefixed network, embedded as Rocq functions and checked against
    their specification. *)

From Stdlib Require Import ZArith List Bool Lia Permutation.
From Stdlib Require Import Strings.Byte.
Import ListNotations.
Open Scope Z_scope.

Definition bytes := list byte.

(** The list without its [i]-th element. *)
Fixpoint remove_nth {A : Type} (i : nat) (l : list A) : list A :=
  match l, i with
  | [], _ => []
  | _ :: tl, O => tl
  | x :: tl, S j => x :: remove_nth j tl
  end.

(** ** Go machine integers and encoding/binary *)
Module GoInt.

(** Two's complement wrap-around of Go's [int], [int64] and
    [time.Duration] on a 64-bit platform. *)
Definition wrap64 (z : Z) : Z := (z + 2 ^ 63) mod 2 ^ 64 - 2 ^ 63.

(** Wrap-around of [uint32]. *)
Definition wrap_u32 (z : Z) : Z := z mod 2 ^ 32.

Definition in_int64 (z : Z) : Prop := - 2 ^ 63 <= z < 2 ^ 63.

Definition Z_of_byte (b : byte) : Z := Z.of_N (Byte.to_N b).

Definition byte_of_Z (z : Z) : byte :=
  match Byte.of_N (Z.to_N (z mod 256)) with
  | Some b => b
  | None => x00
  end.

(** [binary.BigEndian.PutUint32]: the four bytes of a 32-bit value, most
    significant first. *)
Definition be_put32 (z : Z) : bytes :=
  [ byte_of_Z (Z.shiftr z 24); byte_of_Z (Z.shiftr z 16);
    byte_of_Z (Z.shiftr z 8); byte_of_Z z ].

(** Big-endian value of a byte sequence. *)
Definition be_value (b : bytes) : Z :=
  fold_left (fun acc x => Z.lor (Z.shiftl acc 8) (Z_of_byte x)) b 0.

(** [binary.BigEndian.Uint32(b)]: reads [b[0..3]]; panics ([None]) on a
    slice shorter than four bytes. *)
Definition be_uint32 (b : bytes) : option Z :=
  if (length b <? 4)%nat then None else Some (be_value (firstn 4 b)).

(** [binary.BigEndian.Uint64(b)]. *)
Definition be_uint64 (b : bytes) : option Z :=
  if (length b <? 8)%nat then None else Some (be_value (firstn 8 b)).

End GoInt.

(** ** The recent-message filter (github.com/willf/bloom)

    The peer only constructs a filter, adds byte strings to it and tests
    them.  The library is an external dependency; its contract is the
    interface below: a fresh filter holds nothing, an added item tests
    positive, and adding never clears a bit. *)
Class BloomFilter (F : Type) := {
  bloom_new : F;
  bloom_add : bytes -> F -> F;
  bloom_test : bytes -> F -> bool;
  bloom_test_new : forall x, bloom_test x bloom_new = false;
  bloom_test_add : forall x f, bloom_test x (bloom_add x f) = true;
  bloom_test_mono :
    forall x y f, bloom_test y f = true -> bloom_test y (bloom_add x f) = true
}.

(** A bit-array filter with one hash position per item, the bit array held
    as a non-negative integer: the structure of the library's filter with
    the hash left as a parameter.  Distinct items that hash to the same
    position are false positives. *)
Module BitFilter.

Definition add (h : bytes -> Z) (x : bytes) (bits : Z) : Z :=
  Z.lor bits (Z.shiftl 1 (Z.abs (h x))).

Definition test (h : bytes -> Z) (x : bytes) (bits : Z) : bool :=
  Z.testbit bits (Z.abs (h x)).

Lemma test_add h x bits : test h x (add h x bits) = true.
Proof.
  unfold test, add. rewrite Z.lor_spec, Z.shiftl_spec by apply Z.abs_nonneg.
  rewrite Z.sub_diag. simpl. apply orb_true_r.
Qed.

Lemma test_mono h x y bits :
  test h y bits = true -> test h y (add h x bits) = true.
Proof.
  unfold test, add. intros Hy. rewrite Z.lor_spec, Hy. reflexivity.
Qed.

Lemma test_new h x : test h x 0 = false.
Proof. unfold test. apply Z.bits_0. Qed.

(** Sum of the byte values modulo 64: a small concrete hash. *)
Definition sum64 (x : bytes) : Z :=
  fold_left (fun acc b => (acc + GoInt.Z_of_byte b) mod 64) x 0.

End BitFilter.

#[export] Instance BitFilter64 : BloomFilter Z := {|
  bloom_new := 0;
  bloom_add := BitFilter.add BitFilter.sum64;
  bloom_test := BitFilter.test BitFilter.sum64;
  bloom_test_new := BitFilter.test_new BitFilter.sum64;
  bloom_test_add := BitFilter.test_add BitFilter.sum64;
  bloom_test_mono := BitFilter.test_mono BitFilter.sum64
|}.

(** ** The peer (p2p/peer.go) *)

Definition bloomMaxItemCount : Z := 100000.
Definition msgChanSize : nat := 1024.
Definition maxStreamCount : Z := 8.

(** Go [error] values seen by the peer: its three sentinels, and errors
    handed back by the transport (libp2p host and streams), which are never
    identical to a sentinel of this package. *)
Inductive error : Type :=
| ErrStreamCountExceed
| ErrMessageChannelFull
| ErrDuplicateMessage
| ErrTransport (code : nat).

Inductive MessagePriority : Type := UrgentMessage | NormalMessage.

(** Modelled from the spec: the message codec (type p2pMessage with
    content, needDedup and setTime, and parseP2PMessage) is not among the
    sources.  A message is what the peer observes of it: its content byte
    sequence, used both as wire payload and as dedup key, and its
    dedup-required flag. *)
Record p2pMessage : Type := {
  content : bytes;
  needDedup : bool
}.

(** A libp2p stream, named by a number. *)
Definition Stream := nat.

(** Calls the peer makes on its collaborators, in the order made. *)
Inductive Event : Type :=
| EvHostNewStream
| EvSpawnReadLoop (s : Stream)
| EvStreamClose (s : Stream)
| EvSetWriteDeadline (s : Stream) (now timeout : Z)
| EvStreamWrite (s : Stream) (payload : bytes)
| EvRemoveNeighbor
| EvHandleMessage (m : p2pMessage).

Section PeerModel.

Context {F : Type} `{BloomFilter F}.

(** Buffered channels are FIFO lists, oldest element first; the close of
    [quitWriteCh] is a flag. *)
Record Peer : Type := {
  streams : list Stream;
  streamCount : Z;
  recentMsg : F;
  bloomItemCount : Z;
  urgentMsgCh : list p2pMessage;
  normalMsgCh : list p2pMessage;
  quitWriteCh : bool
}.

Definition set_pool (p : Peer) (ss : list Stream) (n : Z) : Peer :=
  {| streams := ss; streamCount := n;
     recentMsg := recentMsg p; bloomItemCount := bloomItemCount p;
     urgentMsgCh := urgentMsgCh p; normalMsgCh := normalMsgCh p;
     quitWriteCh := quitWriteCh p |}.

Definition set_bloom (p : Peer) (f : F) (n : Z) : Peer :=
  {| streams := streams p; streamCount := streamCount p;
     recentMsg := f; bloomItemCount := n;
     urgentMsgCh := urgentMsgCh p; normalMsgCh := normalMsgCh p;
     quitWriteCh := quitWriteCh p |}.

Definition set_queues (p : Peer) (u n : list p2pMessage) : Peer :=
  {| streams := streams p; streamCount := streamCount p;
     recentMsg := recentMsg p; bloomItemCount := bloomItemCount p;
     urgentMsgCh := u; normalMsgCh := n;
     quitWriteCh := quitWriteCh p |}.

(** The peer [NewPeer] builds before it registers the first stream. *)
Definition emptyPeer : Peer :=
  {| streams := []; streamCount := 0;
     recentMsg := bloom_new; bloomItemCount := 0;
     urgentMsgCh := []; normalMsgCh := [];
     quitWriteCh := false |}.

(** *** Dedup filter *)

Definition recordMessage (p : Peer) (msg : p2pMessage) : Peer :=
  let '(f, n) :=
    if bloomMaxItemCount <=? bloomItemCount p
    then (bloom_new, 0)
    else (recentMsg p, bloomItemCount p) in
  set_bloom p (bloom_add (content msg) f) (GoInt.wrap64 (n + 1)).

Definition hasMessage (p : Peer) (msg : p2pMessage) : bool :=
  bloom_test (content msg) (recentMsg p).

(** *** Submission *)

Definition SendMessage (p : Peer) (msg : p2pMessage) (mp : MessagePriority)
    (deduplicate : bool) : Peer * option error :=
  if deduplicate && needDedup msg && hasMessage p msg
  then (p, Some ErrDuplicateMessage)
  else
    let ch := match mp with
              | NormalMessage => normalMsgCh p
              | UrgentMessage => urgentMsgCh p
              end in
    if (length ch <? msgChanSize)%nat then
      let p1 := match mp with
                | NormalMessage => set_queues p (urgentMsgCh p) (ch ++ [msg])
                | UrgentMessage => set_queues p (ch ++ [msg]) (normalMsgCh p)
                end in
      ((if needDedup msg then recordMessage p1 msg else p1), None)
    else (p, Some ErrMessageChannelFull).

(** *** Receiving *)

Definition handleMessage (p : Peer) (msg : p2pMessage) : Peer * list Event :=
  ((if needDedup msg then recordMessage p msg else p), [EvHandleMessage msg]).

(** *** Stream pool

    The pool operations and [write] run on the peer and call out to the
    transport; [Act] threads the peer and collects the calls made. *)

Definition Act (A : Type) : Type := Peer -> A * Peer * list Event.

Definition ret {A} (a : A) : Act A := fun p => (a, p, []).

Definition bind {A B} (c : Act A) (k : A -> Act B) : Act B :=
  fun p =>
    let '(a, p1, e1) := c p in
    let '(b, p2, e2) := k a p1 in
    (b, p2, e1 ++ e2).

Definition get : Act Peer := fun p => (p, p, []).
Definition put (p' : Peer) : Act unit := fun _ => (tt, p', []).
Definition emit (e : Event) : Act unit := fun p => (tt, p, [e]).

Notation "x <- c ;; k" := (bind c (fun x => k))
  (at level 61, c at next level, right associativity).
Notation "c ;;; k" := (bind c (fun _ => k))
  (at level 61, right associativity).

(** A send on the buffered channel [p.streams] (capacity
    [maxStreamCount]): [false] when the buffer is full and the sender
    would have to wait. *)
Definition streams_send (s : Stream) : Act bool :=
  p <- get ;;
  if Z.of_nat (length (streams p)) <? maxStreamCount
  then put (set_pool p (streams p ++ [s]) (streamCount p)) ;;; ret true
  else ret false.

(** Outcome of [AddStream]: the returned error, or the caller parked on
    the channel send. *)
Inductive AddResult : Type :=
| AddReturned (err : option error)
| AddParked.

Definition AddStream (stream : Stream) : Act AddResult :=
  p <- get ;;
  if maxStreamCount <=? streamCount p then ret (AddReturned (Some ErrStreamCountExceed))
  else
    sent <- streams_send stream ;;
    if sent then
      p1 <- get ;;
      put (set_pool p1 (streams p1) (GoInt.wrap64 (streamCount p1 + 1))) ;;;
      emit (EvSpawnReadLoop stream) ;;;
      ret (AddReturned None)
    else ret AddParked.

Definition CloseStream (stream : Stream) : Act unit :=
  emit (EvStreamClose stream) ;;;
  p <- get ;;
  put (set_pool p (streams p) (GoInt.wrap64 (streamCount p - 1))).

(** [newStream]; [host] is what [host.NewStream] answers if it is called:
    a stream or a transport error code. *)
Definition newStream (host : Stream + nat) : Act (Stream + error) :=
  p <- get ;;
  if maxStreamCount <=? streamCount p then ret (inr ErrStreamCountExceed)
  else
    emit EvHostNewStream ;;;
    match host with
    | inr code => ret (inr (ErrTransport code))
    | inl stream =>
        put (set_pool p (streams p) (GoInt.wrap64 (streamCount p + 1))) ;;;
        emit (EvSpawnReadLoop stream) ;;;
        ret (inl stream)
    end.

(** Outcome of [getStream]: a stream with a nil error, an error, or the
    caller parked on the final receive [<-p.streams]. *)
Inductive GetResult : Type :=
| GotStream (s : Stream)
| GetFailed (e : error)
| GetParked.

Definition getStream (host : Stream + nat) : Act GetResult :=
  p <- get ;;
  match streams p with
  | stream :: rest =>
      put (set_pool p rest (streamCount p)) ;;; ret (GotStream stream)
  | [] =>
      r <- newStream host ;;
      match r with
      | inr ErrStreamCountExceed => ret GetParked
      | inr err => ret (GetFailed err)
      | inl stream => ret (GotStream stream)
      end
  end.

(** A caller parked in [getStream] wakes up with the oldest idle stream
    once the channel holds one. *)
Definition getStream_wake : Act (option Stream) :=
  p <- get ;;
  match streams p with
  | stream :: rest => put (set_pool p rest (streamCount p)) ;;; ret (Some stream)
  | [] => ret None
  end.

(** *** Sending one message *)

(** What the transport and the clock answer during one [write]. *)
Record Env : Type := {
  host_NewStream : Stream + nat;
  stream_SetWriteDeadline : Stream -> Z -> Z -> option nat;
  stream_Write : Stream -> bytes -> option nat;
  time_Now : Z;
  setTime : p2pMessage -> p2pMessage
}.

(** [time.Duration(len(m.content())/1024/5+1) * time.Second], in
    nanoseconds; [n] is [len(m.content())]. *)
Definition writeTimeout (n : Z) : Z :=
  GoInt.wrap64 (GoInt.wrap64 (Z.quot (Z.quot n 1024) 5 + 1) * 1000000000).

Inductive WriteResult : Type :=
| WriteReturned (err : option error)
| WriteParkedAcquire
| WriteParkedRelease (s : Stream).

(** [write] from the point where it holds [stream]. *)
Definition write_on (env : Env) (m : p2pMessage) (stream : Stream) : Act WriteResult :=
  let timeout := writeTimeout (Z.of_nat (length (content m))) in
  emit (EvSetWriteDeadline stream (time_Now env) timeout) ;;;
  match stream_SetWriteDeadline env stream (time_Now env) timeout with
  | Some code =>
      CloseStream stream ;;; ret (WriteReturned (Some (ErrTransport code)))
  | None =>
      let payload := content (setTime env m) in
      emit (EvStreamWrite stream payload) ;;;
      match stream_Write env stream payload with
      | Some code =>
          CloseStream stream ;;; ret (WriteReturned (Some (ErrTransport code)))
      | None =>
          sent <- streams_send stream ;;
          if sent then ret (WriteReturned None)
          else ret (WriteParkedRelease stream)
      end
  end.

Definition write (env : Env) (m : p2pMessage) : Act WriteResult :=
  r <- getStream (host_NewStream env) ;;
  match r with
  | GetFailed err => emit EvRemoveNeighbor ;;; ret (WriteReturned (Some err))
  | GetParked => ret WriteParkedAcquire
  | GotStream stream => write_on env m stream
  end.

(** A [write] parked in [getStream] goes on from its wake-up. *)
Definition write_resume (env : Env) (m : p2pMessage) : Act WriteResult :=
  r <- getStream_wake ;;
  match r with
  | Some stream => write_on env m stream
  | None => ret WriteParkedAcquire
  end.

(** *** The pool under concurrent use

    What the goroutines do to the pool, one atomic action at a time:
    [AddStream], a writer acquiring a stream ([getStream] as a whole, its
    [newStream] alone when the channel was found empty a moment earlier,
    or its wake-up when parked), and a writer retiring ([CloseStream]) or
    releasing ([p.streams <- stream]) a stream it holds.  [held] lists the
    streams checked out by writers. *)
Inductive PoolOp : Type :=
| PoolAdd (s : Stream)
| PoolGet (host : Stream + nat)
| PoolNew (host : Stream + nat)
| PoolWake
| PoolClose (i : nat)
| PoolRelease (i : nat).

Definition pool_step (st : Peer * list Stream) (op : PoolOp) : Peer * list Stream :=
  let '(p, held) := st in
  match op with
  | PoolAdd s => let '(_, p', _) := AddStream s p in (p', held)
  | PoolGet host =>
      match getStream host p with
      | (GotStream s, p', _) => (p', s :: held)
      | (_, p', _) => (p', held)
      end
  | PoolNew host =>
      match newStream host p with
      | (inl s, p', _) => (p', s :: held)
      | (inr _, p', _) => (p', held)
      end
  | PoolWake =>
      match getStream_wake p with
      | (Some s, p', _) => (p', s :: held)
      | (None, p', _) => (p', held)
      end
  | PoolClose i =>
      match nth_error held i with
      | Some s => let '(_, p', _) := CloseStream s p in (p', remove_nth i held)
      | None => st
      end
  | PoolRelease i =>
      match nth_error held i with
      | Some s =>
          match streams_send s p with
          | (true, p', _) => (p', remove_nth i held)
          | (false, _, _) => st
          end
      | None => st
      end
  end.

Definition pool_run (ops : list PoolOp) : Peer * list Stream :=
  fold_left pool_step ops (emptyPeer, []).

(** [n] calls of [AddStream] in a row. *)
Definition add_streams (ss : list Stream) (p : Peer) : Peer :=
  fold_left (fun q s => let '(_, q', _) := AddStream s q in q') ss p.

(** *** Frame reader *)

(** The header layout constants of the message codec, which peer.go uses
    by name ([chainIDBegin], [chainIDEnd], [dataLengthBegin],
    [dataLengthEnd], [dataBegin]), the configured chain identifier and the
    codec's parser. *)
Record ReaderConfig : Type := {
  chainIDBegin : nat;
  chainIDEnd : nat;
  dataLengthBegin : nat;
  dataLengthEnd : nat;
  dataBegin : nat;
  ChainID : Z;
  parseP2PMessage : bytes -> p2pMessage + error
}.

(** The slice expression [l[a:b]]; [None] is the run-time panic. *)
Definition go_slice (l : bytes) (a b : nat) : option bytes :=
  if ((a <=? b) && (b <=? length l))%nat
  then Some (firstn (b - a) (skipn a l))
  else None.

Definition go_slice_from (l : bytes) (a : nat) : option bytes :=
  go_slice l a (length l).

(** [io.ReadFull] of [n] bytes from a stream on which [input] is still to
    arrive before it ends or fails: the bytes read and the rest, or an
    error. *)
Definition ReadFull (input : bytes) (n : nat) : option (bytes * bytes) :=
  if (n <=? length input)%nat
  then Some (firstn n input, skipn n input)
  else None.

Definition read_u32 (l : bytes) (a b : nat) : option Z :=
  match go_slice l a b with
  | Some field => GoInt.be_uint32 field
  | None => None
  end.

Inductive ReadExit : Type :=
| HeaderReadFailed
| MismatchedChainID (chainID : Z)
| BodyReadFailed
| ParseFailed (e : error)
| Panicked.

Inductive FrameResult : Type :=
| FrameDelivered (msg : p2pMessage) (rest : bytes)
| FrameExit (why : ReadExit) (rest : bytes).

(** One iteration of [readLoop] up to the call of [handleMessage].  The
    buffer size [dataBegin+length+8] and the offset [dataBegin+length] are
    [uint32] sums and wrap.  When the parser fails the loop leaves at its
    error check (or on the message-type lookup just before it, if the
    parser handed back no message); the metrics are not modelled. *)
Definition readFrame (cfg : ReaderConfig) (input : bytes) : FrameResult :=
  match ReadFull input (dataBegin cfg) with
  | None => FrameExit HeaderReadFailed input
  | Some (header, rest) =>
    match read_u32 header (chainIDBegin cfg) (chainIDEnd cfg) with
    | None => FrameExit Panicked rest
    | Some chainID =>
      if negb (chainID =? ChainID cfg) then FrameExit (MismatchedChainID chainID) rest
      else
        match read_u32 header (dataLengthBegin cfg) (dataLengthEnd cfg) with
        | None => FrameExit Panicked rest
        | Some len =>
          let total := GoInt.wrap_u32 (Z.of_nat (dataBegin cfg) + len + 8) in
          if total <? Z.of_nat (dataBegin cfg) then FrameExit Panicked rest
          else
            match ReadFull rest (Z.to_nat total - dataBegin cfg) with
            | None => FrameExit BodyReadFailed rest
            | Some (body, rest') =>
              let data := header ++ body in
              match parseP2PMessage cfg data with
              | inr e => FrameExit (ParseFailed e) rest'
              | inl msg =>
                let at_time :=
                  Z.to_nat (GoInt.wrap_u32 (Z.of_nat (dataBegin cfg) + len)) in
                match go_slice_from data at_time with
                | None => FrameExit Panicked rest'
                | Some tail =>
                  match GoInt.be_uint64 tail with
                  | None => FrameExit Panicked rest'
                  | Some sendingTime => FrameDelivered msg rest'
                  end
                end
              end
            end
        end
    end
  end.

Inductive LoopExit : Type :=
| Exited (why : ReadExit) (rest : bytes)
| OutOfFuel.

Fixpoint readLoop (fuel : nat) (cfg : ReaderConfig) (input : bytes) : Act LoopExit :=
  match fuel with
  | O => ret OutOfFuel
  | S fuel' =>
    match readFrame cfg input with
    | FrameExit why rest => ret (Exited why rest)
    | FrameDelivered msg rest =>
        (fun p => let '(p1, ev) := handleMessage p msg in (tt, p1, ev)) ;;;
        readLoop fuel' cfg rest
    end
  end.

End PeerModel.

Arguments Peer F : clear implicits.

(** ** The write scheduler ([writeLoop]) as a transition system

    [SendMessage] runs on any goroutine, [Stop] closes [quitWriteCh], the
    loop runs on its own goroutine and every normal send is spawned with
    [go p.write(nm)].  One step of the system is one such action; a
    schedule is the list of actions taken, and the trace lists what
    happened, oldest first.  [M] is what the queues carry. *)
Module Scheduler.
Section WriteLoop.

Variable M : Type.

Inductive Ev : Type :=
| Submitted (mp : MessagePriority) (m : M)
| Stopped
| TookUrgent (um : M)
| TookNormal (nm : M)
| WriteBegin (mp : MessagePriority) (m : M)
| WriteEnd (mp : MessagePriority) (m : M)
| Drained (nm : M)
| Dispatched (nm : M)
| LoopReturned.

(** Where the loop goroutine stands. *)
Inductive Loc : Type :=
| AtSelect
| GotUrgent (um : M)
| WritingUrgent (um : M)
| Draining (nm : M)
| DrainGot (nm um : M)
| DrainWriting (nm um : M)
| Dispatching (nm : M)
| Returned.

Record State : Type := {
  urgentCh : list M;
  normalCh : list M;
  quitCh : bool;
  loc : Loc;
  spawned : list M;
  sending : list M
}.

(** The peer after [NewPeer] and [Start]. *)
Definition init : State :=
  {| urgentCh := []; normalCh := []; quitCh := false; loc := AtSelect;
     spawned := []; sending := [] |}.

(** Which ready case a [select] takes. *)
Inductive Choice : Type := TakeQuit | TakeUrgent | TakeNormal | TakeDefault.

Inductive Action : Type :=
| DoSubmit (mp : MessagePriority) (m : M)
| DoStop
| DoLoop (c : Choice)
| DoGoBegin (i : nat)
| DoGoEnd (i : nat).

Definition with_loc (s : State) (l : Loc) : State :=
  {| urgentCh := urgentCh s; normalCh := normalCh s; quitCh := quitCh s;
     loc := l; spawned := spawned s; sending := sending s |}.

Definition with_chans (s : State) (u n : list M) (l : Loc) : State :=
  {| urgentCh := u; normalCh := n; quitCh := quitCh s;
     loc := l; spawned := spawned s; sending := sending s |}.

(** The non-blocking channel send of [SendMessage]. *)
Definition submit (s : State) (mp : MessagePriority) (m : M) : option State :=
  match mp with
  | NormalMessage =>
      if (length (normalCh s) <? msgChanSize)%nat
      then Some (with_chans s (urgentCh s) (normalCh s ++ [m]) (loc s))
      else None
  | UrgentMessage =>
      if (length (urgentCh s) <? msgChanSize)%nat
      then Some (with_chans s (urgentCh s ++ [m]) (normalCh s) (loc s))
      else None
  end.

(** One step of the loop goroutine.  A [select] takes any case that is
    ready, and its [default] only when none is. *)
Definition loop_step (s : State) (c : Choice) : option (State * Ev) :=
  match loc s with
  | AtSelect =>
      match c with
      | TakeQuit =>
          if quitCh s then Some (with_loc s Returned, LoopReturned) else None
      | TakeUrgent =>
          match urgentCh s with
          | um :: rest =>
              Some (with_chans s rest (normalCh s) (GotUrgent um), TookUrgent um)
          | [] => None
          end
      | TakeNormal =>
          match normalCh s with
          | nm :: rest =>
              Some (with_chans s (urgentCh s) rest (Draining nm), TookNormal nm)
          | [] => None
          end
      | TakeDefault => None
      end
  | GotUrgent um => Some (with_loc s (WritingUrgent um), WriteBegin UrgentMessage um)
  | WritingUrgent um => Some (with_loc s AtSelect, WriteEnd UrgentMessage um)
  | Draining nm =>
      match c with
      | TakeQuit =>
          if quitCh s then Some (with_loc s Returned, LoopReturned) else None
      | TakeUrgent =>
          match urgentCh s with
          | um :: rest =>
              Some (with_chans s rest (normalCh s) (DrainGot nm um), TookUrgent um)
          | [] => None
          end
      | TakeNormal => None
      | TakeDefault =>
          match urgentCh s, quitCh s with
          | [], false => Some (with_loc s (Dispatching nm), Drained nm)
          | _, _ => None
          end
      end
  | DrainGot nm um =>
      Some (with_loc s (DrainWriting nm um), WriteBegin UrgentMessage um)
  | DrainWriting nm um =>
      Some (with_loc s (Draining nm), WriteEnd UrgentMessage um)
  | Dispatching nm =>
      Some ({| urgentCh := urgentCh s; normalCh := normalCh s;
               quitCh := quitCh s; loc := AtSelect;
               spawned := spawned s ++ [nm]; sending := sending s |},
            Dispatched nm)
  | Returned => None
  end.

Definition step (s : State) (a : Action) : option (State * Ev) :=
  match a with
  | DoSubmit mp m =>
      match submit s mp m with
      | Some s' => Some (s', Submitted mp m)
      | None => None
      end
  | DoStop =>
      Some ({| urgentCh := urgentCh s; normalCh := normalCh s;
               quitCh := true; loc := loc s;
               spawned := spawned s; sending := sending s |}, Stopped)
  | DoLoop c => loop_step s c
  | DoGoBegin i =>
      match nth_error (spawned s) i with
      | Some nm =>
          Some ({| urgentCh := urgentCh s; normalCh := normalCh s;
                   quitCh := quitCh s; loc := loc s;
                   spawned := remove_nth i (spawned s);
                   sending := sending s ++ [nm] |},
                WriteBegin NormalMessage nm)
      | None => None
      end
  | DoGoEnd i =>
      match nth_error (sending s) i with
      | Some nm =>
          Some ({| urgentCh := urgentCh s; normalCh := normalCh s;
                   quitCh := quitCh s; loc := loc s;
                   spawned := spawned s;
                   sending := remove_nth i (sending s) |},
                WriteEnd NormalMessage nm)
      | None => None
      end
  end.

(** Run a schedule; an action that is not enabled changes nothing (a
    rejected submission, a case that is not ready). *)
Fixpoint exec (sched : list Action) (s : State) (trace : list Ev)
    : State * list Ev :=
  match sched with
  | [] => (s, trace)
  | a :: rest =>
      match step s a with
      | Some (s', e) => exec rest s' (trace ++ [e])
      | None => exec rest s trace
      end
  end.

Definition run (sched : list Action) : State * list Ev := exec sched init [].

(** [a] happened strictly earlier than [b]. *)
Definition before (a b : Ev) (trace : list Ev) : Prop :=
  exists t1 t2 t3, trace = t1 ++ a :: t2 ++ b :: t3.

(** The values a selector picks out of a trace, in order. *)
Fixpoint pick {A : Type} (f : Ev -> option A) (trace : list Ev) : list A :=
  match trace with
  | [] => []
  | e :: rest =>
      match f e with
      | Some a => a :: pick f rest
      | None => pick f rest
      end
  end.

Definition is_submitted (e : Ev) : option (MessagePriority * M) :=
  match e with Submitted mp m => Some (mp, m) | _ => None end.

Definition is_urgent_submitted (e : Ev) : option M :=
  match e with Submitted UrgentMessage m => Some m | _ => None end.

Definition is_normal_submitted (e : Ev) : option M :=
  match e with Submitted NormalMessage m => Some m | _ => None end.

Definition is_urgent_taken (e : Ev) : option M :=
  match e with TookUrgent m => Some m | _ => None end.

Definition is_normal_taken (e : Ev) : option M :=
  match e with TookNormal m => Some m | _ => None end.

Definition is_urgent_begun (e : Ev) : option M :=
  match e with WriteBegin UrgentMessage m => Some m | _ => None end.

Definition is_urgent_written (e : Ev) : option M :=
  match e with WriteEnd UrgentMessage m => Some m | _ => None end.

(** Every accepted submission, with its priority, in submission order. *)
Definition submissions (trace : list Ev) : list (MessagePriority * M) :=
  pick is_submitted trace.

(** The urgent messages in submission order, in the order their [p.write]
    was entered, and in the order it returned. *)
Definition urgent_submitted (trace : list Ev) : list M :=
  pick is_urgent_submitted trace.

Definition urgent_begun (trace : list Ev) : list M :=
  pick is_urgent_begun trace.

Definition urgent_written (trace : list Ev) : list M :=
  pick is_urgent_written trace.

End WriteLoop.

Arguments Submitted {M}.
Arguments Stopped {M}.
Arguments TookUrgent {M}.
Arguments TookNormal {M}.
Arguments WriteBegin {M}.
Arguments WriteEnd {M}.
Arguments Drained {M}.
Arguments Dispatched {M}.
Arguments LoopReturned {M}.
Arguments AtSelect {M}.
Arguments GotUrgent {M}.
Arguments WritingUrgent {M}.
Arguments Draining {M}.
Arguments DrainGot {M}.
Arguments DrainWriting {M}.
Arguments Dispatching {M}.
Arguments Returned {M}.
Arguments DoSubmit {M}.
Arguments DoStop {M}.
Arguments DoLoop {M}.
Arguments DoGoBegin {M}.
Arguments DoGoEnd {M}.
Arguments urgentCh {M}.
Arguments normalCh {M}.
Arguments quitCh {M}.
Arguments loc {M}.
Arguments spawned {M}.
Arguments sending {M}.
Arguments init {M}.
Arguments with_loc {M}.
Arguments with_chans {M}.
Arguments submit {M}.
Arguments loop_step {M}.
Arguments step {M}.
Arguments exec {M}.
Arguments run {M}.
Arguments before {M}.
Arguments pick {M A}.
Arguments is_submitted {M}.
Arguments is_urgent_submitted {M}.
Arguments is_normal_submitted {M}.
Arguments is_urgent_taken {M}.
Arguments is_normal_taken {M}.
Arguments is_urgent_begun {M}.
Arguments is_urgent_written {M}.
Arguments submissions {M}.
Arguments urgent_submitted {M}.
Arguments urgent_begun {M}.
Arguments urgent_written {M}.

End Scheduler.

(** ** The naive network: length-prefixed requests over TCP *)
Module NaiveNetwork.

Definition HEADLENGTH : nat := 4.

(** A Go value handed to [binary.Write], with its static type. *)
Inductive GoValue : Type :=
| GoInt_ (z : Z)
| GoInt32 (z : Z).

(** [binary.Write(buf, binary.BigEndian, v)].  The package encodes
    fixed-size values only: an [int32] is appended as four bytes, a value
    of type [int] is refused with an error and nothing is appended. *)
Definition binary_Write (buf : bytes) (v : GoValue) : bytes * option error :=
  match v with
  | GoInt32 z => (buf ++ GoInt.be_put32 z, None)
  | GoInt_ _ => (buf, Some (ErrTransport 0))
  end.

(** The bytes of [int32buf] in [Send]: [length] is [len(buf)], an [int],
    and the error of [binary.Write] is dropped. *)
Definition Send_head (body : bytes) : bytes :=
  fst (binary_Write [] (GoInt_ (Z.of_nat (length body)))).

(** The database key under which peer [i] is looked up. *)
Definition Send_key (i : Z) : bytes := fst (binary_Write [] (GoInt32 i)).

(** [Send] for a request that marshals to [body]: for each of the two
    peers, its key and the bytes written on the connection to it (the
    head, then the body). *)
Definition Send (body : bytes) : list (bytes * bytes) :=
  map (fun i => (Send_key i, Send_head body ++ body)) [1; 2].

(** [conn.Read(buf)] on a buffer of [n] zero bytes while [incoming] is
    still to arrive; the transport hands over at most [limit] bytes in
    this call.  Returns the buffer, the count read and the rest. *)
Definition conn_Read (incoming : bytes) (n limit : nat) : bytes * nat * bytes :=
  let k := Nat.min (Nat.min n limit) (length incoming) in
  (firstn k incoming ++ repeat x00 (n - k), k, skipn k incoming).

(** The connection handler of [Listen]: the length it decodes from the
    head, the number of body bytes the second read returns, and the
    buffer passed to [Unmarshal]. *)
Definition Listen_handler (incoming : bytes) (limit1 limit2 : nat)
    : option (Z * nat * bytes) :=
  let '(buf, _, rest) := conn_Read incoming HEADLENGTH limit1 in
  match GoInt.be_uint32 buf with
  | None => None
  | Some len =>
      let '(_buf, n, _) := conn_Read rest (Z.to_nat len) limit2 in
      Some (len, n, _buf)
  end.

End NaiveNetwork.

(** * Properties *)

(** ** Machine integers *)

Lemma wrap64_id z : GoInt.in_int64 z -> GoInt.wrap64 z = z.
Proof.
  unfold GoInt.in_int64, GoInt.wrap64. intros Hz.
  rewrite Z.mod_small; lia.
Qed.

Lemma wrap64_range z : GoInt.in_int64 (GoInt.wrap64 z).
Proof.
  unfold GoInt.in_int64, GoInt.wrap64.
  pose proof (Z.mod_pos_bound (z + 2 ^ 63) (2 ^ 64) ltac:(lia)). lia.
Qed.


Lemma Z_of_byte_of_Z z : GoInt.Z_of_byte (GoInt.byte_of_Z z) = z mod 256.
Proof.
  unfold GoInt.Z_of_byte, GoInt.byte_of_Z.
  pose proof (Z.mod_pos_bound z 256 ltac:(lia)) as Hb.
  destruct (Byte.of_N (Z.to_N (z mod 256))) as [b|] eqn:E.
  - apply Byte.to_of_N in E. rewrite E. lia.
  - apply Byte.of_N_None_iff in E. lia.
Qed.

Lemma lor_shiftl8 a b : 0 <= b < 256 -> Z.lor (Z.shiftl a 8) b = a * 256 + b.
Proof.
  intros Hb. rewrite Z.shiftl_mul_pow2 by lia. change (2 ^ 8) with 256.
  assert (Hland : Z.land (a * 256) b = 0).
  { apply Z.bits_inj'. intros k Hk. rewrite Z.land_spec, Z.bits_0.
    destruct (Z.ltb_spec k 8).
    - change 256 with (2 ^ 8). rewrite Z.mul_pow2_bits_low by lia. reflexivity.
    - replace b with (b mod 2 ^ 8) by (apply Z.mod_small; lia).
      rewrite Z.mod_pow2_bits_high by lia. apply andb_false_r. }
  rewrite <- Z.lxor_lor, <- Z.add_nocarry_lxor by exact Hland. reflexivity.
Qed.

(** A 32-bit value written big-endian reads back as itself. *)
Lemma be_put32_uint32 z :
  0 <= z < 2 ^ 32 -> GoInt.be_uint32 (GoInt.be_put32 z) = Some z.
Proof.
  intros Hz. unfold GoInt.be_uint32, GoInt.be_put32, GoInt.be_value.
  cbn [length Nat.ltb Nat.leb firstn fold_left]. f_equal.
  rewrite !Z_of_byte_of_Z.
  rewrite !lor_shiftl8 by (apply Z.mod_pos_bound; lia).
  rewrite !Z.shiftr_div_pow2 by lia.
  change (2 ^ 24) with (256 * (256 * 256)). change (2 ^ 16) with (256 * 256).
  change (2 ^ 8) with 256.
  rewrite <- !Z.div_div by lia.
  pose proof (Z.div_mod z 256 ltac:(lia)).
  pose proof (Z.div_mod (z / 256) 256 ltac:(lia)).
  pose proof (Z.div_mod (z / 256 / 256) 256 ltac:(lia)).
  assert (0 <= z / 256 / 256 / 256 < 256).
  { split; [repeat apply Z.div_pos; lia|].
    repeat (apply Z.div_lt_upper_bound; [lia|]). lia. }
  rewrite (Z.mod_small (z / 256 / 256 / 256) 256) by lia.
  lia.
Qed.

(** ** Dedup filter *)
Section DedupFacts.

Context {F : Type} `{BloomFilter F}.

Definition recordAll (p : Peer F) (ms : list p2pMessage) : Peer F :=
  fold_left recordMessage ms p.

Lemma recordMessage_below (p : Peer F) msg :
  GoInt.in_int64 (bloomItemCount p) ->
  bloomItemCount p < bloomMaxItemCount ->
  recordMessage p msg =
  set_bloom p (bloom_add (content msg) (recentMsg p)) (bloomItemCount p + 1).
Proof.
  intros Hr Hlt. unfold recordMessage.
  destruct (Z.leb_spec bloomMaxItemCount (bloomItemCount p)); [lia|].
  rewrite wrap64_id; [reflexivity|].
  unfold GoInt.in_int64, bloomMaxItemCount in *. lia.
Qed.

Lemma recordMessage_at_capacity (p : Peer F) msg :
  bloomMaxItemCount <= bloomItemCount p ->
  recordMessage p msg = set_bloom p (bloom_add (content msg) bloom_new) 1.
Proof.
  intros Hge. unfold recordMessage.
  destruct (Z.leb_spec bloomMaxItemCount (bloomItemCount p)); [|lia].
  reflexivity.
Qed.

Lemma recordMessage_has (p : Peer F) msg :
  hasMessage (recordMessage p msg) msg = true.
Proof.
  unfold recordMessage, hasMessage.
  destruct (bloomMaxItemCount <=? bloomItemCount p); simpl; apply bloom_test_add.
Qed.


(** Records that stay within the capacity keep every earlier positive. *)
Lemma recordAll_no_reset (ms : list p2pMessage) : forall (p : Peer F),
  GoInt.in_int64 (bloomItemCount p) ->
  bloomItemCount p + Z.of_nat (length ms) <= bloomMaxItemCount ->
  bloomItemCount (recordAll p ms) = bloomItemCount p + Z.of_nat (length ms)
  /\ forall m, (hasMessage p m = true \/ In m ms) ->
               hasMessage (recordAll p ms) m = true.
Proof.
  induction ms as [|x ms IH]; intros p H0 Hcap.
  - simpl. split; [lia|]. intros m [Hm|[]]. exact Hm.
  - cbn [length] in Hcap. rewrite Nat2Z.inj_succ in Hcap.
    assert (Hlt : bloomItemCount p < bloomMaxItemCount) by lia.
    pose proof (recordMessage_below p x H0 Hlt) as Hstep.
    unfold recordAll. cbn [fold_left]. fold (recordAll (recordMessage p x) ms).
    destruct (IH (recordMessage p x)) as [Hc Hpos].
    + rewrite Hstep. simpl.
      unfold GoInt.in_int64, bloomMaxItemCount in *. lia.
    + rewrite Hstep. simpl. lia.
    + split.
      * rewrite Hc, Hstep. cbn [length]. simpl bloomItemCount. lia.
      * intros m Hm. apply Hpos.
        destruct Hm as [Hm|[Hx|Hm]]; [ | subst m | ].
        -- left. rewrite Hstep. unfold hasMessage in *. simpl.
           apply bloom_test_mono. exact Hm.
        -- left. apply recordMessage_has.
        -- right. exact Hm.
Qed.

(** C7: [recordMessage] swaps in a fresh filter and restarts the counter
    when the counter has reached [bloomMaxItemCount], then adds the
    content and increments the counter.  Hence once exactly capacity
    items are recorded the next record resets the filter, and every item
    recorded from a reset on tests positive, at once and for as long as
    the capacity is not reached again. *)
Theorem recordMessage_resets_at_capacity :
  forall (p : Peer F) (msg : p2pMessage),
    GoInt.in_int64 (bloomItemCount p) ->
    recordMessage p msg =
      (if bloomMaxItemCount <=? bloomItemCount p
       then set_bloom p (bloom_add (content msg) bloom_new) 1
       else set_bloom p (bloom_add (content msg) (recentMsg p))
                      (bloomItemCount p + 1))
    /\ hasMessage (recordMessage p msg) msg = true
    /\ (forall ms,
          bloomItemCount p = 0 ->
          Z.of_nat (length ms) = bloomMaxItemCount ->
          bloomItemCount (recordAll p ms) = bloomMaxItemCount
          /\ (forall m, In m ms -> hasMessage (recordAll p ms) m = true)
          /\ recordMessage (recordAll p ms) msg =
             set_bloom (recordAll p ms) (bloom_add (content msg) bloom_new) 1)
    /\ (forall ms m,
          bloomItemCount (recordMessage p msg) + Z.of_nat (length ms)
            <= bloomMaxItemCount ->
          m = msg \/ In m ms ->
          hasMessage (recordAll (recordMessage p msg) ms) m = true).
Proof.
  intros p msg Hr. split; [|split; [|split]].
  - destruct (Z.leb_spec bloomMaxItemCount (bloomItemCount p)).
    + apply recordMessage_at_capacity. assumption.
    + apply recordMessage_below; assumption.
  - apply recordMessage_has.
  - intros ms Hz Hlen.
    destruct (recordAll_no_reset ms p Hr) as [Hc Hpos]; [lia|].
    split; [lia|]. split.
    + intros m Hm. apply Hpos. right. exact Hm.
    + apply recordMessage_at_capacity. lia.
  - intros ms m Hcap Hm.
    assert (H0 : GoInt.in_int64 (bloomItemCount (recordMessage p msg))).
    { unfold recordMessage.
      destruct (bloomMaxItemCount <=? bloomItemCount p); simpl;
        apply wrap64_range. }
    destruct (recordAll_no_reset ms (recordMessage p msg) H0 Hcap) as [_ Hpos].
    apply Hpos.
    destruct Hm as [Hx|Hm]; [subst m; left; apply recordMessage_has | right; exact Hm].
Qed.

End DedupFacts.

(** ** Submission *)
Section SubmitFacts.

Context {F : Type} `{BloomFilter F}.

(** What else happens to a peer between two submissions: further
    submissions, messages received by a frame reader, and the write
    loop taking the head of a queue. *)
Inductive PeerOp : Type :=
| OpSend (msg : p2pMessage) (mp : MessagePriority) (deduplicate : bool)
| OpHandle (msg : p2pMessage)
| OpTakeUrgent
| OpTakeNormal.

Definition apply_op (p : Peer F) (op : PeerOp) : Peer F :=
  match op with
  | OpSend msg mp d => fst (SendMessage p msg mp d)
  | OpHandle msg => fst (handleMessage p msg)
  | OpTakeUrgent => set_queues p (tl (urgentMsgCh p)) (normalMsgCh p)
  | OpTakeNormal => set_queues p (urgentMsgCh p) (tl (normalMsgCh p))
  end.

(** Whether the operation calls [recordMessage]. *)
Definition op_records (p : Peer F) (op : PeerOp) : bool :=
  match op with
  | OpSend msg mp d =>
      match snd (SendMessage p msg mp d) with
      | None => needDedup msg
      | Some _ => false
      end
  | OpHandle msg => needDedup msg
  | _ => false
  end.

Definition apply_ops (ops : list PeerOp) (p : Peer F) : Peer F :=
  fold_left apply_op ops p.

(** The number of messages recorded while [ops] run from [p]. *)
Fixpoint records (ops : list PeerOp) (p : Peer F) : Z :=
  match ops with
  | [] => 0
  | op :: rest =>
      (if op_records p op then 1 else 0) + records rest (apply_op p op)
  end.

Lemma SendMessage_rejected (p p' : Peer F) msg mp d e :
  SendMessage p msg mp d = (p', Some e) ->
  p' = p /\
  ((e = ErrDuplicateMessage /\ d = true /\ needDedup msg = true
    /\ hasMessage p msg = true)
   \/ (e = ErrMessageChannelFull /\ d && needDedup msg && hasMessage p msg = false)).
Proof.
  unfold SendMessage.
  destruct (d && needDedup msg && hasMessage p msg) eqn:Edup.
  - intros [= <- <-]. split; [reflexivity|]. left.
    apply andb_prop in Edup as [Edup ?]. apply andb_prop in Edup as [? ?].
    auto.
  - destruct mp.
    + destruct (length (urgentMsgCh p) <? msgChanSize)%nat; intros [= <- <-].
      split; [reflexivity|]. right. auto.
    + destruct (length (normalMsgCh p) <? msgChanSize)%nat; intros [= <- <-].
      split; [reflexivity|]. right. auto.
Qed.

Lemma SendMessage_accepted (p p' : Peer F) msg mp d :
  SendMessage p msg mp d = (p', None) ->
  d && needDedup msg && hasMessage p msg = false
  /\ p' = (let q := match mp with
                    | NormalMessage =>
                        set_queues p (urgentMsgCh p) (normalMsgCh p ++ [msg])
                    | UrgentMessage =>
                        set_queues p (urgentMsgCh p ++ [msg]) (normalMsgCh p)
                    end in
           if needDedup msg then recordMessage q msg else q)
  /\ (length (match mp with
              | NormalMessage => normalMsgCh p
              | UrgentMessage => urgentMsgCh p
              end) < msgChanSize)%nat.
Proof.
  unfold SendMessage.
  destruct (d && needDedup msg && hasMessage p msg) eqn:Edup; [discriminate|].
  destruct mp.
  - destruct (Nat.ltb_spec (length (urgentMsgCh p)) msgChanSize);
      intros [= <-]; auto.
  - destruct (Nat.ltb_spec (length (normalMsgCh p)) msgChanSize);
      intros [= <-]; auto.
Qed.

Lemma apply_op_bloom (p : Peer F) op :
  (op_records p op = false
   /\ recentMsg (apply_op p op) = recentMsg p
   /\ bloomItemCount (apply_op p op) = bloomItemCount p)
  \/ (op_records p op = true
      /\ exists q msg,
           recentMsg q = recentMsg p /\ bloomItemCount q = bloomItemCount p
           /\ recentMsg (apply_op p op) = recentMsg (recordMessage q msg)
           /\ bloomItemCount (apply_op p op) = bloomItemCount (recordMessage q msg)).
Proof.
  destruct op as [msg mp d|msg| |]; simpl.
  - destruct (SendMessage p msg mp d) as [p' [e|]] eqn:E; simpl.
    + apply SendMessage_rejected in E as [-> _]. left. auto.
    + apply SendMessage_accepted in E as (_ & -> & _).
      destruct (needDedup msg); [right|left].
      * split; [reflexivity|].
        destruct mp;
          [ exists (set_queues p (urgentMsgCh p ++ [msg]) (normalMsgCh p))
          | exists (set_queues p (urgentMsgCh p) (normalMsgCh p ++ [msg])) ];
          exists msg; simpl; (split; [|split; [|split]]); reflexivity.
      * destruct mp; simpl; auto.
  - destruct (needDedup msg); [right|left]; auto.
    split; [reflexivity|]. exists p, msg. auto.
  - left. auto.
  - left. auto.
Qed.

Lemma apply_ops_no_reset (ops : list PeerOp) : forall (p : Peer F) m,
  GoInt.in_int64 (bloomItemCount p) ->
  bloomItemCount p + records ops p <= bloomMaxItemCount ->
  hasMessage p m = true ->
  hasMessage (apply_ops ops p) m = true.
Proof.
  induction ops as [|op ops IH]; intros p m Hr Hcap Hm; [exact Hm|].
  unfold apply_ops. cbn [fold_left]. fold (apply_ops ops (apply_op p op)).
  cbn [records] in Hcap.
  assert (Hnn : forall l (q : Peer F), 0 <= records l q).
  { induction l as [|o l IHl]; intros q; cbn [records]; [lia|].
    specialize (IHl (apply_op q o)). destruct (op_records q o); lia. }
  pose proof (Hnn ops (apply_op p op)) as Hrest.
  destruct (apply_op_bloom p op) as [(Eo & Hf & Hc)|(Eo & q & msg & Hqf & Hqc & Hf & Hc)];
    rewrite Eo in Hcap.
  - apply IH.
    + rewrite Hc. exact Hr.
    + rewrite Hc. lia.
    + unfold hasMessage in *. rewrite Hf. exact Hm.
  - assert (Hlt : bloomItemCount q < bloomMaxItemCount) by lia.
    assert (Hqr : GoInt.in_int64 (bloomItemCount q)) by (rewrite Hqc; exact Hr).
    rewrite (recordMessage_below q msg Hqr Hlt) in Hf, Hc. simpl in Hf, Hc.
    apply IH.
    + rewrite Hc. unfold GoInt.in_int64, bloomMaxItemCount in *. lia.
    + rewrite Hc. lia.
    + unfold hasMessage in *. rewrite Hf, Hqf. apply bloom_test_mono. exact Hm.
Qed.

(** C9, amended: a rejected [SendMessage] leaves the peer as it was: both
    queues, the filter and its counter are those of before.  A message
    turned away with [ErrMessageChannelFull] is therefore not marked as
    seen by that call: if the call asked for deduplication, or the filter
    did not hold the message before it, then resubmitting the message
    against the filter as the call left it, whatever the queues hold by
    then, is not rejected as a duplicate.  In general such a resubmission
    is rejected as a duplicate exactly when it asks for deduplication, the
    message is eligible and the filter already held it. *)
Theorem SendMessage_rejection_leaves_peer :
  forall (p p' : Peer F) msg mp deduplicate e,
    SendMessage p msg mp deduplicate = (p', Some e) ->
    (e = ErrDuplicateMessage \/ e = ErrMessageChannelFull)
    /\ p' = p
    /\ urgentMsgCh p' = urgentMsgCh p
    /\ normalMsgCh p' = normalMsgCh p
    /\ recentMsg p' = recentMsg p
    /\ bloomItemCount p' = bloomItemCount p
    /\ (e = ErrMessageChannelFull ->
        (deduplicate = true \/ hasMessage p msg = false) ->
        forall u n mp2 d2,
          snd (SendMessage (set_queues p' u n) msg mp2 d2)
          <> Some ErrDuplicateMessage)
    /\ (forall u n mp2 d2,
          snd (SendMessage (set_queues p' u n) msg mp2 d2)
          = Some ErrDuplicateMessage
          <-> d2 && needDedup msg && hasMessage p msg = true).
Proof.
  intros p p' msg mp d e E.
  apply SendMessage_rejected in E as [-> Hcase].
  split; [destruct Hcase as [[He _]|[He _]]; auto|].
  repeat (split; [reflexivity|]).
  split.
  - intros He Hseen u n mp2 d2. subst e.
    destruct Hcase as [[Habs _]|[_ Hnot]]; [discriminate|].
    assert (Hno : needDedup msg && hasMessage p msg = false).
    { destruct Hseen as [ Hd | Hs ]; [subst d | rewrite Hs ];
        [exact Hnot|apply andb_false_r]. }
    unfold SendMessage.
    replace (hasMessage (set_queues p u n) msg) with (hasMessage p msg)
      by reflexivity.
    rewrite <- andb_assoc, Hno, andb_false_r.
    destruct mp2; simpl.
    + destruct (length u <? msgChanSize)%nat; simpl; discriminate.
    + destruct (length n <? msgChanSize)%nat; simpl; discriminate.
  - intros u n mp2 d2. unfold SendMessage.
    replace (hasMessage (set_queues p u n) msg) with (hasMessage p msg)
      by reflexivity.
    destruct (d2 && needDedup msg && hasMessage p msg).
    + split; reflexivity.
    + destruct mp2; simpl.
      * destruct (length u <? msgChanSize)%nat; simpl;
          split; discriminate.
      * destruct (length n <? msgChanSize)%nat; simpl;
          split; discriminate.
Qed.

(** C4, as the code has it: when the first submission of a
    dedup-eligible message is accepted, and the item counter after it
    plus the number of messages recorded until the second submission
    stays within the capacity (so the filter is not reset in between),
    the second submission with deduplication is rejected with
    [ErrDuplicateMessage] and the peer is left as it was. *)
Theorem SendMessage_twice_without_reset :
  forall (p p1 : Peer F) m mp1 mp2 ops,
    needDedup m = true ->
    GoInt.in_int64 (bloomItemCount p1) ->
    SendMessage p m mp1 true = (p1, None) ->
    bloomItemCount p1 + records ops p1 <= bloomMaxItemCount ->
    SendMessage (apply_ops ops p1) m mp2 true
    = (apply_ops ops p1, Some ErrDuplicateMessage).
Proof.
  intros p p1 m mp1 mp2 ops Hd Hr E Hcap.
  assert (Hm : hasMessage p1 m = true).
  { apply SendMessage_accepted in E as (_ & -> & _). rewrite Hd.
    destruct mp1; apply recordMessage_has. }
  pose proof (apply_ops_no_reset ops p1 m Hr Hcap Hm) as Hlater.
  unfold SendMessage. rewrite Hd, Hlater. reflexivity.
Qed.

End SubmitFacts.

(** *** Concrete peers *)

Definition msgA : p2pMessage := {| content := [x00]; needDedup := true |}.
Definition msgB : p2pMessage := {| content := [x01]; needDedup := true |}.
Definition msgC : p2pMessage := {| content := [x02]; needDedup := true |}.

(** The peer of [NewPeer] after its frame readers have delivered [msgA]
    [n] times. *)
Definition peer_after_receiving (n : N) : Peer Z :=
  N.iter n (fun p => fst (handleMessage p msgA)) emptyPeer.

(** A peer whose urgent queue is full. *)
Definition peer_queue_full : Peer Z :=
  set_queues emptyPeer (repeat msgA msgChanSize) [].

Lemma peer_after_receiving_eq (n : N) :
  (n < 100000)%N ->
  peer_after_receiving (N.succ n) = set_bloom emptyPeer 1 (Z.of_N (N.succ n)).
Proof.
  unfold peer_after_receiving.
  induction n as [|n IH] using N.peano_ind; intros Hn.
  - reflexivity.
  - rewrite N.iter_succ, IH by lia.
    unfold handleMessage. cbn [fst msgA needDedup].
    rewrite recordMessage_below.
    + unfold set_bloom.
      cbn [recentMsg bloomItemCount streams streamCount urgentMsgCh
           normalMsgCh quitWriteCh content msgA emptyPeer].
      change (bloom_add [x00] 1) with 1. f_equal. lia.
    + cbn -[Z.of_N]. unfold GoInt.in_int64. lia.
    + cbn -[Z.of_N]. unfold bloomMaxItemCount. lia.
Qed.

(** C4 fails as stated.  With 99,999 items already recorded, [msgB] is
    accepted, one other message is recorded and resets the filter, and
    [msgB] is accepted again: two successes with a single record in
    between.  And on a full queue both submissions are turned away with
    [ErrMessageChannelFull]: no success and no duplicate. *)
Lemma SendMessage_twice_counterexample :
  (let p0 := peer_after_receiving 99999 in
   let p1 := fst (SendMessage p0 msgB UrgentMessage true) in
   let p2 := fst (SendMessage p1 msgC UrgentMessage true) in
   snd (SendMessage p0 msgB UrgentMessage true) = None
   /\ records [OpSend msgC UrgentMessage true] p1 = 1
   /\ snd (SendMessage p2 msgB UrgentMessage true) = None
   /\ urgentMsgCh (fst (SendMessage p2 msgB UrgentMessage true))
      = [msgB; msgC; msgB])
  /\ (snd (SendMessage peer_queue_full msgB UrgentMessage true)
        = Some ErrMessageChannelFull
      /\ snd (SendMessage (fst (SendMessage peer_queue_full msgB UrgentMessage true))
                          msgB UrgentMessage true)
        = Some ErrMessageChannelFull).
Proof.
  cbv zeta. change 99999%N with (N.succ 99998).
  rewrite peer_after_receiving_eq by lia.
  vm_compute. repeat split.
Qed.

Lemma recordMessage_resets_at_capacity_witness :
  GoInt.in_int64 (bloomItemCount (peer_after_receiving 0))
  /\ hasMessage (recordMessage (peer_after_receiving 0) msgB) msgB = true.
Proof.
  assert (Hr : GoInt.in_int64 (bloomItemCount (peer_after_receiving 0))).
  { unfold GoInt.in_int64. simpl. lia. }
  split; [exact Hr|].
  exact (proj1 (proj2 (recordMessage_resets_at_capacity
                         (peer_after_receiving 0) msgB Hr))).
Defined.

(** C9 fails as stated in its last part.  [msgB] has been received from
    the neighbour, so the filter holds it; submitted without deduplication
    on a full queue it is turned away with [ErrMessageChannelFull], the
    filter not being consulted; resubmitted with deduplication, also once
    the queue has room again, it is rejected as a duplicate.  And a
    message turned away with [ErrMessageChannelFull] by a deduplicating
    call is rejected as a duplicate later when the neighbour has sent the
    same message in between. *)
Lemma SendMessage_rejection_counterexample :
  (let p := fst (handleMessage peer_queue_full msgB) in
   SendMessage p msgB UrgentMessage false = (p, Some ErrMessageChannelFull)
   /\ SendMessage p msgB UrgentMessage true = (p, Some ErrDuplicateMessage)
   /\ SendMessage (apply_op p OpTakeUrgent) msgB UrgentMessage true
      = (apply_op p OpTakeUrgent, Some ErrDuplicateMessage)
   /\ length (urgentMsgCh (apply_op p OpTakeUrgent)) = 1023%nat)
  /\ (let p := peer_queue_full in
      let q := apply_op (fst (handleMessage p msgB)) OpTakeUrgent in
      SendMessage p msgB UrgentMessage true = (p, Some ErrMessageChannelFull)
      /\ hasMessage p msgB = false
      /\ SendMessage q msgB UrgentMessage true
         = (q, Some ErrDuplicateMessage)).
Proof. cbv zeta. vm_compute. repeat split. Qed.

Lemma SendMessage_rejection_leaves_peer_witness :
  SendMessage peer_queue_full msgB UrgentMessage true
    = (peer_queue_full, Some ErrMessageChannelFull)
  /\ snd (SendMessage (set_queues peer_queue_full [] []) msgB
           NormalMessage true)
     <> Some ErrDuplicateMessage.
Proof.
  assert (E : SendMessage peer_queue_full msgB UrgentMessage true
              = (peer_queue_full, Some ErrMessageChannelFull))
    by reflexivity.
  split; [exact E|].
  exact (proj1 (proj2 (proj2 (proj2 (proj2 (proj2 (proj2
    (SendMessage_rejection_leaves_peer peer_queue_full peer_queue_full
       msgB UrgentMessage true ErrMessageChannelFull E)))))))
    eq_refl (or_introl eq_refl) [] [] NormalMessage true).
Defined.

Definition peer_sent_B : Peer Z :=
  fst (SendMessage emptyPeer msgB UrgentMessage true).

Definition ops_between : list PeerOp :=
  [OpSend msgC NormalMessage true; OpHandle msgA; OpTakeUrgent].

Lemma SendMessage_twice_without_reset_witness :
  SendMessage (apply_ops ops_between peer_sent_B) msgB NormalMessage true
  = (apply_ops ops_between peer_sent_B, Some ErrDuplicateMessage).
Proof.
  apply (SendMessage_twice_without_reset emptyPeer peer_sent_B msgB
           UrgentMessage NormalMessage ops_between).
  - reflexivity.
  - vm_compute. split; [discriminate | reflexivity].
  - reflexivity.
  - vm_compute. discriminate.
Defined.

(** ** Stream pool *)

Lemma length_remove_nth {A : Type} (l : list A) : forall i x,
  nth_error l i = Some x -> S (length (remove_nth i l)) = length l.
Proof.
  induction l as [|y l IH]; intros [|i] x Hx; simpl in *; try discriminate.
  - reflexivity.
  - f_equal. eapply IH. exact Hx.
Qed.

Ltac act_unfold :=
  unfold AddStream, getStream, getStream_wake;
  unfold CloseStream, newStream, streams_send;
  unfold bind, ret, get, put, emit.

Section PoolFacts.

Context {F : Type} `{BloomFilter F}.

(** Every live stream is idle in the channel or checked out, and the live
    count is within the cap. *)
Definition pool_inv (st : Peer F * list Stream) : Prop :=
  streamCount (fst st)
    = Z.of_nat (length (streams (fst st))) + Z.of_nat (length (snd st))
  /\ streamCount (fst st) <= maxStreamCount.

Lemma AddStream_at_cap (p : Peer F) s :
  maxStreamCount <= streamCount p ->
  AddStream s p = (AddReturned (Some ErrStreamCountExceed), p, []).
Proof.
  intros Hcap. act_unfold.
  destruct (Z.leb_spec maxStreamCount (streamCount p)); [reflexivity|lia].
Qed.

Lemma AddStream_below_cap (p : Peer F) s :
  Z.of_nat (length (streams p)) <= streamCount p < maxStreamCount ->
  AddStream s p
  = (AddReturned None, set_pool p (streams p ++ [s]) (streamCount p + 1),
     [EvSpawnReadLoop s]).
Proof.
  intros [Hidle Hcap]. act_unfold.
  destruct (Z.leb_spec maxStreamCount (streamCount p)); [lia|].
  destruct (Z.ltb_spec (Z.of_nat (length (streams p))) maxStreamCount); [|lia].
  simpl. rewrite wrap64_id; [reflexivity|].
  unfold GoInt.in_int64, maxStreamCount in *. lia.
Qed.

Lemma pool_step_inv (st : Peer F * list Stream) op :
  pool_inv st -> pool_inv (pool_step st op).
Proof.
  destruct st as [p held]. unfold pool_inv. simpl. intros [Hc Hcap].
  pose proof (eq_refl : maxStreamCount = 8) as Hmax.
  assert (Hrange : forall z, 0 <= z <= maxStreamCount -> GoInt.wrap64 z = z).
  { intros z Hz. apply wrap64_id. unfold GoInt.in_int64. lia. }
  destruct op as [s|host|host| |i|i].
  - (* AddStream *)
    destruct (Z.leb_spec maxStreamCount (streamCount p)) as [Hge|Hlt].
    + rewrite AddStream_at_cap by assumption. simpl. auto.
    + rewrite AddStream_below_cap by lia. simpl.
      rewrite length_app. simpl. lia.
  - (* getStream *)
    act_unfold. destruct (streams p) as [|s rest] eqn:Es; simpl.
    + destruct (Z.leb_spec maxStreamCount (streamCount p)); simpl.
      * rewrite Es. simpl. auto.
      * destruct host as [s|code]; simpl.
        -- rewrite Es. cbn [length] in Hc |- *. rewrite ?Nat2Z.inj_succ.
           rewrite Hrange by lia. lia.
        -- rewrite Es. simpl. auto.
    + cbn [length] in Hc |- *. rewrite ?Nat2Z.inj_succ in *. lia.
  - (* newStream on its own *)
    act_unfold.
    destruct (Z.leb_spec maxStreamCount (streamCount p)); simpl; [auto|].
    destruct host as [s|code]; simpl; [|auto].
    cbn [length]. rewrite ?Nat2Z.inj_succ. rewrite Hrange by lia. lia.
  - (* wake-up of a parked getStream *)
    act_unfold. destruct (streams p) as [|s rest] eqn:Es; simpl.
    + rewrite Es. simpl. auto.
    + cbn [length] in Hc |- *. rewrite ?Nat2Z.inj_succ in *. lia.
  - (* CloseStream *)
    destruct (nth_error held i) as [s|] eqn:Ei; simpl; [|auto].
    pose proof (length_remove_nth held i s Ei) as Hl.
    rewrite Hrange by lia. lia.
  - (* release *)
    destruct (nth_error held i) as [s|] eqn:Ei; simpl; [|auto].
    pose proof (length_remove_nth held i s Ei) as Hl.
    act_unfold.
    destruct (Z.ltb_spec (Z.of_nat (length (streams p))) maxStreamCount);
      simpl; [|auto].
    rewrite length_app. simpl. lia.
Qed.

Lemma pool_run_inv (ops : list PoolOp) : pool_inv (pool_run ops).
Proof.
  unfold pool_run.
  assert (Hgen : forall st, pool_inv st -> pool_inv (fold_left pool_step ops st)).
  { induction ops as [|op ops IH]; intros st Hst; [exact Hst|].
    simpl. apply IH. apply pool_step_inv. exact Hst. }
  apply Hgen. unfold pool_inv. simpl. unfold maxStreamCount. lia.
Qed.

Lemma add_streams_count (ss : list Stream) : forall (p : Peer F),
  streamCount p = Z.of_nat (length (streams p)) ->
  streamCount p <= maxStreamCount ->
  streamCount (add_streams ss p)
    = Z.min (streamCount p + Z.of_nat (length ss)) maxStreamCount
  /\ streams (add_streams ss p)
    = streams p ++ firstn (Z.to_nat (maxStreamCount - streamCount p)) ss.
Proof.
  induction ss as [|s ss IH]; intros p Hc Hcap.
  - simpl. rewrite firstn_nil, app_nil_r. split; [lia|reflexivity].
  - unfold add_streams. cbn [fold_left].
    match goal with
    | |- context [fold_left ?f ss ?q] => change (fold_left f ss q) with (add_streams ss q)
    end.
    destruct (Z.leb_spec maxStreamCount (streamCount p)) as [Hge|Hlt].
    + rewrite AddStream_at_cap by assumption.
      destruct (IH p Hc Hcap) as [IHc IHs]. rewrite IHc, IHs.
      replace (maxStreamCount - streamCount p) with 0 by lia.
      cbn [length]. split; [lia|reflexivity].
    + rewrite AddStream_below_cap by lia.
      destruct (IH (set_pool p (streams p ++ [s]) (streamCount p + 1)))
        as [IHc IHs].
      * simpl. rewrite length_app. simpl. lia.
      * simpl. lia.
      * rewrite IHc, IHs. simpl streamCount. simpl streams. cbn [length].
        split; [lia|].
        rewrite <- app_assoc. f_equal.
        replace (Z.to_nat (maxStreamCount - streamCount p))
          with (S (Z.to_nat (maxStreamCount - (streamCount p + 1)))) by lia.
        reflexivity.
Qed.

(** C5: whatever the goroutines do to the pool (streams added, acquired,
    retired, released), and so after every sequence of [AddStream] calls,
    the live stream count stays within [maxStreamCount] = 8; [n] calls in a
    row from the new peer register the first eight streams and no more; and
    an [AddStream] at the cap returns [ErrStreamCountExceed] and leaves the
    peer, its channel and its count as they were, starting no reader. *)
Theorem AddStream_respects_cap :
  forall (ops : list PoolOp) (ss : list Stream) (q : Peer F) (s : Stream),
    maxStreamCount = 8
    /\ streamCount (fst (pool_run ops)) <= maxStreamCount
    /\ streamCount (add_streams ss emptyPeer)
       = Z.min (Z.of_nat (length ss)) maxStreamCount
    /\ streams (add_streams ss emptyPeer) = firstn 8 ss
    /\ (maxStreamCount <= streamCount q ->
        AddStream s q = (AddReturned (Some ErrStreamCountExceed), q, []))
    /\ (maxStreamCount <= streamCount (add_streams ss emptyPeer) ->
        add_streams (ss ++ [s]) emptyPeer = add_streams ss emptyPeer).
Proof.
  intros ops ss q s.
  destruct (add_streams_count ss emptyPeer) as [Hc Hs];
    [reflexivity | unfold maxStreamCount; simpl; lia |].
  split; [reflexivity|]. split; [apply (pool_run_inv ops)|].
  split; [rewrite Hc; simpl; f_equal|]. split; [exact Hs|].
  split; [apply AddStream_at_cap|].
  intros Hcap. unfold add_streams. rewrite fold_left_app. cbn [fold_left].
  fold (add_streams ss emptyPeer). rewrite AddStream_at_cap by assumption.
  reflexivity.
Qed.

(** C6: [getStream] hands out the oldest idle stream when there is one;
    with none idle and the count below the cap it asks the host for a new
    stream and returns it, or the host's error; with none idle at the cap
    it makes no call to the host and parks on the channel until a stream is
    sent back, which it then returns.  The only errors it returns are the
    host's: reaching the cap is never reported to its caller. *)
Theorem getStream_never_reports_exhaustion :
  forall (p : Peer F) (host : Stream + nat),
    (forall s rest, streams p = s :: rest ->
       getStream host p = (GotStream s, set_pool p rest (streamCount p), []))
    /\ (forall s, streams p = [] -> streamCount p < maxStreamCount ->
          host = inl s ->
          getStream host p
          = (GotStream s,
             set_pool p [] (GoInt.wrap64 (streamCount p + 1)),
             [EvHostNewStream; EvSpawnReadLoop s]))
    /\ (forall code, streams p = [] -> streamCount p < maxStreamCount ->
          host = inr code ->
          getStream host p = (GetFailed (ErrTransport code), p, [EvHostNewStream]))
    /\ (streams p = [] -> maxStreamCount <= streamCount p ->
          getStream host p = (GetParked, p, [])
          /\ getStream_wake p = (None, p, [])
          /\ forall s p' ev,
               streams_send s p = (true, p', ev) ->
               getStream_wake p' = (Some s, p, []))
    /\ (forall e p' ev, getStream host p = (GetFailed e, p', ev) ->
          exists code, host = inr code /\ e = ErrTransport code
                       /\ streams p = [] /\ streamCount p < maxStreamCount)
    /\ (forall r p' ev, getStream host p = (r, p', ev) ->
          In EvHostNewStream ev ->
          streams p = [] /\ streamCount p < maxStreamCount).
Proof.
  intros p host. repeat apply conj.
  - intros s rest Es. act_unfold. rewrite Es. reflexivity.
  - intros s Es Hlt ->. act_unfold. rewrite Es. simpl.
    destruct (Z.leb_spec maxStreamCount (streamCount p)); [lia|]. simpl.
    rewrite Es. reflexivity.
  - intros code Es Hlt ->. act_unfold. rewrite Es. simpl.
    destruct (Z.leb_spec maxStreamCount (streamCount p)); [lia|]. reflexivity.
  - intros Es Hge. act_unfold. rewrite Es. simpl.
    destruct (Z.leb_spec maxStreamCount (streamCount p)); [|lia].
    repeat apply conj; try reflexivity.
    intros s p' ev. simpl.
    destruct p as [ss c f n u nq q]. simpl in *. subst ss. simpl.
    intros [= <- <-]. reflexivity.
  - intros e p' ev. act_unfold.
    destruct (streams p) as [|s rest] eqn:Es; simpl; [|discriminate].
    destruct (Z.leb_spec maxStreamCount (streamCount p)); simpl; [discriminate|].
    destruct host as [s|code]; simpl; [discriminate|].
    intros [= <- <- <-]. exists code. auto.
  - intros r p' ev. act_unfold.
    destruct (streams p) as [|s rest] eqn:Es; simpl.
    + destruct (Z.leb_spec maxStreamCount (streamCount p)); simpl.
      * intros [= <- <- <-] [].
      * auto.
    + intros [= <- <- <-] [].
Qed.

End PoolFacts.

(** ** Sending one message *)

(** The deadline as the specification words it, in nanoseconds:
    max(1 s, payloadBytes/5120 s). *)
Definition spec_deadline (payloadBytes : Z) : Z :=
  Z.max 1000000000 (payloadBytes * 1000000000 / 5120).

Lemma writeTimeout_eq (n : Z) :
  0 <= n < 47223664824320 ->
  writeTimeout n = (n / 5120 + 1) * 1000000000.
Proof.
  intros Hn. unfold writeTimeout.
  rewrite (Z.quot_div_nonneg n 1024) by lia.
  rewrite (Z.quot_div_nonneg (n / 1024) 5)
    by (try apply Z.div_pos; lia).
  rewrite Z.div_div by lia. change (1024 * 5) with 5120.
  assert (Hq : 0 <= n / 5120 < 9223372036).
  { split; [apply Z.div_pos; lia|].
    apply Z.div_lt_upper_bound; lia. }
  rewrite (wrap64_id (n / 5120 + 1)) by (unfold GoInt.in_int64; lia).
  apply wrap64_id. unfold GoInt.in_int64. lia.
Qed.

Section WriteFacts.

Context {F : Type} `{BloomFilter F}.

(** [write_on] case by case. *)
Lemma write_on_cases (env : Env) (m : p2pMessage) (s : Stream) (p : Peer F) :
  let timeout := writeTimeout (Z.of_nat (length (content m))) in
  let payload := content (setTime env m) in
  let retired := set_pool p (streams p) (GoInt.wrap64 (streamCount p - 1)) in
  match stream_SetWriteDeadline env s (time_Now env) timeout with
  | Some code =>
      write_on env m s p
      = (WriteReturned (Some (ErrTransport code)), retired,
         [EvSetWriteDeadline s (time_Now env) timeout; EvStreamClose s])
  | None =>
      match stream_Write env s payload with
      | Some code =>
          write_on env m s p
          = (WriteReturned (Some (ErrTransport code)), retired,
             [EvSetWriteDeadline s (time_Now env) timeout;
              EvStreamWrite s payload; EvStreamClose s])
      | None =>
          exists r p',
            write_on env m s p
            = (r, p', [EvSetWriteDeadline s (time_Now env) timeout;
                       EvStreamWrite s payload])
            /\ streamCount p' = streamCount p
      end
  end.
Proof.
  intros timeout payload retired. unfold write_on.
  fold timeout. fold payload.
  destruct (stream_SetWriteDeadline env s (time_Now env) timeout) as [code|].
  - reflexivity.
  - destruct (stream_Write env s payload) as [code|].
    + reflexivity.
    + act_unfold.
      destruct (Z.of_nat (length (streams p)) <? maxStreamCount);
        simpl; eexists; eexists; split; reflexivity.
Qed.

Lemma getStream_events (host : Stream + nat) (p p' : Peer F) r ev :
  getStream host p = (r, p', ev) -> ~ In EvRemoveNeighbor ev.
Proof.
  act_unfold. destruct (streams p) as [|s rest]; simpl.
  - destruct (maxStreamCount <=? streamCount p); simpl.
    + intros [= <- <- <-] [].
    + destruct host as [s|code]; simpl; intros [= <- <- <-] Hin;
        simpl in Hin; intuition discriminate.
  - intros [= <- <- <-] [].
Qed.

Lemma write_on_failure (env : Env) (m : p2pMessage) (s : Stream) (q : Peer F) code :
  let timeout := writeTimeout (Z.of_nat (length (content m))) in
  stream_SetWriteDeadline env s (time_Now env) timeout = Some code
  \/ (stream_SetWriteDeadline env s (time_Now env) timeout = None
      /\ stream_Write env s (content (setTime env m)) = Some code) ->
  exists ev2,
    write_on env m s q
    = (WriteReturned (Some (ErrTransport code)),
       set_pool q (streams q) (GoInt.wrap64 (streamCount q - 1)),
       ev2 ++ [EvStreamClose s])
    /\ ~ In EvRemoveNeighbor (ev2 ++ [EvStreamClose s]).
Proof.
  intros timeout Hfail.
  pose proof (write_on_cases env m s q) as Hcases. cbv zeta in Hcases.
  fold timeout in Hcases.
  destruct Hfail as [Hd|[Hd Hwr]]; rewrite Hd in Hcases.
  - exists [EvSetWriteDeadline s (time_Now env) timeout].
    split; [exact Hcases|]. simpl. intuition discriminate.
  - rewrite Hwr in Hcases.
    exists [EvSetWriteDeadline s (time_Now env) timeout;
            EvStreamWrite s (content (setTime env m))].
    split; [exact Hcases|]. simpl. intuition discriminate.
Qed.

Lemma write_on_events (env : Env) (m : p2pMessage) (s : Stream) (q q' : Peer F) r ev :
  write_on env m s q = (r, q', ev) -> ~ In EvRemoveNeighbor ev.
Proof.
  intros E. pose proof (write_on_cases env m s q) as Hcases. cbv zeta in Hcases.
  destruct (stream_SetWriteDeadline env s (time_Now env) _) as [code|].
  - rewrite Hcases in E. injection E as <- <- <-. simpl. intuition discriminate.
  - destruct (stream_Write env s _) as [code|].
    + rewrite Hcases in E. injection E as <- <- <-. simpl. intuition discriminate.
    + destruct Hcases as (r0 & p0 & E0 & _). rewrite E0 in E.
      injection E as <- <- <-. simpl. intuition discriminate.
Qed.

(** C1, as the code has it: when [write] holds a stream and setting the
    deadline or the stream write fails (a deadline that elapses, an I/O
    error), the stream is closed, the live count is decremented, the stream
    is not sent back to the pool and the error is returned; the peer
    manager is not told.  This holds as well for a send that was parked
    and resumed.  [RemoveNeighbor] is called when, and only when,
    [getStream] fails. *)
Theorem write_failure_retires_stream :
  forall (env : Env) (m : p2pMessage) (p p' : Peer F) r ev,
    write env m p = (r, p', ev) ->
    (In EvRemoveNeighbor ev <->
     exists e q evq, getStream (host_NewStream env) p = (GetFailed e, q, evq))
    /\ (forall s p1 ev1 code,
          getStream (host_NewStream env) p = (GotStream s, p1, ev1) ->
          let timeout := writeTimeout (Z.of_nat (length (content m))) in
          stream_SetWriteDeadline env s (time_Now env) timeout = Some code
          \/ (stream_SetWriteDeadline env s (time_Now env) timeout = None
              /\ stream_Write env s (content (setTime env m)) = Some code) ->
          r = WriteReturned (Some (ErrTransport code))
          /\ streams p' = streams p1
          /\ streamCount p' = GoInt.wrap64 (streamCount p1 - 1)
          /\ (0 < streamCount p1 <= maxStreamCount ->
              streamCount p' = streamCount p1 - 1)
          /\ (exists ev2, ev = ev1 ++ ev2 ++ [EvStreamClose s])
          /\ ~ In EvRemoveNeighbor ev)
    /\ (forall s (q : Peer F) code,
          let timeout := writeTimeout (Z.of_nat (length (content m))) in
          stream_SetWriteDeadline env s (time_Now env) timeout = Some code
          \/ (stream_SetWriteDeadline env s (time_Now env) timeout = None
              /\ stream_Write env s (content (setTime env m)) = Some code) ->
          exists ev2,
            write_on env m s q
            = (WriteReturned (Some (ErrTransport code)),
               set_pool q (streams q) (GoInt.wrap64 (streamCount q - 1)),
               ev2 ++ [EvStreamClose s])
            /\ ~ In EvRemoveNeighbor (ev2 ++ [EvStreamClose s]))
    /\ (forall (q q' : Peer F) r' ev',
          write_resume env m q = (r', q', ev') -> ~ In EvRemoveNeighbor ev').
Proof.
  intros env m p p' r ev Hw.
  assert (Hresume : forall (q q' : Peer F) r' ev',
             write_resume env m q = (r', q', ev') -> ~ In EvRemoveNeighbor ev').
  { intros q q' r' ev'. unfold write_resume, getStream_wake, bind, get, put, ret.
    destruct (streams q) as [|s rest]; simpl.
    - intros [= <- <- <-] [].
    - destruct (write_on env m s _) as [[r0 q0] ev0] eqn:E0.
      intros [= <- <- <-]. simpl. eapply write_on_events. exact E0. }
  unfold write, bind in Hw.
  destruct (getStream (host_NewStream env) p) as [[g p1] ev1] eqn:Eg.
  pose proof (getStream_events _ _ _ _ _ Eg) as Hno.
  assert (Hgen := fun s q code => write_on_failure env m s q code).
  destruct g as [s|e|].
  - (* a stream was handed out *)
    destruct (write_on env m s p1) as [[r0 q0] ev0] eqn:E0.
    injection Hw as <- <- <-.
    pose proof (write_on_events _ _ _ _ _ _ _ E0) as Hno0.
    split; [|split; [|split; [exact Hgen|exact Hresume]]].
    + split.
      * intros Hin. apply in_app_or in Hin as [Hin|Hin]; contradiction.
      * intros (e & q & evq & [=]).
    + intros s' p1' ev1' code [= <- <- <-] timeout Hfail.
      destruct (write_on_failure env m s p1 code Hfail) as (ev2 & Eon & _).
      rewrite Eon in E0. injection E0 as <- <- <-.
      split; [reflexivity|]. split; [reflexivity|]. split; [reflexivity|].
      split.
      { intros Hc. simpl. apply wrap64_id.
        unfold GoInt.in_int64, maxStreamCount in *. lia. }
      split; [exists ev2; reflexivity|].
      intros Hin. apply in_app_or in Hin as [Hin|Hin]; contradiction.
  - (* getStream failed *)
    injection Hw as <- <- <-.
    split; [|split; [|split; [exact Hgen|exact Hresume]]].
    + split.
      * intros _. exists e, p1, ev1. reflexivity.
      * intros _. apply in_or_app. right. simpl. auto.
    + intros s p1' ev1' code [=].
  - (* parked *)
    injection Hw as <- <- <-.
    split; [|split; [|split; [exact Hgen|exact Hresume]]].
    + split.
      * intros Hin. apply in_app_or in Hin as [Hin|[]]. contradiction.
      * intros (e & q & evq & [=]).
    + intros s p1' ev1' code [=].
Qed.

(** C2, as the code has it: the timeout handed to [SetWriteDeadline] is
    (payloadBytes / 5120, rounded down, plus 1) seconds past now, where
    payloadBytes is the length of the message's content: at least one
    second, always more than payloadBytes/5120 seconds, and the maximum of
    the two exactly for payloads under 5120 bytes.  Every send that
    obtains a stream sets it. *)
Theorem write_deadline_granted :
  forall (env : Env) (m : p2pMessage) (p p' : Peer F) r ev,
    let n := Z.of_nat (length (content m)) in
    n < 47223664824320 ->
    write env m p = (r, p', ev) ->
    (forall s p1 ev1,
       getStream (host_NewStream env) p = (GotStream s, p1, ev1) ->
       In (EvSetWriteDeadline s (time_Now env) ((n / 5120 + 1) * 1000000000)) ev)
    /\ (forall s now d,
          In (EvSetWriteDeadline s now d) ev ->
          now = time_Now env
          /\ d = (n / 5120 + 1) * 1000000000
          /\ 1000000000 <= d
          /\ n * 1000000000 < d * 5120
          /\ (n < 5120 -> d = spec_deadline n)
          /\ (5120 <= n -> spec_deadline n < d)).
Proof.
  intros env m p p' r ev n Hn Hw.
  assert (Ht : writeTimeout n = (n / 5120 + 1) * 1000000000).
  { apply writeTimeout_eq. unfold n. lia. }
  unfold write, bind in Hw.
  destruct (getStream (host_NewStream env) p) as [[g p1] ev1] eqn:Eg.
  assert (Hev1 : forall s now d, ~ In (EvSetWriteDeadline s now d) ev1).
  { revert Eg. clear. act_unfold. destruct (streams p) as [|s0 rest]; simpl.
    - destruct (maxStreamCount <=? streamCount p); simpl.
      + intros [= <- <- <-] s now d [].
      + destruct (host_NewStream env) as [s1|c1]; simpl;
          intros [= <- <- <-] s now d Hin;
          simpl in Hin; intuition discriminate.
    - intros [= <- <- <-] s now d []. }
  assert (Hon : forall s (q : Peer F) r0 q' ev0,
             write_on env m s q = (r0, q', ev0) ->
             In (EvSetWriteDeadline s (time_Now env) (writeTimeout n)) ev0
             /\ forall s' now d, In (EvSetWriteDeadline s' now d) ev0 ->
                  now = time_Now env /\ d = writeTimeout n).
  { intros s q r0 q' ev0 E0.
    pose proof (write_on_cases env m s q) as Hc. cbv zeta in Hc. fold n in Hc.
    destruct (stream_SetWriteDeadline env s (time_Now env) (writeTimeout n)).
    - rewrite Hc in E0. injection E0 as <- <- <-. split; [left; reflexivity|].
      intros s' now d [[= <- <- <-]|[[=]|[]]]. auto.
    - destruct (stream_Write env s (content (setTime env m))).
      + rewrite Hc in E0. injection E0 as <- <- <-. split; [left; reflexivity|].
        intros s' now d [[= <- <- <-]|[[=]|[[=]|[]]]]. auto.
      + destruct Hc as (r1 & q1 & E1 & _). rewrite E1 in E0.
        injection E0 as <- <- <-. split; [left; reflexivity|].
        intros s' now d [[= <- <- <-]|[[=]|[]]]. auto. }
  assert (Hdiv : 0 <= n / 5120) by (apply Z.div_pos; unfold n; lia).
  assert (Hmod : n = 5120 * (n / 5120) + n mod 5120) by (apply Z.div_mod; lia).
  pose proof (Z.mod_pos_bound n 5120 ltac:(lia)) as Hb.
  split.
  - intros s p0 ev0 [= -> <- <-].
    destruct (write_on env m s p1) as [[r0 q'] ev0] eqn:E0.
    injection Hw as <- <- <-. apply in_or_app. right.
    rewrite <- Ht. apply (Hon _ _ _ _ _ E0).
  - intros s now d Hin.
    assert (Hd : now = time_Now env /\ d = writeTimeout n).
    { destruct g as [s0|e|].
      - destruct (write_on env m s0 p1) as [[r0 q'] ev0] eqn:E0.
        injection Hw as <- <- <-.
        apply in_app_or in Hin as [Hin|Hin]; [exfalso; eapply Hev1; eauto|].
        eapply (Hon _ _ _ _ _ E0); eauto.
      - injection Hw as <- <- <-.
        apply in_app_or in Hin as [Hin|Hin]; [exfalso; eapply Hev1; eauto|].
        simpl in Hin. intuition discriminate.
      - injection Hw as <- <- <-.
        apply in_app_or in Hin as [Hin|[]]. exfalso; eapply Hev1; eauto. }
    destruct Hd as [-> ->]. rewrite Ht.
    split; [reflexivity|]. split; [reflexivity|]. split; [lia|]. split; [lia|].
    split.
    + intros Hsmall. unfold spec_deadline.
      rewrite (Z.div_small n 5120) by (unfold n in *; lia).
      assert (n * 1000000000 / 5120 < 1000000000).
      { apply Z.div_lt_upper_bound; lia. }
      lia.
    + intros Hbig. unfold spec_deadline.
      assert (n * 1000000000 / 5120 < (n / 5120 + 1) * 1000000000).
      { apply Z.div_lt_upper_bound; lia. }
      assert (1 <= n / 5120) by (apply Z.div_le_lower_bound; lia).
      lia.
Qed.

End WriteFacts.

(** *** Concrete sends *)

(** A transport on which every stream write fails (say, on a deadline that
    elapsed); the send time takes eight more bytes. *)
Definition env_write_fails : Env :=
  {| host_NewStream := inl 9%nat;
     stream_SetWriteDeadline := fun _ _ _ => None;
     stream_Write := fun _ _ => Some 1%nat;
     time_Now := 0;
     setTime := fun m => {| content := content m ++ repeat x00 8%nat;
                            needDedup := needDedup m |} |}.

(** A transport on which every call succeeds. *)
Definition env_ok : Env :=
  {| host_NewStream := inl 9%nat;
     stream_SetWriteDeadline := fun _ _ _ => None;
     stream_Write := fun _ _ => None;
     time_Now := 0;
     setTime := fun m => {| content := content m ++ repeat x00 8%nat;
                            needDedup := needDedup m |} |}.

(** The peer of [NewPeer]: one stream, idle. *)
Definition peer_one_idle : Peer Z := add_streams [7%nat] emptyPeer.

Definition msg5120 : p2pMessage :=
  {| content := repeat x00 (N.to_nat 5120); needDedup := false |}.

(** C1 fails as stated: a stream write that fails retires the stream, and
    the peer manager is not told to drop the peer. *)
Lemma write_failure_counterexample :
  write env_write_fails msgA peer_one_idle
  = (WriteReturned (Some (ErrTransport 1)),
     set_pool peer_one_idle [] 0,
     [EvSetWriteDeadline 7%nat 0 1000000000;
      EvStreamWrite 7%nat (content msgA ++ repeat x00 8%nat);
      EvStreamClose 7%nat])
  /\ ~ In EvRemoveNeighbor
        [EvSetWriteDeadline 7%nat 0 1000000000;
         EvStreamWrite 7%nat (content msgA ++ repeat x00 8%nat);
         EvStreamClose 7%nat].
Proof.
  split; [reflexivity|]. simpl. intuition discriminate.
Qed.

Lemma write_failure_retires_stream_witness :
  write env_write_fails msgA peer_one_idle
  = (WriteReturned (Some (ErrTransport 1)),
     set_pool peer_one_idle [] 0,
     [EvSetWriteDeadline 7%nat 0 1000000000;
      EvStreamWrite 7%nat (content msgA ++ repeat x00 8%nat);
      EvStreamClose 7%nat])
  /\ streamCount (set_pool peer_one_idle [] 0) = 1 - 1.
Proof.
  assert (E : write env_write_fails msgA peer_one_idle
              = (WriteReturned (Some (ErrTransport 1)),
                 set_pool peer_one_idle [] 0,
                 [EvSetWriteDeadline 7%nat 0 1000000000;
                  EvStreamWrite 7%nat (content msgA ++ repeat x00 8%nat);
                  EvStreamClose 7%nat])) by reflexivity.
  split; [exact E|].
  destruct (write_failure_retires_stream env_write_fails msgA peer_one_idle
              _ _ _ E) as (_ & Hret & _).
  destruct (Hret 7%nat (set_pool peer_one_idle [] 1) [] 1%nat eq_refl
              (or_intror (conj eq_refl eq_refl)))
    as (_ & _ & _ & Hcount & _).
  apply Hcount. unfold maxStreamCount. simpl. lia.
Defined.

(** C2 fails as stated: for a payload of 5120 bytes the deadline granted is
    two seconds, where max(1 s, 5120/5120 s) is one second. *)
Lemma write_deadline_counterexample :
  In (EvSetWriteDeadline 7%nat 0 2000000000)
     (snd (write env_ok msg5120 peer_one_idle))
  /\ writeTimeout (Z.of_nat (length (content msg5120))) = 2000000000
  /\ spec_deadline (Z.of_nat (length (content msg5120))) = 1000000000.
Proof.
  split; [left; reflexivity|]. split; reflexivity.
Qed.

Lemma write_deadline_granted_witness :
  Z.of_nat (length (content msg5120)) < 47223664824320
  /\ (forall s now d,
        In (EvSetWriteDeadline s now d) (snd (write env_ok msg5120 peer_one_idle)) ->
        d = (Z.of_nat (length (content msg5120)) / 5120 + 1) * 1000000000).
Proof.
  assert (Hn : Z.of_nat (length (content msg5120)) < 47223664824320)
    by (vm_compute; reflexivity).
  split; [exact Hn|].
  destruct (write env_ok msg5120 peer_one_idle) as [[r p'] ev] eqn:E.
  intros s now d Hin.
  apply (proj2 (write_deadline_granted env_ok msg5120 peer_one_idle p' r ev Hn E)
           s now d Hin).
Defined.

(** ** Frame reader *)
Section ReaderFacts.

Context {F : Type} `{BloomFilter F}.

Lemma ReadFull_Some (input : bytes) n got rest :
  ReadFull input n = Some (got, rest) ->
  input = got ++ rest /\ length got = n /\ rest = skipn n input.
Proof.
  unfold ReadFull. destruct (Nat.leb_spec n (length input)); [|discriminate].
  intros [= <- <-]. rewrite firstn_skipn, length_firstn. repeat split. lia.
Qed.

Lemma read_u32_Some (l : bytes) a b v :
  read_u32 l a b = Some v -> (4 <= length l)%nat.
Proof.
  unfold read_u32, go_slice, GoInt.be_uint32.
  destruct (Nat.leb_spec a b); simpl; [|discriminate].
  destruct (Nat.leb_spec b (length l)); simpl; [|discriminate].
  destruct (Nat.ltb_spec (length (firstn (b - a) (skipn a l))) 4); [discriminate|].
  intros _. rewrite length_firstn, length_skipn in *. lia.
Qed.

(** What a delivered frame went through. *)
Lemma readFrame_delivered (cfg : ReaderConfig) (input : bytes) msg rest :
  readFrame cfg input = FrameDelivered msg rest ->
  exists header body,
    input = header ++ body ++ rest
    /\ length header = dataBegin cfg
    /\ (4 <= length header)%nat
    /\ read_u32 header (chainIDBegin cfg) (chainIDEnd cfg) = Some (ChainID cfg)
    /\ parseP2PMessage cfg (header ++ body) = inl msg.
Proof.
  unfold readFrame.
  destruct (ReadFull input (dataBegin cfg)) as [[header rest0]|] eqn:Eh;
    [|discriminate].
  destruct (read_u32 header (chainIDBegin cfg) (chainIDEnd cfg)) as [chainID|] eqn:Ec;
    [|discriminate].
  destruct (Z.eqb_spec chainID (ChainID cfg)) as [->|]; simpl; [|discriminate].
  destruct (read_u32 header (dataLengthBegin cfg) (dataLengthEnd cfg)) as [len|];
    [|discriminate].
  destruct (_ <? _); [discriminate|].
  destruct (ReadFull rest0 _) as [[body rest']|] eqn:Eb; [|discriminate].
  destruct (parseP2PMessage cfg (header ++ body)) as [m|e] eqn:Ep; [|discriminate].
  destruct (go_slice_from _ _) as [tail|]; [|discriminate].
  destruct (GoInt.be_uint64 tail); [|discriminate].
  intros [= <- <-]. exists header, body.
  apply ReadFull_Some in Eh as (-> & Hl & _).
  apply ReadFull_Some in Eb as (-> & _ & _).
  pose proof (read_u32_Some _ _ _ _ Ec). auto.
Qed.

Lemma readFrame_mismatch (cfg : ReaderConfig) (input header rest : bytes) chainID :
  ReadFull input (dataBegin cfg) = Some (header, rest) ->
  read_u32 header (chainIDBegin cfg) (chainIDEnd cfg) = Some chainID ->
  chainID <> ChainID cfg ->
  readFrame cfg input = FrameExit (MismatchedChainID chainID) rest.
Proof.
  intros Eh Ec Hne. unfold readFrame. rewrite Eh, Ec.
  destruct (Z.eqb_spec chainID (ChainID cfg)); [contradiction|reflexivity].
Qed.

Lemma readFrame_parse_failed (cfg : ReaderConfig)
    (input header rest body rest' : bytes) len e :
  ReadFull input (dataBegin cfg) = Some (header, rest) ->
  read_u32 header (chainIDBegin cfg) (chainIDEnd cfg) = Some (ChainID cfg) ->
  read_u32 header (dataLengthBegin cfg) (dataLengthEnd cfg) = Some len ->
  ReadFull rest
    (Z.to_nat (GoInt.wrap_u32 (Z.of_nat (dataBegin cfg) + len + 8)) - dataBegin cfg)
    = Some (body, rest') ->
  Z.of_nat (dataBegin cfg) <= GoInt.wrap_u32 (Z.of_nat (dataBegin cfg) + len + 8) ->
  parseP2PMessage cfg (header ++ body) = inr e ->
  readFrame cfg input = FrameExit (ParseFailed e) rest'.
Proof.
  intros Eh Ec El Eb Htot Ep. unfold readFrame. rewrite Eh, Ec, Z.eqb_refl, El.
  simpl. destruct (Z.ltb_spec (GoInt.wrap_u32 (Z.of_nat (dataBegin cfg) + len + 8))
                              (Z.of_nat (dataBegin cfg))); [lia|].
  rewrite Eb, Ep. reflexivity.
Qed.

Lemma readLoop_exit (fuel : nat) (cfg : ReaderConfig) (input : bytes)
    (p : Peer F) why rest :
  readFrame cfg input = FrameExit why rest ->
  readLoop (S fuel) cfg input p = (Exited why rest, p, []).
Proof. intros E. simpl. rewrite E. reflexivity. Qed.

Lemma readLoop_step (fuel : nat) (cfg : ReaderConfig) (input : bytes)
    (p : Peer F) msg rest :
  readFrame cfg input = FrameDelivered msg rest ->
  readLoop (S fuel) cfg input p
  = (let '(r, p', ev) := readLoop fuel cfg rest (fst (handleMessage p msg)) in
     (r, p', EvHandleMessage msg :: ev)).
Proof.
  intros E. simpl. rewrite E. unfold bind. simpl.
  destruct (readLoop fuel cfg rest _) as [[r p'] ev]. reflexivity.
Qed.

Lemma readLoop_delivered (cfg : ReaderConfig) (fuel : nat) :
  forall (input : bytes) (p p' : Peer F) r ev m,
    readLoop fuel cfg input p = (r, p', ev) ->
    In (EvHandleMessage m) ev ->
    exists before header body after,
      input = before ++ header ++ body ++ after
      /\ length header = dataBegin cfg
      /\ read_u32 header (chainIDBegin cfg) (chainIDEnd cfg) = Some (ChainID cfg)
      /\ parseP2PMessage cfg (header ++ body) = inl m.
Proof.
  induction fuel as [|fuel IH]; intros input p p' r ev m E Hin.
  - simpl in E. injection E as <- <- <-. destruct Hin.
  - destruct (readFrame cfg input) as [msg rest|why rest] eqn:Ef.
    + rewrite (readLoop_step _ _ _ _ _ _ Ef) in E.
      destruct (readLoop fuel cfg rest _) as [[r0 p0] ev0] eqn:E0.
      injection E as <- <- <-.
      apply readFrame_delivered in Ef
        as (header & body & -> & Hl & _ & Hc & Hp).
      destruct Hin as [[= <-]|Hin].
      * exists [], header, body, rest. auto.
      * destruct (IH _ _ _ _ _ _ E0 Hin)
          as (pre & h2 & b2 & post & -> & Hl2 & Hc2 & Hp2).
        exists (header ++ body ++ pre), h2, b2, post.
        rewrite <- !app_assoc. auto.
    + rewrite (readLoop_exit _ _ _ _ _ _ Ef) in E.
      injection E as <- <- <-. destruct Hin.
Qed.

Lemma readLoop_terminates (cfg : ReaderConfig) (fuel : nat) :
  forall (input : bytes) (p : Peer F),
    (length input < fuel)%nat ->
    fst (fst (readLoop fuel cfg input p)) <> OutOfFuel.
Proof.
  induction fuel as [|fuel IH]; intros input p Hlt; [lia|].
  destruct (readFrame cfg input) as [msg rest|why rest] eqn:Ef.
  - rewrite (readLoop_step _ _ _ _ _ _ Ef).
    specialize (IH rest (fst (handleMessage p msg))).
    destruct (readLoop fuel cfg rest _) as [[r0 p0] ev0]. simpl in *.
    apply IH.
    apply readFrame_delivered in Ef as (header & body & -> & _ & H4 & _).
    rewrite !length_app in Hlt. lia.
  - rewrite (readLoop_exit _ _ _ _ _ _ Ef). simpl. discriminate.
Qed.

(** C8: the reader hands a message to the peer manager only for a frame
    whose chain identifier equals the configured one and which the codec
    parsed into that message.  On a frame with another chain identifier it
    returns with only the header consumed and no call of the handler; when
    the codec refuses a frame it returns without delivering.  After a
    delivered frame the loop goes on with the rest of the input in the same
    way, and with fuel beyond the length of the input it always reaches its
    exit. *)
Theorem readLoop_delivers_only_valid_frames :
  forall (cfg : ReaderConfig) (fuel : nat) (input : bytes) (p : Peer F),
    (forall m,
       In (EvHandleMessage m) (snd (readLoop fuel cfg input p)) ->
       exists before header body after,
         input = before ++ header ++ body ++ after
         /\ length header = dataBegin cfg
         /\ read_u32 header (chainIDBegin cfg) (chainIDEnd cfg) = Some (ChainID cfg)
         /\ parseP2PMessage cfg (header ++ body) = inl m)
    /\ (forall header rest chainID,
          ReadFull input (dataBegin cfg) = Some (header, rest) ->
          read_u32 header (chainIDBegin cfg) (chainIDEnd cfg) = Some chainID ->
          chainID <> ChainID cfg ->
          readLoop (S fuel) cfg input p
          = (Exited (MismatchedChainID chainID) (skipn (dataBegin cfg) input), p, []))
    /\ (forall header rest body rest' len e,
          ReadFull input (dataBegin cfg) = Some (header, rest) ->
          read_u32 header (chainIDBegin cfg) (chainIDEnd cfg) = Some (ChainID cfg) ->
          read_u32 header (dataLengthBegin cfg) (dataLengthEnd cfg) = Some len ->
          Z.of_nat (dataBegin cfg)
            <= GoInt.wrap_u32 (Z.of_nat (dataBegin cfg) + len + 8) ->
          ReadFull rest
            (Z.to_nat (GoInt.wrap_u32 (Z.of_nat (dataBegin cfg) + len + 8))
             - dataBegin cfg) = Some (body, rest') ->
          parseP2PMessage cfg (header ++ body) = inr e ->
          readLoop (S fuel) cfg input p = (Exited (ParseFailed e) rest', p, []))
    /\ (forall msg rest,
          readFrame cfg input = FrameDelivered msg rest ->
          readLoop (S fuel) cfg input p
          = (let '(r, p', ev) :=
               readLoop fuel cfg rest (fst (handleMessage p msg)) in
             (r, p', EvHandleMessage msg :: ev)))
    /\ ((length input < fuel)%nat ->
        fst (fst (readLoop fuel cfg input p)) <> OutOfFuel).
Proof.
  intros cfg fuel input p. repeat apply conj.
  - intros m Hin.
    destruct (readLoop fuel cfg input p) as [[r p'] ev] eqn:E.
    eapply readLoop_delivered; eauto.
  - intros header rest chainID Eh Ec Hne.
    pose proof (ReadFull_Some _ _ _ _ Eh) as (_ & _ & <-).
    apply readLoop_exit. eapply readFrame_mismatch; eauto.
  - intros header rest body rest' len e Eh Ec El Htot Eb Ep.
    apply readLoop_exit. eapply readFrame_parse_failed; eauto.
  - intros msg rest. apply readLoop_step.
  - apply readLoop_terminates.
Qed.

End ReaderFacts.

(** *** A concrete frame

    The layout [4B chainID][4B length][payload][8B send time], a codec that
    accepts every frame, and the frame carrying "hello-world!". *)
Definition layout8 (chain : Z) : ReaderConfig :=
  {| chainIDBegin := 0; chainIDEnd := 4;
     dataLengthBegin := 4; dataLengthEnd := 8;
     dataBegin := 8;
     ChainID := chain;
     parseP2PMessage := fun data => inl {| content := data; needDedup := true |} |}.

Definition hello : bytes :=
  [x68; x65; x6c; x6c; x6f; x2d; x77; x6f; x72; x6c; x64; x21].

Definition frame_of (chain : Z) (payload : bytes) : bytes :=
  GoInt.be_put32 chain ++ GoInt.be_put32 (Z.of_nat (length payload))
    ++ payload ++ repeat x00 8%nat.

Example readLoop_same_chain :
  readLoop 5 (layout8 7) (frame_of 7 hello) (emptyPeer : Peer Z)
  = (Exited HeaderReadFailed [],
     recordMessage emptyPeer {| content := frame_of 7 hello; needDedup := true |},
     [EvHandleMessage {| content := frame_of 7 hello; needDedup := true |}]).
Proof. reflexivity. Qed.

Example readLoop_other_chain :
  readLoop 5 (layout8 7) (frame_of 8 hello) (emptyPeer : Peer Z)
  = (Exited (MismatchedChainID 8) (skipn 8 (frame_of 8 hello)), emptyPeer, []).
Proof. reflexivity. Qed.

(** A length field of 2^32 - 16 wraps the buffer size to zero and the
    slice [data[dataBegin:]] panics. *)
Example readLoop_length_wraps :
  readLoop 5 (layout8 7)
    (GoInt.be_put32 7 ++ [xff; xff; xff; xf0] ++ hello) (emptyPeer : Peer Z)
  = (Exited Panicked hello, emptyPeer, []).
Proof. reflexivity. Qed.

(** ** Naive network framing *)

(** With a four-byte big-endian head in front of the body, the handler of
    [Listen] decodes the body length and reads the body: the framing the
    two functions are written for. *)
Lemma Listen_reads_framed_body (body : bytes) (limit1 limit2 : nat) :
  Z.of_nat (length body) < 2 ^ 32 ->
  (4 <= limit1)%nat -> (length body <= limit2)%nat ->
  NaiveNetwork.Listen_handler
    (GoInt.be_put32 (Z.of_nat (length body)) ++ body) limit1 limit2
  = Some (Z.of_nat (length body), length body, body).
Proof.
  intros Hlen H1 H2.
  pose proof (be_put32_uint32 (Z.of_nat (length body)) ltac:(lia)) as Hrt.
  unfold NaiveNetwork.Listen_handler, NaiveNetwork.conn_Read,
    NaiveNetwork.HEADLENGTH.
  rewrite length_app.
  change (length (GoInt.be_put32 (Z.of_nat (length body)))) with 4%nat.
  replace (Nat.min (Nat.min 4 limit1) (4 + length body)) with 4%nat by lia.
  change (firstn 4 (GoInt.be_put32 (Z.of_nat (length body)) ++ body))
    with (GoInt.be_put32 (Z.of_nat (length body))).
  change (skipn 4 (GoInt.be_put32 (Z.of_nat (length body)) ++ body)) with body.
  cbn [Nat.sub repeat]. rewrite app_nil_r, Hrt, Nat2Z.id.
  replace (Nat.min (Nat.min (length body) limit2) (length body))
    with (length body) by lia.
  rewrite firstn_all, Nat.sub_diag. cbn [repeat]. rewrite app_nil_r.
  reflexivity.
Qed.

Lemma Listen_unframed_short (body : bytes) (limit1 limit2 : nat) len n buf :
  body <> [] -> (0 < limit1)%nat ->
  NaiveNetwork.Listen_handler body limit1 limit2 = Some (len, n, buf) ->
  (n < length body)%nat.
Proof.
  intros Hne H1. unfold NaiveNetwork.Listen_handler, NaiveNetwork.conn_Read,
    NaiveNetwork.HEADLENGTH.
  set (k := Nat.min (Nat.min 4 limit1) (length body)).
  assert (Hk : (1 <= k <= length body)%nat).
  { subst k. destruct body; [contradiction|]. cbn [length]. lia. }
  clearbody k.
  destruct (GoInt.be_uint32 _) as [l|]; [|discriminate].
  intros [= _ <- _]. rewrite length_skipn. lia.
Qed.

(** C10 does not hold on the code: [Send] passes [len(buf)], an [int], to
    [binary.Write], which encodes fixed-size values only, refuses it and
    writes nothing; the error is dropped, so the head is empty and the body
    goes out unframed.  [Listen] then takes the first bytes of the body
    for the head, and its second read never returns the whole body.  For
    the body 00 00 00 09 01 it decodes 9 where the body has 5 bytes, and
    reads the single byte left.  The peer key two lines below is written
    as [int32(i)] and does come out as four big-endian bytes. *)
Theorem Send_length_header_missing :
  (forall body : bytes,
     NaiveNetwork.Send_head body = []
     /\ map snd (NaiveNetwork.Send body) = [body; body])
  /\ NaiveNetwork.Send_key 1 = [x00; x00; x00; x01]
  /\ (forall (body : bytes) (limit1 limit2 : nat) len n buf,
        body <> [] -> (0 < limit1)%nat ->
        NaiveNetwork.Listen_handler (NaiveNetwork.Send_head body ++ body)
          limit1 limit2 = Some (len, n, buf) ->
        (n < length body)%nat)
  /\ (let body := [x00; x00; x00; x09; x01] in
      NaiveNetwork.Send_head body <> GoInt.be_put32 (Z.of_nat (length body))
      /\ GoInt.be_put32 (Z.of_nat (length body)) = [x00; x00; x00; x05]
      /\ NaiveNetwork.Listen_handler (NaiveNetwork.Send_head body ++ body) 4 16
         = Some (9, 1%nat, [x01; x00; x00; x00; x00; x00; x00; x00; x00])).
Proof.
  split; [|split; [|split]].
  - intros body. split; reflexivity.
  - reflexivity.
  - intros body limit1 limit2 len n buf. apply Listen_unframed_short.
  - cbv zeta. split; [discriminate|]. split; reflexivity.
Qed.

(** ** Write scheduler *)

Import Scheduler.

Section SchedulerFacts.

Variable M : Type.

Implicit Types (s : State M) (t : list (Ev M)) (e : Ev M) (u n m : M).

(** *** Traces *)

Lemma pick_snoc {A : Type} (f : Ev M -> option A) t e :
  pick f (t ++ [e])
  = pick f t ++ match f e with Some a => [a] | None => [] end.
Proof.
  induction t as [|x t IH]; simpl.
  - destruct (f e); reflexivity.
  - rewrite IH. destruct (f x); reflexivity.
Qed.

Lemma In_pick {A : Type} (f : Ev M -> option A) t (a : A) :
  In a (pick f t) <-> exists e, In e t /\ f e = Some a.
Proof.
  induction t as [|x t IH]; simpl.
  - split; [intros []|intros (e & [] & _)].
  - destruct (f x) as [b|] eqn:Ex; simpl; rewrite ?IH; split.
    + intros [<-|(e & He & Hf)]; [exists x; auto|exists e; auto].
    + intros (e & [<-|He] & Hf); [left; congruence|right; exists e; auto].
    + intros (e & He & Hf). exists e; auto.
    + intros (e & [<-|He] & Hf); [congruence|exists e; auto].
Qed.

Lemma before_In (a b : Ev M) t : before a b t -> In a t /\ In b t.
Proof.
  intros (t1 & t2 & t3 & ->). split.
  - apply in_or_app. right. left. reflexivity.
  - apply in_or_app. right. right. apply in_or_app. right. left. reflexivity.
Qed.

Lemma before_snoc (a b : Ev M) t e :
  before a b (t ++ [e]) -> before a b t \/ (e = b /\ In a t).
Proof.
  intros (t1 & t2 & t3 & E).
  destruct t3 as [|x t3 _] using rev_ind.
  - right.
    replace (t1 ++ a :: t2 ++ [b]) with ((t1 ++ a :: t2) ++ [b]) in E
      by (rewrite <- app_assoc; reflexivity).
    apply app_inj_tail in E as [-> ->].
    split; [reflexivity|]. apply in_or_app. right. left. reflexivity.
  - left.
    replace (t1 ++ a :: t2 ++ b :: t3 ++ [x])
      with ((t1 ++ a :: t2 ++ b :: t3) ++ [x]) in E
      by (rewrite <- app_assoc; simpl; rewrite <- app_assoc; reflexivity).
    apply app_inj_tail in E as [-> _].
    exists t1, t2, t3. reflexivity.
Qed.

Lemma before_snoc_l (a b : Ev M) t e : before a b t -> before a b (t ++ [e]).
Proof.
  intros (t1 & t2 & t3 & ->). exists t1, t2, (t3 ++ [e]).
  rewrite <- app_assoc. simpl. rewrite <- app_assoc. reflexivity.
Qed.

Lemma before_snoc_r (a b : Ev M) t : In a t -> before a b (t ++ [b]).
Proof.
  intros Hin. apply in_split in Hin as (t1 & t2 & ->).
  exists t1, t2, []. rewrite <- app_assoc. reflexivity.
Qed.

(** *** The steps, one constructor per kind *)

Inductive Step : State M -> Ev M -> State M -> Prop :=
| StepSubmitUrgent s m :
    (length (urgentCh s) < msgChanSize)%nat ->
    Step s (Submitted UrgentMessage m)
         (with_chans s (urgentCh s ++ [m]) (normalCh s) (loc s))
| StepSubmitNormal s m :
    (length (normalCh s) < msgChanSize)%nat ->
    Step s (Submitted NormalMessage m)
         (with_chans s (urgentCh s) (normalCh s ++ [m]) (loc s))
| StepStop s s' :
    urgentCh s' = urgentCh s -> normalCh s' = normalCh s ->
    loc s' = loc s -> spawned s' = spawned s ->
    Step s Stopped s'
| StepReturn s :
    loc s = AtSelect \/ (exists nm, loc s = Draining nm) ->
    quitCh s = true ->
    Step s LoopReturned (with_loc s Returned)
| StepTakeUrgent s um rest :
    loc s = AtSelect -> urgentCh s = um :: rest ->
    Step s (TookUrgent um) (with_chans s rest (normalCh s) (GotUrgent um))
| StepTakeNormal s nm rest :
    loc s = AtSelect -> normalCh s = nm :: rest ->
    Step s (TookNormal nm) (with_chans s (urgentCh s) rest (Draining nm))
| StepBegin s um :
    loc s = GotUrgent um ->
    Step s (WriteBegin UrgentMessage um) (with_loc s (WritingUrgent um))
| StepEnd s um :
    loc s = WritingUrgent um ->
    Step s (WriteEnd UrgentMessage um) (with_loc s AtSelect)
| StepDrainTake s nm um rest :
    loc s = Draining nm -> urgentCh s = um :: rest ->
    Step s (TookUrgent um) (with_chans s rest (normalCh s) (DrainGot nm um))
| StepDrained s nm :
    loc s = Draining nm -> urgentCh s = [] -> quitCh s = false ->
    Step s (Drained nm) (with_loc s (Dispatching nm))
| StepDrainBegin s nm um :
    loc s = DrainGot nm um ->
    Step s (WriteBegin UrgentMessage um) (with_loc s (DrainWriting nm um))
| StepDrainEnd s nm um :
    loc s = DrainWriting nm um ->
    Step s (WriteEnd UrgentMessage um) (with_loc s (Draining nm))
| StepDispatch s s' nm :
    loc s = Dispatching nm ->
    urgentCh s' = urgentCh s -> normalCh s' = normalCh s ->
    loc s' = AtSelect -> spawned s' = spawned s ++ [nm] ->
    Step s (Dispatched nm) s'
| StepGoBegin s s' i nm :
    nth_error (spawned s) i = Some nm ->
    urgentCh s' = urgentCh s -> normalCh s' = normalCh s ->
    loc s' = loc s -> spawned s' = remove_nth i (spawned s) ->
    Step s (WriteBegin NormalMessage nm) s'
| StepGoEnd s s' nm :
    urgentCh s' = urgentCh s -> normalCh s' = normalCh s ->
    loc s' = loc s -> spawned s' = spawned s ->
    Step s (WriteEnd NormalMessage nm) s'.

Lemma step_sound s (a : Action M) s' e :
  step s a = Some (s', e) -> Step s e s'.
Proof.
  destruct a as [mp m| |c|i|i]; simpl.
  - unfold submit. destruct mp.
    + destruct (Nat.ltb_spec (length (urgentCh s)) msgChanSize);
        intros [= <- <-]. constructor. assumption.
    + destruct (Nat.ltb_spec (length (normalCh s)) msgChanSize);
        intros [= <- <-]. constructor. assumption.
  - intros [= <- <-]. constructor; reflexivity.
  - unfold loop_step. destruct (loc s) as [|um|um|nm|nm um|nm um|nm|] eqn:El.
    + destruct c.
      * destruct (quitCh s) eqn:Eq; intros [= <- <-]. constructor; auto.
      * destruct (urgentCh s) as [|um rest] eqn:Eu; intros [= <- <-].
        constructor; auto.
      * destruct (normalCh s) as [|nm rest] eqn:En; intros [= <- <-].
        constructor; auto.
      * discriminate.
    + intros [= <- <-]. constructor; auto.
    + intros [= <- <-]. constructor; auto.
    + destruct c.
      * destruct (quitCh s) eqn:Eq; intros [= <- <-]. constructor; eauto.
      * destruct (urgentCh s) as [|um rest] eqn:Eu; intros [= <- <-].
        apply StepDrainTake; auto.
      * discriminate.
      * destruct (urgentCh s) as [|um rest] eqn:Eu; [|discriminate].
        destruct (quitCh s) eqn:Eq; intros [= <- <-].
        apply StepDrained; auto.
    + intros [= <- <-]. apply StepDrainBegin; auto.
    + intros [= <- <-]. apply StepDrainEnd; auto.
    + intros [= <- <-]. apply StepDispatch; auto.
    + discriminate.
  - destruct (nth_error (spawned s) i) as [nm|] eqn:Ei; intros [= <- <-].
    eapply StepGoBegin; eauto.
  - destruct (nth_error (sending s) i) as [nm|] eqn:Ei; intros [= <- <-].
    apply StepGoEnd; auto.
Qed.

(** *** What the loop holds *)

(** The urgent message taken from the channel whose write has not
    returned, and the one whose write has not been entered. *)
Definition holds_urgent (l : Loc M) : list M :=
  match l with
  | GotUrgent um | WritingUrgent um | DrainGot _ um | DrainWriting _ um => [um]
  | _ => []
  end.

Definition holds_unbegun (l : Loc M) : list M :=
  match l with
  | GotUrgent um | DrainGot _ um => [um]
  | _ => []
  end.

Definition holds_normal (l : Loc M) (n : M) : Prop :=
  match l with
  | Draining nm | DrainGot nm _ | DrainWriting nm _ | Dispatching nm => nm = n
  | _ => False
  end.

(** [n] was taken from the normal channel and its write is not entered. *)
Definition past_take s n : Prop := holds_normal (loc s) n \/ In n (spawned s).

(** [n] is about to be dispatched, or dispatched and not yet writing. *)
Definition ready s n : Prop := loc s = Dispatching n \/ In n (spawned s).

Lemma In_remove_nth {A : Type} (l : list A) : forall i x,
  In x (remove_nth i l) -> In x l.
Proof.
  induction l as [|y l IH]; intros [|i] x; simpl; auto.
  intros [->|Hin]; eauto.
Qed.

Lemma ready_past_take s n : ready s n -> past_take s n.
Proof.
  intros [Hl|Hs]; [left; rewrite Hl; reflexivity|right; exact Hs].
Qed.

Lemma step_past_take s e s' n :
  Step s e s' -> past_take s' n -> past_take s n \/ e = TookNormal n.
Proof.
  unfold past_take.
  intros HS; destruct HS; simpl;
    repeat match goal with
           | E : loc _ = _ |- _ => rewrite E in *
           | E : spawned _ = _ |- _ => rewrite E in *
           end; simpl; try tauto.
  - intros [->|?]; auto.
  - intros [[]|Hin]. apply in_app_or in Hin as [?|[->|[]]]; auto.
  - intros [?|Hin]; auto. left. right. eapply In_remove_nth. exact Hin.
Qed.

Lemma step_ready s e s' n :
  Step s e s' -> ready s' n ->
  ready s n \/ (e = Drained n /\ loc s = Draining n /\ urgentCh s = []).
Proof.
  unfold ready.
  intros HS; destruct HS; simpl;
    repeat match goal with
           | E : loc _ = _ |- _ => rewrite E in *
           | E : spawned _ = _ |- _ => rewrite E in *
           end; simpl; try tauto;
    try (intros [[=]|?]; tauto).
  - intros [[= ->]|?]; auto.
  - intros [[=]|Hin]. apply in_app_or in Hin as [?|[->|[]]]; auto.
  - intros [?|Hin]; auto. left. right. eapply In_remove_nth. exact Hin.
Qed.

(** *** Channels are FIFO: what the trace and the state agree on *)

Record Inv s t : Prop := {
  inv_urgent_ch :
    pick is_urgent_submitted t = pick is_urgent_taken t ++ urgentCh s;
  inv_urgent_held :
    pick is_urgent_taken t = pick is_urgent_written t ++ holds_urgent (loc s);
  inv_urgent_begun :
    pick is_urgent_taken t = pick is_urgent_begun t ++ holds_unbegun (loc s);
  inv_normal_ch :
    pick is_normal_submitted t = pick is_normal_taken t ++ normalCh s;
  inv_past_take :
    forall n, past_take s n -> In n (pick is_normal_taken t);
  inv_dispatched :
    forall n, In (Dispatched n) t -> In n (pick is_normal_taken t);
  inv_normal_begun :
    forall n, In (WriteBegin NormalMessage n) t -> In n (pick is_normal_taken t)
}.

Lemma Inv_init : Inv init [].
Proof.
  split; try reflexivity; simpl; try tauto.
  unfold past_take. simpl. tauto.
Qed.

Ltac use_state_eqs :=
  repeat match goal with
         | E : urgentCh _ = _ |- _ => rewrite E in *; clear E
         | E : normalCh _ = _ |- _ => rewrite E in *; clear E
         | E : loc _ = _ |- _ => rewrite E in *; clear E
         end.

Ltac solve_fifo J :=
  try match goal with
      | D : loc _ = _ \/ _ |- _ => destruct D as [D|[? D]]
      end;
  simpl in *; use_state_eqs; simpl in *; rewrite ?app_nil_r in *;
  rewrite ?J; rewrite <- ?app_assoc; simpl;
  solve [reflexivity | congruence].

Lemma Inv_step s t e s' : Inv s t -> Step s e s' -> Inv s' (t ++ [e]).
Proof.
  intros [J1 J2 J2b J3 J5 J6 J7] HS. split.
  - rewrite !pick_snoc. destruct HS; solve_fifo J1.
  - rewrite !pick_snoc. destruct HS; solve_fifo J2.
  - rewrite !pick_snoc. destruct HS; solve_fifo J2b.
  - rewrite !pick_snoc. destruct HS; solve_fifo J3.
  - intros n Hn. rewrite pick_snoc. apply in_or_app.
    destruct (step_past_take _ _ _ n HS Hn) as [Hp| ->]; [left; auto|].
    right. left. reflexivity.
  - intros n Hn. rewrite pick_snoc. apply in_or_app. left.
    apply in_app_or in Hn as [Hn|[->|[]]]; [auto|].
    apply J5. inversion HS; subst. left.
    match goal with E : loc s = _ |- _ => rewrite E end. reflexivity.
  - intros n Hn. rewrite pick_snoc. apply in_or_app. left.
    apply in_app_or in Hn as [Hn|[->|[]]]; [auto|].
    apply J5. inversion HS; subst. right.
    eapply nth_error_In. eassumption.
Qed.

(** *** Distinct submissions *)

Lemma submissions_snoc t e :
  submissions (t ++ [e])
  = submissions t ++ match is_submitted e with Some x => [x] | None => [] end.
Proof. apply pick_snoc. Qed.

Lemma NoDup_submissions_prefix t e :
  NoDup (submissions (t ++ [e])) -> NoDup (submissions t).
Proof.
  rewrite submissions_snoc. apply NoDup_app_remove_r.
Qed.

Lemma In_normal_submitted t n :
  In n (pick is_normal_submitted t) <-> In (NormalMessage, n) (submissions t).
Proof.
  unfold submissions. rewrite !In_pick. split; intros (e & He & Hf); exists e;
    (split; [exact He|]); destruct e as [[|] m| | | | | | | |];
    simpl in *; congruence.
Qed.

Lemma NoDup_normal_submitted t :
  NoDup (submissions t) -> NoDup (pick is_normal_submitted t).
Proof.
  induction t as [|e t IH]; simpl; [constructor|].
  unfold submissions. simpl.
  destruct e as [[|] m| | | | | | | |]; simpl; auto.
  - intros Hnd. inversion Hnd; subst. auto.
  - intros Hnd. inversion Hnd; subst. constructor; [|auto].
    rewrite In_normal_submitted. assumption.
Qed.

(** A normal message taken from the channel is neither submitted nor taken
    a second time. *)
Lemma taken_not_again s t e s' n :
  Inv s t -> Step s e s' -> NoDup (submissions (t ++ [e])) ->
  In n (pick is_normal_taken t) ->
  e <> Submitted NormalMessage n /\ e <> TookNormal n.
Proof.
  intros HI HS Hnd Hn. split; intros ->.
  - rewrite submissions_snoc in Hnd. simpl in Hnd.
    apply NoDup_remove_2 in Hnd. rewrite app_nil_r in Hnd. apply Hnd.
    apply In_normal_submitted. rewrite (inv_normal_ch _ _ HI).
    apply in_or_app. left. exact Hn.
  - apply NoDup_submissions_prefix, NoDup_normal_submitted in Hnd.
    rewrite (inv_normal_ch _ _ HI) in Hnd.
    inversion HS; subst.
    match goal with E : normalCh s = _ |- _ => rewrite E in Hnd end.
    apply NoDup_remove_2 in Hnd. apply Hnd. apply in_or_app. left. exact Hn.
Qed.

(** [u] was submitted before [n] was submitted, or before [n] was taken
    from the normal channel. *)
Definition precedes u n t : Prop :=
  before (Submitted UrgentMessage u) (Submitted NormalMessage n) t
  \/ before (Submitted UrgentMessage u) (TookNormal n) t.

Lemma precedes_snoc s t e s' u n :
  Inv s t -> Step s e s' -> NoDup (submissions (t ++ [e])) ->
  In n (pick is_normal_taken t) ->
  precedes u n (t ++ [e]) -> precedes u n t.
Proof.
  intros HI HS Hnd Hn Hp.
  destruct (taken_not_again _ _ _ _ _ HI HS Hnd Hn) as [Hs Ht].
  destruct Hp as [Hp|Hp]; apply before_snoc in Hp as [Hp|[-> _]];
    try contradiction; [left|right]; exact Hp.
Qed.

Lemma precedes_submitted u n t :
  precedes u n t -> In u (pick is_urgent_submitted t).
Proof.
  intros Hp. apply In_pick. exists (Submitted UrgentMessage u).
  split; [|reflexivity]. destruct Hp as [Hp|Hp]; apply (before_In _ _ _ Hp).
Qed.

Lemma In_urgent_written u t :
  In u (pick is_urgent_written t) -> In (WriteEnd UrgentMessage u) t.
Proof.
  rewrite In_pick. intros (e & He & Hf).
  destruct e as [mp m| | | | |[|] m| | |]; simpl in Hf; try discriminate.
  injection Hf as ->. exact He.
Qed.

(** *** Urgent first *)

Record Ord s t : Prop := {
  ord_ready :
    forall u n, ready s n -> precedes u n t -> In (WriteEnd UrgentMessage u) t;
  ord_begun :
    forall u n, precedes u n t -> In (WriteBegin NormalMessage n) t ->
      before (WriteEnd UrgentMessage u) (WriteBegin NormalMessage n) t;
  ord_dispatched :
    forall u n, precedes u n t -> In (Dispatched n) t ->
      before (WriteEnd UrgentMessage u) (Dispatched n) t
}.

Lemma Ord_init : Ord init [].
Proof.
  split.
  - intros u n _ Hp. apply precedes_submitted in Hp. destruct Hp.
  - intros u n _ [].
  - intros u n _ [].
Qed.

Lemma Ord_step s t e s' :
  Inv s t -> Ord s t -> Step s e s' -> NoDup (submissions (t ++ [e])) ->
  Ord s' (t ++ [e]).
Proof.
  intros HI [O1 O2 O3] HS Hnd. split.
  - intros u n Hr Hp.
    apply in_or_app.
    destruct (step_ready _ _ _ n HS Hr) as [Hr0|(-> & Hl & Hu)].
    + left. apply (O1 u n Hr0).
      eapply precedes_snoc; eauto.
      apply (inv_past_take _ _ HI). apply ready_past_take. exact Hr0.
    + left. apply In_urgent_written.
      assert (Hsub : In u (pick is_urgent_submitted t)).
      { apply precedes_submitted in Hp. rewrite pick_snoc in Hp. simpl in Hp.
        rewrite app_nil_r in Hp. exact Hp. }
      rewrite (inv_urgent_ch _ _ HI), (inv_urgent_held _ _ HI), Hl, Hu in Hsub.
      simpl in Hsub. rewrite !app_nil_r in Hsub. exact Hsub.
  - intros u n Hp Hin.
    apply in_app_or in Hin as [Hin|[->|[]]].
    + apply before_snoc_l. apply O2; [|exact Hin].
      eapply precedes_snoc; eauto. apply (inv_normal_begun _ _ HI). exact Hin.
    + assert (Hsp : In n (spawned s)).
      { inversion HS; subst. eapply nth_error_In. eassumption. }
      apply before_snoc_r. apply (O1 u n); [right; exact Hsp|].
      eapply precedes_snoc; eauto.
      apply (inv_past_take _ _ HI). right. exact Hsp.
  - intros u n Hp Hin.
    apply in_app_or in Hin as [Hin|[->|[]]].
    + apply before_snoc_l. apply O3; [|exact Hin].
      eapply precedes_snoc; eauto. apply (inv_dispatched _ _ HI). exact Hin.
    + assert (Hl : loc s = Dispatching n) by (inversion HS; subst; assumption).
      apply before_snoc_r. apply (O1 u n); [left; exact Hl|].
      eapply precedes_snoc; eauto.
      apply (inv_past_take _ _ HI). left. rewrite Hl. reflexivity.
Qed.

Lemma exec_invariant (sched : list (Action M)) : forall s t,
  Inv s t -> (NoDup (submissions t) -> Ord s t) ->
  Inv (fst (exec sched s t)) (snd (exec sched s t))
  /\ (NoDup (submissions (snd (exec sched s t))) ->
      Ord (fst (exec sched s t)) (snd (exec sched s t))).
Proof.
  induction sched as [|a sched IH]; intros s t HI HO; [simpl; auto|].
  simpl. destruct (step s a) as [[s' e]|] eqn:Ea; [|apply IH; assumption].
  apply step_sound in Ea. apply IH.
  - eapply Inv_step; eauto.
  - intros Hnd. eapply Ord_step; eauto.
    apply HO. eapply NoDup_submissions_prefix. exact Hnd.
Qed.

(** The inner [select] of the drain never waits: some case is ready. *)
Lemma drain_never_blocks s nm :
  loc s = Draining nm -> exists c r, loop_step s c = Some r.
Proof.
  intros Hl. unfold loop_step. rewrite Hl.
  destruct (quitCh s).
  - exists TakeQuit. eauto.
  - destruct (urgentCh s) as [|um rest].
    + exists TakeDefault. eauto.
    + exists TakeUrgent. eauto.
Qed.

(** C3: in every schedule of submissions, stop, loop steps and spawned
    sends, with the submissions told apart: an urgent message submitted
    before a normal message was submitted has its write returned before
    the normal message's write is entered; an urgent message submitted
    before the loop took a normal message from its channel has its write
    returned before that normal message is dispatched, the drain taking an
    urgent message whenever one is queued, leaving only on an empty urgent
    channel and never waiting; and the urgent writes are entered and
    return in submission order. *)
Theorem writeLoop_urgent_before_normal :
  forall (sched : list (Action M)),
    let t := snd (run sched) in
    NoDup (submissions t) ->
    (forall u n,
       before (Submitted UrgentMessage u) (Submitted NormalMessage n) t ->
       In (WriteBegin NormalMessage n) t ->
       before (WriteEnd UrgentMessage u) (WriteBegin NormalMessage n) t)
    /\ (forall u n,
          before (Submitted UrgentMessage u) (TookNormal n) t ->
          In (Dispatched n) t ->
          before (WriteEnd UrgentMessage u) (Dispatched n) t)
    /\ (forall s nm,
          loc s = Draining nm ->
          (exists c r, loop_step s c = Some r)
          /\ (forall r, loop_step s TakeDefault = Some r ->
                urgentCh s = [] /\ r = (with_loc s (Dispatching nm), Drained nm))
          /\ (forall um rest, urgentCh s = um :: rest ->
                loop_step s TakeUrgent
                = Some (with_chans s rest (normalCh s) (DrainGot nm um),
                        TookUrgent um)))
    /\ (exists later, urgent_submitted t = urgent_written t ++ later)
    /\ (exists later, urgent_submitted t = urgent_begun t ++ later).
Proof.
  intros sched t Hnd. unfold t, run in *.
  destruct (exec_invariant sched init [] Inv_init (fun _ => Ord_init))
    as [HI HO].
  specialize (HO Hnd). destruct HO as [_ O2 O3].
  split; [|split; [|split; [|split]]].
  - intros u n Hb Hin. apply O2; [left; exact Hb|exact Hin].
  - intros u n Hb Hin. apply O3; [right; exact Hb|exact Hin].
  - intros s nm Hl. split; [eapply drain_never_blocks; eauto|]. split.
    + intros r. unfold loop_step. rewrite Hl.
      destruct (urgentCh s); [|discriminate].
      destruct (quitCh s); [discriminate|]. intros [= <-]. auto.
    + intros um rest Hu. unfold loop_step. rewrite Hl, Hu. reflexivity.
  - unfold urgent_submitted, urgent_written.
    rewrite (inv_urgent_ch _ _ HI), (inv_urgent_held _ _ HI), <- app_assoc.
    eauto.
  - unfold urgent_submitted, urgent_begun.
    rewrite (inv_urgent_ch _ _ HI), (inv_urgent_begun _ _ HI), <- app_assoc.
    eauto.
Qed.

End SchedulerFacts.

(** The channel sends of [SendMessage] are the [submit] steps of the
    scheduler: an accepted call enqueues at the tail of the selected
    channel, a rejected call is no step. *)
Definition scheduler_view {F : Type} (p : Peer F) (l : Loc p2pMessage)
    (sp sd : list p2pMessage) : State p2pMessage :=
  {| urgentCh := urgentMsgCh p; normalCh := normalMsgCh p;
     quitCh := quitWriteCh p; loc := l; spawned := sp; sending := sd |}.

Lemma SendMessage_is_submit {F : Type} `{BloomFilter F}
    (p p' : Peer F) msg mp d r l sp sd :
  SendMessage p msg mp d = (p', r) ->
  match r with
  | None =>
      submit (scheduler_view p l sp sd) mp msg = Some (scheduler_view p' l sp sd)
  | Some _ => scheduler_view p' l sp sd = scheduler_view p l sp sd
  end.
Proof.
  intros E. destruct r as [e|].
  - apply SendMessage_rejected in E as [-> _]. reflexivity.
  - apply SendMessage_accepted in E as (_ & -> & Hlen).
    unfold submit, scheduler_view. simpl.
    apply Nat.ltb_lt in Hlen.
    destruct mp; simpl in *; rewrite Hlen;
      destruct (needDedup msg); unfold recordMessage, with_chans; simpl;
      try destruct (bloomMaxItemCount <=? bloomItemCount p); reflexivity.
Qed.

(** *** A concrete schedule

    Urgent 1 and then normal 2 are submitted; the loop takes the normal
    message first, drains the urgent one, and dispatches. *)
Definition sched_demo : list (Action nat) :=
  [ DoSubmit UrgentMessage 1%nat; DoSubmit NormalMessage 2%nat;
    DoLoop TakeNormal; DoLoop TakeUrgent; DoLoop TakeDefault;
    DoLoop TakeDefault; DoLoop TakeDefault; DoLoop TakeDefault;
    DoGoBegin 0 ].

Example sched_demo_trace :
  snd (run sched_demo)
  = [ Submitted UrgentMessage 1%nat; Submitted NormalMessage 2%nat;
      TookNormal 2%nat; TookUrgent 1%nat;
      WriteBegin UrgentMessage 1%nat; WriteEnd UrgentMessage 1%nat;
      Drained 2%nat; Dispatched 2%nat; WriteBegin NormalMessage 2%nat ].
Proof. reflexivity. Qed.

Lemma writeLoop_urgent_before_normal_witness :
  NoDup (submissions (snd (run sched_demo)))
  /\ before (WriteEnd UrgentMessage 1%nat) (WriteBegin NormalMessage 2%nat)
            (snd (run sched_demo)).
Proof.
  assert (Hnd : NoDup (submissions (snd (run sched_demo)))).
  { simpl. constructor; [simpl; intuition discriminate|].
    constructor; [simpl; tauto|constructor]. }
  split; [exact Hnd|].
  apply (proj1 (writeLoop_urgent_before_normal nat sched_demo Hnd)).
  - exists [], [],
      [ TookNormal 2%nat; TookUrgent 1%nat;
        WriteBegin UrgentMessage 1%nat; WriteEnd UrgentMessage 1%nat;
        Drained 2%nat; Dispatched 2%nat; WriteBegin NormalMessage 2%nat ].
    reflexivity.
  - simpl. tauto.
Defined.

(** * Further properties of the peer *)

(** ** Submission: capacity, bypass and received messages *)
Section SubmitMore.

Context {F : Type} `{BloomFilter F}.

Definition queue_of (mp : MessagePriority) (p : Peer F) : list p2pMessage :=
  match mp with
  | NormalMessage => normalMsgCh p
  | UrgentMessage => urgentMsgCh p
  end.

Definition other_queue (mp : MessagePriority) (p : Peer F) : list p2pMessage :=
  match mp with
  | NormalMessage => urgentMsgCh p
  | UrgentMessage => normalMsgCh p
  end.

(** [SendMessage] for each message of a list in turn, with the results. *)
Fixpoint send_all (msgs : list p2pMessage) (mp : MessagePriority)
    (deduplicate : bool) (p : Peer F) : Peer F * list (option error) :=
  match msgs with
  | [] => (p, [])
  | msg :: rest =>
      let '(p1, r) := SendMessage p msg mp deduplicate in
      let '(p2, rs) := send_all rest mp deduplicate p1 in
      (p2, r :: rs)
  end.

Lemma SendMessage_queues (p p' : Peer F) msg mp d :
  SendMessage p msg mp d = (p', None) ->
  queue_of mp p' = queue_of mp p ++ [msg]
  /\ other_queue mp p' = other_queue mp p
  /\ (length (queue_of mp p) < msgChanSize)%nat.
Proof.
  intros E. apply SendMessage_accepted in E as (_ & -> & Hlen).
  destruct mp; simpl in *; unfold recordMessage;
    destruct (needDedup msg); simpl;
    try destruct (bloomMaxItemCount <=? bloomItemCount p); simpl; auto.
Qed.

Lemma SendMessage_no_dedup (p : Peer F) msg mp :
  SendMessage p msg mp false
  = if (length (queue_of mp p) <? msgChanSize)%nat
    then (fst (SendMessage p msg mp false), None)
    else (p, Some ErrMessageChannelFull).
Proof.
  unfold SendMessage. simpl.
  destruct mp; simpl;
    [destruct (length (urgentMsgCh p) <? msgChanSize)%nat
    |destruct (length (normalMsgCh p) <? msgChanSize)%nat]; reflexivity.
Qed.

Lemma send_all_fills (msgs : list p2pMessage) (mp : MessagePriority) :
  forall (p : Peer F),
    (length (queue_of mp p) <= msgChanSize)%nat ->
    let room := (msgChanSize - length (queue_of mp p))%nat in
    snd (send_all msgs mp false p)
    = repeat None (Nat.min room (length msgs))
      ++ repeat (Some ErrMessageChannelFull) (length msgs - room)
    /\ queue_of mp (fst (send_all msgs mp false p))
       = queue_of mp p ++ firstn room msgs
    /\ other_queue mp (fst (send_all msgs mp false p)) = other_queue mp p.
Proof.
  induction msgs as [|msg msgs IH]; intros p Hle room.
  - simpl. rewrite Nat.min_0_r, firstn_nil, !app_nil_r. simpl. auto.
  - cbn [send_all].
    destruct (SendMessage p msg mp false) as [p1 r] eqn:E.
    specialize (IH p1).
    destruct (send_all msgs mp false p1) as [p2 rs] eqn:E2.
    cbn [fst snd] in *.
    rewrite SendMessage_no_dedup in E.
    destruct (Nat.ltb_spec (length (queue_of mp p)) msgChanSize) as [Hlt|Hge].
    + injection E as E <-.
      assert (Es : SendMessage p msg mp false = (p1, None)).
      { rewrite <- E. rewrite SendMessage_no_dedup.
        destruct (Nat.ltb_spec (length (queue_of mp p)) msgChanSize); [|lia].
        reflexivity. }
      apply SendMessage_queues in Es as (Eq & Eo & _).
      destruct IH as (IH1 & IH2 & IH3).
      { rewrite Eq, length_app. simpl. lia. }
      rewrite IH1, IH2, IH3, Eq, Eo, length_app. cbn [length].
      replace (msgChanSize - (length (queue_of mp p) + 1))%nat
        with (room - 1)%nat by (unfold room; lia).
      destruct room as [|room'] eqn:Er; [unfold room in Er; lia|].
      cbn [Nat.sub firstn]. rewrite Nat.sub_0_r.
      split; [|split; [|reflexivity]].
      * replace (Nat.min (S room') (S (length msgs)))
          with (S (Nat.min room' (length msgs))) by lia.
        reflexivity.
      * rewrite <- app_assoc. reflexivity.
    + injection E as <- <-.
      destruct IH as (IH1 & IH2 & IH3); [exact Hle|].
      rewrite IH1, IH2, IH3.
      replace room with 0%nat by (unfold room; lia).
      replace (msgChanSize - length (queue_of mp p))%nat with 0%nat by lia.
      cbn [length Nat.min firstn repeat app]. rewrite Nat.sub_0_r, Nat.sub_0_r.
      repeat split.
Qed.

(** X1: submissions in a row onto one priority queue, without
    deduplication: the queue takes messages up to its capacity of 1024,
    in order, and every further submission returns
    [ErrMessageChannelFull]; the other queue is untouched.  From an empty
    queue the 1025th submission is the first one refused. *)
Theorem SendMessage_fills_queue :
  forall (msgs : list p2pMessage) (mp : MessagePriority) (p : Peer F),
    (length (queue_of mp p) <= msgChanSize)%nat ->
    let room := (msgChanSize - length (queue_of mp p))%nat in
    snd (send_all msgs mp false p)
    = repeat None (Nat.min room (length msgs))
      ++ repeat (Some ErrMessageChannelFull) (length msgs - room)
    /\ queue_of mp (fst (send_all msgs mp false p))
       = queue_of mp p ++ firstn room msgs
    /\ other_queue mp (fst (send_all msgs mp false p)) = other_queue mp p
    /\ (length (queue_of mp (fst (send_all msgs mp false p))) <= msgChanSize)%nat
    /\ (queue_of mp p = [] ->
        nth_error (snd (send_all msgs mp false p)) 1024
        = if (1024 <? length msgs)%nat then Some (Some ErrMessageChannelFull)
          else None).
Proof.
  intros msgs mp p Hle room.
  destruct (send_all_fills msgs mp p Hle) as (H1 & H2 & H3). fold room in H1, H2.
  split; [exact H1|]. split; [exact H2|]. split; [exact H3|]. split.
  - rewrite H2, length_app, length_firstn. unfold room. lia.
  - intros Hempty. rewrite H1.
    assert (Hroom : room = 1024%nat).
    { unfold room. rewrite Hempty. reflexivity. }
    rewrite Hroom.
    destruct (Nat.ltb_spec 1024 (length msgs)) as [Hlt|Hge].
    + rewrite nth_error_app2; rewrite repeat_length; [|lia].
      replace (Nat.min 1024 (length msgs)) with 1024%nat by lia.
      rewrite Nat.sub_diag.
      destruct (length msgs - 1024)%nat eqn:Ed; [lia|]. reflexivity.
    + apply nth_error_None. rewrite length_app, !repeat_length. lia.
Qed.

End SubmitMore.

Lemma SendMessage_fills_queue_witness :
  snd (send_all [msgA; msgB] UrgentMessage false (emptyPeer : Peer Z))
  = [None; None].
Proof.
  assert (Hle : (length (queue_of UrgentMessage (emptyPeer : Peer Z))
                 <= msgChanSize)%nat) by (simpl; unfold msgChanSize; lia).
  exact (proj1 (SendMessage_fills_queue [msgA; msgB] UrgentMessage emptyPeer Hle)).
Defined.

Section PeerBounds.

Context {F : Type} `{BloomFilter F}.

Lemma recordMessage_count (p : Peer F) msg :
  0 <= bloomItemCount p <= bloomMaxItemCount ->
  1 <= bloomItemCount (recordMessage p msg) <= bloomMaxItemCount.
Proof.
  intros Hc. destruct (Z.leb_spec bloomMaxItemCount (bloomItemCount p)).
  - rewrite recordMessage_at_capacity by assumption. simpl.
    unfold bloomMaxItemCount. lia.
  - rewrite recordMessage_below; [simpl; lia| |assumption].
    unfold GoInt.in_int64, bloomMaxItemCount in *. lia.
Qed.

Lemma recordMessage_queues (p : Peer F) msg :
  urgentMsgCh (recordMessage p msg) = urgentMsgCh p
  /\ normalMsgCh (recordMessage p msg) = normalMsgCh p
  /\ streams (recordMessage p msg) = streams p
  /\ streamCount (recordMessage p msg) = streamCount p
  /\ quitWriteCh (recordMessage p msg) = quitWriteCh p.
Proof.
  unfold recordMessage.
  destruct (bloomMaxItemCount <=? bloomItemCount p); simpl; auto.
Qed.

Definition within_bounds (p : Peer F) : Prop :=
  (length (urgentMsgCh p) <= msgChanSize)%nat
  /\ (length (normalMsgCh p) <= msgChanSize)%nat
  /\ 0 <= bloomItemCount p <= bloomMaxItemCount.

Lemma apply_op_bounds (p : Peer F) op :
  within_bounds p -> within_bounds (apply_op p op).
Proof.
  intros (Hu & Hn & Hc). unfold within_bounds.
  destruct op as [msg mp d|msg| |]; simpl.
  - destruct (SendMessage p msg mp d) as [p' [e|]] eqn:E; simpl.
    + apply SendMessage_rejected in E as [-> _]. auto.
    + apply SendMessage_accepted in E as (_ & -> & Hlen).
      cbv zeta. destruct (needDedup msg).
      * match goal with
        | |- context [recordMessage ?q msg] =>
            pose proof (recordMessage_queues q msg) as (Equ & Eqn & _);
            assert (Hq : 1 <= bloomItemCount (recordMessage q msg)
                         <= bloomMaxItemCount)
              by (apply recordMessage_count; destruct mp; simpl; lia)
        end.
        rewrite Equ, Eqn.
        destruct mp; simpl in *; rewrite ?length_app; simpl;
          (split; [lia|split; [lia|lia]]).
      * destruct mp; simpl in *; rewrite ?length_app; simpl;
          (split; [lia|split; [lia|lia]]).
  - destruct (needDedup msg).
    + pose proof (recordMessage_queues p msg) as (Equ & Eqn & _).
      pose proof (recordMessage_count p msg Hc). rewrite Equ, Eqn.
      split; [lia|split; [lia|lia]].
    + auto.
  - split; [|auto]. destruct (urgentMsgCh p); simpl in *; lia.
  - split; [auto|]. split; [|auto]. destruct (normalMsgCh p); simpl in *; lia.
Qed.

Lemma apply_ops_bounds (ops : list PeerOp) : forall (p : Peer F),
  within_bounds p -> within_bounds (apply_ops ops p).
Proof.
  induction ops as [|op ops IH]; intros p Hp; [exact Hp|].
  unfold apply_ops. cbn [fold_left]. apply IH. apply apply_op_bounds. exact Hp.
Qed.

Lemma emptyPeer_bounds : within_bounds (emptyPeer : Peer F).
Proof.
  unfold within_bounds, msgChanSize, bloomMaxItemCount. simpl. lia.
Qed.

(** X2: however submissions, received messages and the write loop's
    takes interleave on a peer, neither message queue ever holds more than
    1024 messages. *)
Theorem queues_never_exceed_capacity :
  forall (ops : list PeerOp),
    (length (urgentMsgCh (apply_ops ops (emptyPeer : Peer F))) <= 1024)%nat
    /\ (length (normalMsgCh (apply_ops ops (emptyPeer : Peer F))) <= 1024)%nat.
Proof.
  intros ops.
  destruct (apply_ops_bounds ops emptyPeer emptyPeer_bounds) as (Hu & Hn & _).
  split; assumption.
Qed.

(** X3: the item counter of the filter stays between 0 and the capacity of
    100,000 under every sequence of operations, it is at least 1 right
    after a message is recorded, and the machine increment never wraps. *)
Theorem bloom_counter_within_capacity :
  forall (ops : list PeerOp) (msg : p2pMessage),
    let p := apply_ops ops (emptyPeer : Peer F) in
    0 <= bloomItemCount p <= 100000
    /\ 1 <= bloomItemCount (recordMessage p msg) <= 100000
    /\ bloomItemCount (recordMessage p msg)
       = (if 100000 <=? bloomItemCount p then 1 else bloomItemCount p + 1).
Proof.
  intros ops msg p.
  destruct (apply_ops_bounds ops emptyPeer emptyPeer_bounds) as (_ & _ & Hc).
  fold p in Hc. change bloomMaxItemCount with 100000 in Hc.
  split; [exact Hc|]. split.
  - apply (recordMessage_count p msg). exact Hc.
  - change 100000 with bloomMaxItemCount.
    destruct (Z.leb_spec bloomMaxItemCount (bloomItemCount p)).
    + rewrite recordMessage_at_capacity by assumption. reflexivity.
    + rewrite recordMessage_below; [reflexivity| |assumption].
      unfold GoInt.in_int64. lia.
Qed.

(** X4: a message received from the neighbour is not sent back to it: once
    [handleMessage] has recorded a dedup-eligible message, a submission
    with deduplication of any message with the same content is refused
    with [ErrDuplicateMessage], for as long as the filter is not reset. *)
Theorem received_message_not_sent_back :
  forall (p : Peer F) (msg msg' : p2pMessage) (mp : MessagePriority)
         (ops : list PeerOp),
    needDedup msg = true -> needDedup msg' = true ->
    content msg' = content msg ->
    0 <= bloomItemCount p <= bloomMaxItemCount ->
    bloomItemCount (fst (handleMessage p msg)) + records ops (fst (handleMessage p msg))
      <= bloomMaxItemCount ->
    snd (handleMessage p msg) = [EvHandleMessage msg]
    /\ SendMessage (apply_ops ops (fst (handleMessage p msg))) msg' mp true
       = (apply_ops ops (fst (handleMessage p msg)), Some ErrDuplicateMessage).
Proof.
  intros p msg msg' mp ops Hd Hd' Hcont Hc Hcap.
  split; [reflexivity|].
  unfold handleMessage in *. rewrite Hd in *. cbn [fst] in *.
  assert (Hm : hasMessage (recordMessage p msg) msg' = true).
  { unfold hasMessage. rewrite Hcont. apply recordMessage_has. }
  assert (Hr : GoInt.in_int64 (bloomItemCount (recordMessage p msg))).
  { pose proof (recordMessage_count p msg Hc).
    unfold GoInt.in_int64, bloomMaxItemCount in *. lia. }
  pose proof (apply_ops_no_reset ops _ msg' Hr Hcap Hm) as Hlater.
  unfold SendMessage. rewrite Hd', Hlater. reflexivity.
Qed.


End PeerBounds.

Lemma received_message_not_sent_back_witness :
  SendMessage (apply_ops ops_between (fst (handleMessage (emptyPeer : Peer Z) msgB)))
    msgB NormalMessage true
  = (apply_ops ops_between (fst (handleMessage (emptyPeer : Peer Z) msgB)),
     Some ErrDuplicateMessage).
Proof.
  apply (received_message_not_sent_back (emptyPeer : Peer Z) msgB msgB
           NormalMessage ops_between).
  - reflexivity.
  - reflexivity.
  - reflexivity.
  - unfold bloomMaxItemCount. simpl. lia.
  - vm_compute. discriminate.
Defined.


(** ** Sending: the stream comes back or is retired *)
Section WriteMore.

Context {F : Type} `{BloomFilter F}.

(** [NewPeer]: the new peer registers the stream it was built on. *)
Definition NewPeer (stream : Stream) : Peer F * list Event :=
  let '(_, p, ev) := AddStream stream emptyPeer in (p, ev).

(** [getStream] once for each answer of the host, in turn. *)
Fixpoint acquire_all (hosts : list (Stream + nat)) (p : Peer F)
    : list GetResult * Peer F * list Event :=
  match hosts with
  | [] => ([], p, [])
  | host :: rest =>
      let '(r, p1, e1) := getStream host p in
      let '(rs, p2, e2) := acquire_all rest p1 in
      (r :: rs, p2, e1 ++ e2)
  end.

Lemma add_streams_eq (ss : list Stream) : forall (p : Peer F),
  streamCount p = Z.of_nat (length (streams p)) ->
  streamCount p <= maxStreamCount ->
  add_streams ss p
  = set_pool p
      (streams p ++ firstn (Z.to_nat (maxStreamCount - streamCount p)) ss)
      (Z.min (streamCount p + Z.of_nat (length ss)) maxStreamCount).
Proof.
  induction ss as [|s ss IH]; intros p Hc Hcap.
  - simpl. rewrite firstn_nil, app_nil_r.
    replace (Z.min (streamCount p + 0) maxStreamCount) with (streamCount p) by lia.
    destruct p; reflexivity.
  - unfold add_streams. cbn [fold_left].
    match goal with
    | |- context [fold_left ?f ss ?q] => change (fold_left f ss q) with (add_streams ss q)
    end.
    destruct (Z.leb_spec maxStreamCount (streamCount p)) as [Hge|Hlt].
    + rewrite AddStream_at_cap by assumption. rewrite IH by assumption.
      replace (maxStreamCount - streamCount p) with 0 by lia.
      cbn [length Z.to_nat firstn]. f_equal. lia.
    + rewrite AddStream_below_cap by lia.
      rewrite IH.
      * unfold set_pool.
        cbn [streams streamCount recentMsg bloomItemCount urgentMsgCh
             normalMsgCh quitWriteCh length].
        f_equal.
        -- rewrite <- app_assoc. f_equal.
           replace (Z.to_nat (maxStreamCount - streamCount p))
             with (S (Z.to_nat (maxStreamCount - (streamCount p + 1)))) by lia.
           reflexivity.
        -- rewrite Nat2Z.inj_succ. lia.
      * cbn [set_pool streams streamCount]. rewrite length_app.
        cbn [length]. lia.
      * cbn [set_pool streamCount]. lia.
Qed.

Lemma acquire_all_idle (ss : list Stream) :
  forall (hosts : list (Stream + nat)) (p : Peer F) c,
    length hosts = length ss ->
    acquire_all hosts (set_pool p ss c) = (map GotStream ss, set_pool p [] c, []).
Proof.
  induction ss as [|s ss IH]; intros [|host hosts] p c Hlen;
    simpl in Hlen; try discriminate.
  - reflexivity.
  - cbn [acquire_all].
    replace (getStream host (set_pool p (s :: ss) c))
      with (GotStream s, set_pool p ss c, @nil Event) by reflexivity.
    rewrite IH by lia. reflexivity.
Qed.

(** X6: the pool is first in, first out.  [NewPeer] starts with its one
    stream idle and one reader spawned; streams added to a new peer (up to
    the cap) are handed out by successive [getStream] calls oldest first,
    without a call to the host and without changing the live count. *)
Theorem pool_hands_out_oldest_first :
  forall (s0 : Stream) (ss : list Stream) (hosts : list (Stream + nat)),
    NewPeer s0 = (set_pool emptyPeer [s0] 1, [EvSpawnReadLoop s0])
    /\ ((length ss <= 8)%nat -> length hosts = length ss ->
        acquire_all hosts (add_streams ss emptyPeer)
        = (map GotStream ss,
           set_pool emptyPeer [] (Z.of_nat (length ss)), [])).
Proof.
  intros s0 ss hosts. split; [reflexivity|].
  intros Hle Hlen.
  rewrite add_streams_eq; [|reflexivity|unfold maxStreamCount; simpl; lia].
  cbn [streams streamCount emptyPeer app].
  change (Z.to_nat (maxStreamCount - 0)) with 8%nat.
  rewrite firstn_all2 by lia.
  replace (Z.min (0 + Z.of_nat (length ss)) maxStreamCount)
    with (Z.of_nat (length ss)) by (unfold maxStreamCount; lia).
  rewrite acquire_all_idle by assumption. reflexivity.
Qed.

Lemma streams_send_room (s : Stream) (p : Peer F) :
  Z.of_nat (length (streams p)) < maxStreamCount ->
  streams_send s p = (true, set_pool p (streams p ++ [s]) (streamCount p), []).
Proof.
  intros Hroom. unfold streams_send, bind, get, put, ret.
  destruct (Z.ltb_spec (Z.of_nat (length (streams p))) maxStreamCount); [|lia].
  reflexivity.
Qed.

Lemma write_on_success (env : Env) (m : p2pMessage) (s : Stream) (p : Peer F) :
  let timeout := writeTimeout (Z.of_nat (length (content m))) in
  let payload := content (setTime env m) in
  stream_SetWriteDeadline env s (time_Now env) timeout = None ->
  stream_Write env s payload = None ->
  Z.of_nat (length (streams p)) < maxStreamCount ->
  write_on env m s p
  = (WriteReturned None, set_pool p (streams p ++ [s]) (streamCount p),
     [EvSetWriteDeadline s (time_Now env) timeout; EvStreamWrite s payload]).
Proof.
  intros timeout payload Hd Hw Hroom. unfold write_on.
  fold timeout. fold payload. rewrite Hd, Hw.
  unfold bind, emit, ret. rewrite streams_send_room by assumption.
  reflexivity.
Qed.

(** X7: a send that goes through hands its stream back: taken from the
    front of the idle channel it returns to the back, with the live count
    unchanged, after exactly one deadline and one write of the stamped
    content; with no idle stream and the count below the cap the send
    opens a stream, and that stream ends up idle with the count one
    higher. *)
Theorem write_success_returns_stream :
  forall (env : Env) (m : p2pMessage) (p : Peer F) (s : Stream),
    let timeout := writeTimeout (Z.of_nat (length (content m))) in
    let payload := content (setTime env m) in
    stream_SetWriteDeadline env s (time_Now env) timeout = None ->
    stream_Write env s payload = None ->
    (forall rest,
       streams p = s :: rest -> (length (streams p) <= 8)%nat ->
       write env m p
       = (WriteReturned None, set_pool p (rest ++ [s]) (streamCount p),
          [EvSetWriteDeadline s (time_Now env) timeout; EvStreamWrite s payload]))
    /\ (streams p = [] -> 0 <= streamCount p < maxStreamCount ->
        host_NewStream env = inl s ->
        write env m p
        = (WriteReturned None, set_pool p [s] (streamCount p + 1),
           [EvHostNewStream; EvSpawnReadLoop s;
            EvSetWriteDeadline s (time_Now env) timeout;
            EvStreamWrite s payload])).
Proof.
  intros env m p s timeout payload Hd Hw. split.
  - intros rest Es Hlen. unfold write, bind.
    replace (getStream (host_NewStream env) p)
      with (GotStream s, set_pool p rest (streamCount p), @nil Event)
      by (unfold getStream, bind, get, put, ret; rewrite Es; reflexivity).
    rewrite write_on_success; try assumption.
    + reflexivity.
    + rewrite Es in Hlen. simpl in *. unfold maxStreamCount. lia.
  - intros Es Hc Hhost. unfold write, bind.
    replace (getStream (host_NewStream env) p)
      with (GotStream s, set_pool p [] (streamCount p + 1),
            [EvHostNewStream; EvSpawnReadLoop s]).
    + rewrite write_on_success; try assumption.
      * reflexivity.
      * simpl. unfold maxStreamCount. lia.
    + rewrite Hhost. act_unfold. rewrite Es. simpl.
      destruct (Z.leb_spec maxStreamCount (streamCount p)); [lia|]. simpl.
      rewrite Es, wrap64_id; [reflexivity|].
      unfold GoInt.in_int64, maxStreamCount in *. lia.
Qed.

End WriteMore.

Lemma write_success_returns_stream_witness :
  write env_ok msgA peer_one_idle
  = (WriteReturned None, set_pool peer_one_idle [7%nat] 1,
     [EvSetWriteDeadline 7%nat 0 1000000000;
      EvStreamWrite 7%nat (content msgA ++ repeat x00 8%nat)]).
Proof.
  refine (proj1 (write_success_returns_stream env_ok msgA peer_one_idle 7%nat
                   eq_refl eq_refl) [] eq_refl _).
  simpl. lia.
Defined.

Section WriteAccounting.

Context {F : Type} `{BloomFilter F}.

Lemma write_on_accounting (env : Env) (m : p2pMessage) (s : Stream)
    (q q' : Peer F) r ev (k : nat) :
  streamCount q = Z.of_nat (length (streams q)) + Z.of_nat k + 1 ->
  streamCount q <= maxStreamCount ->
  write_on env m s q = (r, q', ev) ->
  (exists err, r = WriteReturned err)
  /\ streamCount q' = Z.of_nat (length (streams q')) + Z.of_nat k
  /\ streamCount q' <= maxStreamCount
  /\ recentMsg q' = recentMsg q /\ bloomItemCount q' = bloomItemCount q
  /\ urgentMsgCh q' = urgentMsgCh q /\ normalMsgCh q' = normalMsgCh q
  /\ quitWriteCh q' = quitWriteCh q.
Proof.
  intros Hc Hcap E.
  pose proof (eq_refl : maxStreamCount = 8) as Hmax.
  pose proof (write_on_cases env m s q) as Hcases. cbv zeta in Hcases.
  assert (Hdec : GoInt.wrap64 (streamCount q - 1) = streamCount q - 1).
  { apply wrap64_id. unfold GoInt.in_int64. lia. }
  destruct (stream_SetWriteDeadline env s (time_Now env) _) as [code|] eqn:Ed.
  - rewrite Hcases in E. injection E as <- <- <-.
    cbn [set_pool streams streamCount recentMsg bloomItemCount urgentMsgCh
         normalMsgCh quitWriteCh]. rewrite Hdec.
    split; [eauto|]. repeat (split; [first [reflexivity|lia]|]). reflexivity.
  - destruct (stream_Write env s _) as [code|] eqn:Ew.
    + rewrite Hcases in E. injection E as <- <- <-.
      cbn [set_pool streams streamCount recentMsg bloomItemCount urgentMsgCh
           normalMsgCh quitWriteCh]. rewrite Hdec.
      split; [eauto|]. repeat (split; [first [reflexivity|lia]|]). reflexivity.
    + rewrite write_on_success in E by (assumption || lia).
      injection E as <- <- <-.
      cbn [set_pool streams streamCount recentMsg bloomItemCount urgentMsgCh
           normalMsgCh quitWriteCh]. rewrite length_app. cbn [length].
      split; [eauto|]. repeat (split; [first [reflexivity|lia]|]). reflexivity.
Qed.

(** X8: [write] leaks no stream.  When [k] streams are checked out by
    other sends and the live count is the idle streams plus [k], within
    the cap, then after [write] returns, on success or on any failure, the
    count is again the idle streams plus [k]; [write] only waits when the
    channel is empty with the count at the cap, it never waits to put a
    stream back, and it never touches the message queues, the filter or
    the quit channel. *)
Theorem write_leaks_no_stream :
  forall (env : Env) (m : p2pMessage) (p p' : Peer F) r ev (k : nat),
    streamCount p = Z.of_nat (length (streams p)) + Z.of_nat k ->
    streamCount p <= maxStreamCount ->
    write env m p = (r, p', ev) ->
    match r with
    | WriteReturned _ =>
        streamCount p' = Z.of_nat (length (streams p')) + Z.of_nat k
        /\ streamCount p' <= maxStreamCount
    | WriteParkedAcquire =>
        p' = p /\ ev = [] /\ streams p = [] /\ k = 8%nat
    | WriteParkedRelease _ => False
    end
    /\ recentMsg p' = recentMsg p /\ bloomItemCount p' = bloomItemCount p
    /\ urgentMsgCh p' = urgentMsgCh p /\ normalMsgCh p' = normalMsgCh p
    /\ quitWriteCh p' = quitWriteCh p.
Proof.
  intros env m p p' r ev k Hc Hcap Hw.
  pose proof (eq_refl : maxStreamCount = 8) as Hmax.
  unfold write, bind in Hw.
  destruct (streams p) as [|s rest] eqn:Es.
  - (* nothing idle *)
    destruct (Z.leb_spec maxStreamCount (streamCount p)) as [Hge|Hlt].
    + replace (getStream (host_NewStream env) p) with (GetParked, p, @nil Event) in Hw.
      2:{ act_unfold. rewrite Es. simpl.
          destruct (Z.leb_spec maxStreamCount (streamCount p)); [reflexivity|lia]. }
      injection Hw as <- <- <-. cbn [length] in Hc.
      repeat split; lia.
    + destruct (host_NewStream env) as [s|code] eqn:Eh.
      * replace (getStream (inl s) p)
          with (GotStream s, set_pool p [] (streamCount p + 1),
                [EvHostNewStream; EvSpawnReadLoop s]) in Hw.
        2:{ act_unfold. rewrite Es. simpl.
            destruct (Z.leb_spec maxStreamCount (streamCount p)); [lia|]. simpl.
            rewrite Es, wrap64_id; [reflexivity|].
            cbn [length] in Hc. unfold GoInt.in_int64. lia. }
        destruct (write_on env m s _) as [[r0 q0] ev0] eqn:E0.
        injection Hw as <- <- <-.
        apply (write_on_accounting _ _ _ _ _ _ _ k) in E0
          as ((err & ->) & H1 & H2 & H3 & H4 & H5 & H6 & H7).
        -- cbn [set_pool recentMsg bloomItemCount urgentMsgCh normalMsgCh
                quitWriteCh] in *. auto 10.
        -- cbn [set_pool streams streamCount length] in *. lia.
        -- cbn [set_pool streamCount]. lia.
      * replace (getStream (inr code) p)
          with (GetFailed (ErrTransport code), p, [EvHostNewStream]) in Hw.
        2:{ act_unfold. rewrite Es. simpl.
            destruct (Z.leb_spec maxStreamCount (streamCount p)); [lia|].
            reflexivity. }
        injection Hw as <- <- <-. rewrite Es. auto 10.
  - (* an idle stream *)
    replace (getStream (host_NewStream env) p)
      with (GotStream s, set_pool p rest (streamCount p), @nil Event) in Hw
      by (act_unfold; rewrite Es; reflexivity).
    destruct (write_on env m s _) as [[r0 q0] ev0] eqn:E0.
    injection Hw as <- <- <-.
    apply (write_on_accounting _ _ _ _ _ _ _ k) in E0
      as ((err & ->) & H1 & H2 & H3 & H4 & H5 & H6 & H7).
    + cbn [set_pool recentMsg bloomItemCount urgentMsgCh normalMsgCh
           quitWriteCh] in *. auto 10.
    + cbn [set_pool streams streamCount]. cbn [length] in Hc.
      rewrite Nat2Z.inj_succ in Hc. lia.
    + cbn [set_pool streamCount]. lia.
Qed.

(** X9: a stream retired by a failed send is not handed out again from the
    pool.  When the idle streams are pairwise distinct and [write] fails on
    the stream it took from the channel, that stream is not among the idle
    streams afterwards, and a later [getStream] returns it only if the
    host itself opens it anew. *)
Theorem retired_stream_not_handed_out :
  forall (env : Env) (m : p2pMessage) (p p' : Peer F) r ev s rest code,
    NoDup (streams p) ->
    streams p = s :: rest ->
    (let timeout := writeTimeout (Z.of_nat (length (content m))) in
     stream_SetWriteDeadline env s (time_Now env) timeout = Some code
     \/ (stream_SetWriteDeadline env s (time_Now env) timeout = None
         /\ stream_Write env s (content (setTime env m)) = Some code)) ->
    write env m p = (r, p', ev) ->
    streams p' = rest
    /\ ~ In s (streams p')
    /\ In (EvStreamClose s) ev
    /\ (forall host s' q ev',
          getStream host p' = (GotStream s', q, ev') ->
          s' = s -> streams p' = [] /\ host = inl s).
Proof.
  intros env m p p' r ev s rest code Hnd Es Hfail Hw.
  assert (Hnot : ~ In s rest).
  { rewrite Es in Hnd. inversion Hnd; assumption. }
  unfold write, bind in Hw.
  replace (getStream (host_NewStream env) p)
    with (GotStream s, set_pool p rest (streamCount p), @nil Event) in Hw
    by (act_unfold; rewrite Es; reflexivity).
  destruct (write_on_failure env m s (set_pool p rest (streamCount p)) code Hfail)
    as (ev2 & Eon & _).
  rewrite Eon in Hw. injection Hw as <- <- <-.
  cbn [set_pool streams].
  split; [reflexivity|]. split; [exact Hnot|]. split.
  - cbn [app]. apply in_or_app. right. left. reflexivity.
  - intros host s' q ev'. act_unfold. cbn [streams].
    destruct rest as [|s1 rest1]; simpl.
    + destruct (maxStreamCount <=? GoInt.wrap64 (streamCount p - 1)); simpl.
      * discriminate.
      * destruct host as [s2|c2]; simpl; [|discriminate].
        intros [= <- _ _] ->. auto.
    + intros [= <- _ _] ->. exfalso. apply Hnot. left. reflexivity.
Qed.

End WriteAccounting.

Lemma write_leaks_no_stream_witness :
  streamCount (set_pool peer_one_idle [7%nat] 1)
  = Z.of_nat (length (streams (set_pool peer_one_idle [7%nat] 1))) + Z.of_nat 0.
Proof.
  assert (Hcap : streamCount peer_one_idle <= maxStreamCount)
    by (vm_compute; discriminate).
  exact (proj1 (proj1 (write_leaks_no_stream env_ok msgA peer_one_idle
                         (set_pool peer_one_idle [7%nat] 1) (WriteReturned None)
                         [EvSetWriteDeadline 7%nat 0 1000000000;
                          EvStreamWrite 7%nat (content msgA ++ repeat x00 8%nat)]
                         0%nat eq_refl Hcap eq_refl))).
Defined.

Lemma retired_stream_not_handed_out_witness :
  ~ In 7%nat (streams (set_pool peer_one_idle [] 0)).
Proof.
  assert (Hnd : NoDup (streams peer_one_idle)).
  { simpl. constructor; [simpl; tauto|constructor]. }
  exact (proj1 (proj2 (retired_stream_not_handed_out env_write_fails msgA
                         peer_one_idle (set_pool peer_one_idle [] 0)
                         (WriteReturned (Some (ErrTransport 1)))
                         [EvSetWriteDeadline 7%nat 0 1000000000;
                          EvStreamWrite 7%nat (content msgA ++ repeat x00 8%nat);
                          EvStreamClose 7%nat]
                         7%nat [] 1%nat Hnd eq_refl
                         (or_intror (conj eq_refl eq_refl)) eq_refl))).
Defined.

(** ** Stopping the peer *)
Section StopModel.

Context {F : Type} `{BloomFilter F}.

(** The peer with its [sync.Once] and the number of [conn.Close] calls
    made so far. *)
Record Lifecycle : Type := {
  the_peer : Peer F;
  once_done : bool;
  conn_closed : nat
}.

(** [close(p.quitWriteCh)]: closing a closed channel panics ([None]). *)
Definition close_quitWriteCh (p : Peer F) : option (Peer F) :=
  if quitWriteCh p then None
  else Some {| streams := streams p; streamCount := streamCount p;
               recentMsg := recentMsg p; bloomItemCount := bloomItemCount p;
               urgentMsgCh := urgentMsgCh p; normalMsgCh := normalMsgCh p;
               quitWriteCh := true |}.

(** [once.Do(f)]: runs [f] on the first call only. *)
Definition once_Do (f : Peer F -> option (Peer F)) (l : Lifecycle)
    : option Lifecycle :=
  if once_done l then Some l
  else match f (the_peer l) with
       | Some p' => Some {| the_peer := p'; once_done := true;
                            conn_closed := conn_closed l |}
       | None => None
       end.

Definition Stop (l : Lifecycle) : option Lifecycle :=
  match once_Do close_quitWriteCh l with
  | Some l' => Some {| the_peer := the_peer l'; once_done := once_done l';
                       conn_closed := S (conn_closed l') |}
  | None => None
  end.

(** [n] calls of [Stop] in a row. *)
Fixpoint Stop_times (n : nat) (l : Lifecycle) : option Lifecycle :=
  match n with
  | O => Some l
  | S n' => match Stop l with
            | Some l' => Stop_times n' l'
            | None => None
            end
  end.

(** The peer as [NewPeer] leaves it. *)
Definition started (p : Peer F) : Lifecycle :=
  {| the_peer := p; once_done := false; conn_closed := 0 |}.

Lemma Stop_times_stopped (n : nat) : forall (p : Peer F) c,
  quitWriteCh p = true ->
  Stop_times n {| the_peer := p; once_done := true; conn_closed := c |}
  = Some {| the_peer := p; once_done := true; conn_closed := (n + c)%nat |}.
Proof.
  induction n as [|n IH]; intros p c Hq; [reflexivity|].
  cbn [Stop_times]. unfold Stop, once_Do. cbn [once_done the_peer conn_closed].
  rewrite IH by assumption. do 2 f_equal. lia.
Qed.

(** X10: [Stop] can be called any number of times.  From a peer whose quit
    channel is open, the first call closes the channel and every later
    call leaves it closed without closing it again (which would panic);
    each call closes the connection once; everything else in the peer is
    left as it was. *)
Theorem Stop_is_idempotent :
  forall (n : nat) (p : Peer F),
    quitWriteCh p = false ->
    exists p',
      Stop_times (S n) (started p)
      = Some {| the_peer := p'; once_done := true; conn_closed := S n |}
      /\ close_quitWriteCh p = Some p'
      /\ quitWriteCh p' = true
      /\ close_quitWriteCh p' = None
      /\ streams p' = streams p /\ streamCount p' = streamCount p
      /\ recentMsg p' = recentMsg p /\ bloomItemCount p' = bloomItemCount p
      /\ urgentMsgCh p' = urgentMsgCh p /\ normalMsgCh p' = normalMsgCh p.
Proof.
  intros n p Hq.
  destruct (close_quitWriteCh p) as [p'|] eqn:Ec;
    unfold close_quitWriteCh in Ec; rewrite Hq in Ec; [|discriminate].
  injection Ec as <-. eexists. split; [|split; [reflexivity|]].
  - cbn [Stop_times]. unfold Stop at 1, once_Do, started, close_quitWriteCh.
    cbn [once_done the_peer conn_closed]. rewrite Hq.
    cbn [once_done the_peer conn_closed].
    rewrite Stop_times_stopped by reflexivity. do 2 f_equal. lia.
  - repeat split.
Qed.

End StopModel.

Lemma Stop_is_idempotent_witness :
  exists p' : Peer Z,
    Stop_times 3 (started peer_one_idle)
    = Some {| the_peer := p'; once_done := true; conn_closed := 3 |}.
Proof.
  destruct (Stop_is_idempotent 2 peer_one_idle eq_refl) as (p' & Hs & _).
  exists p'. exact Hs.
Defined.

(** ** The write loop: shutdown and dispatch order *)
Section SchedulerMore.

Variable M : Type.

Implicit Types (s : State M) (t : list (Ev M)) (e : Ev M).

(** The events of the loop goroutine itself. *)
Definition loop_event (e : Ev M) : bool :=
  match e with
  | TookUrgent _ | TookNormal _ | Drained _ | Dispatched _ | LoopReturned => true
  | WriteBegin UrgentMessage _ | WriteEnd UrgentMessage _ => true
  | _ => false
  end.

Definition is_stopped (e : Ev M) : bool :=
  match e with Stopped => true | _ => false end.

Lemma exec_step_ind (P : State M -> list (Ev M) -> Prop) :
  (forall s t a s' e, P s t -> step s a = Some (s', e) -> P s' (t ++ [e])) ->
  forall (sched : list (Action M)) s t,
    P s t -> P (fst (exec sched s t)) (snd (exec sched s t)).
Proof.
  intros Hstep. induction sched as [|a sched IH]; intros s t HP; [exact HP|].
  simpl. destruct (step s a) as [[s' e]|] eqn:Ea; [|apply IH; exact HP].
  apply IH. eapply Hstep; eauto.
Qed.

Lemma step_shutdown_facts s (a : Action M) s' e :
  step s a = Some (s', e) ->
  quitCh s' = quitCh s || is_stopped e
  /\ (loc s = Returned -> loop_event e = false /\ loc s' = Returned)
  /\ (e = LoopReturned -> quitCh s = true /\ loc s' = Returned)
  /\ (loc s' = Returned -> loc s = Returned \/ e = LoopReturned)
  /\ (forall n, e = Drained n -> quitCh s = false).
Proof.
  destruct a as [mp m| |c|i|i]; simpl.
  - unfold submit.
    destruct mp;
      [destruct (length (urgentCh s) <? msgChanSize)%nat
      |destruct (length (normalCh s) <? msgChanSize)%nat];
      intros [= <- <-]; simpl; rewrite orb_false_r;
      repeat split; auto; discriminate.
  - intros [= <- <-]; simpl. rewrite orb_true_r.
    repeat split; auto; discriminate.
  - unfold loop_step.
    destruct (loc s) as [|um|um|nm|nm um|nm um|nm|] eqn:El;
      try destruct c;
      try destruct (quitCh s) eqn:Eq;
      try destruct (urgentCh s) as [|u0 urest] eqn:Eu;
      try destruct (normalCh s) as [|n0 nrest] eqn:En;
      intros [= <- <-]; simpl; rewrite ?Eq, ?El; simpl;
      repeat split; auto; try discriminate; intros; discriminate.
  - destruct (nth_error (spawned s) i) as [nm|]; intros [= <- <-]; simpl.
    rewrite orb_false_r. repeat split; auto; discriminate.
  - destruct (nth_error (sending s) i) as [nm|]; intros [= <- <-]; simpl.
    rewrite orb_false_r. repeat split; auto; discriminate.
Qed.

Record Shut s t : Prop := {
  shut_quit : quitCh s = true <-> In Stopped t;
  shut_returned : loc s = Returned <-> In LoopReturned t;
  shut_drained : forall n, ~ before Stopped (Drained n) t;
  shut_after : forall e, before LoopReturned e t -> loop_event e = false;
  shut_order : In LoopReturned t -> before Stopped LoopReturned t
}.

Lemma Shut_init : Shut init [].
Proof.
  split; simpl.
  - split; [discriminate|tauto].
  - split; [discriminate|tauto].
  - intros n Hb. apply before_In in Hb as [[] _].
  - intros e Hb. apply before_In in Hb as [[] _].
  - tauto.
Qed.

Lemma Shut_step s t (a : Action M) s' e :
  Shut s t -> step s a = Some (s', e) -> Shut s' (t ++ [e]).
Proof.
  intros [Hq Hr Hd Ha Ho] Hs.
  destruct (step_shutdown_facts _ _ _ _ Hs) as (Fq & Fret & Fr & Fback & Fd).
  split.
  - rewrite Fq, in_app_iff, orb_true_iff, Hq. simpl.
    split.
    + intros [Hl|Hn]; [left; exact Hl|]. right. left.
      destruct e; simpl in Hn; try discriminate; reflexivity.
    + intros [Hl|[He|[]]]; [left; exact Hl|right; rewrite He; reflexivity].
  - rewrite in_app_iff. simpl. split.
    + intros Hl. destruct (Fback Hl) as [Hl0| ->]; [left; apply Hr; exact Hl0|].
      right. left. reflexivity.
    + intros [Hin|[He|[]]].
      * apply Hr in Hin. apply (Fret Hin).
      * apply (Fr He).
  - intros n Hb. apply before_snoc in Hb as [Hb|[-> Hin]]; [exact (Hd n Hb)|].
    apply Hq in Hin. rewrite (Fd n eq_refl) in Hin. discriminate.
  - intros e0 Hb. apply before_snoc in Hb as [Hb|[-> Hin]]; [exact (Ha e0 Hb)|].
    apply Hr in Hin. apply (Fret Hin).
  - intros Hin. apply in_app_or in Hin as [Hin|[He|[]]].
    + apply before_snoc_l. exact (Ho Hin).
    + rewrite He. apply before_snoc_r. apply Hq. apply (Fr He).
Qed.

(** X11: shutdown of the write loop.  In every schedule: once [Stop] has
    closed the quit channel no normal message leaves the drain any more
    (the [default] case is never taken again); the loop returns only after
    a [Stop]; and after it has returned the loop takes, writes and
    dispatches nothing, so what is still queued is never sent. *)
Theorem writeLoop_shutdown :
  forall (sched : list (Action M)),
    let t := snd (run sched) in
    (forall n, ~ before Stopped (Drained n) t)
    /\ (In LoopReturned t -> before Stopped LoopReturned t)
    /\ (forall e, before LoopReturned e t -> loop_event e = false)
    /\ (In LoopReturned t <-> loc (fst (run sched)) = Returned)
    /\ (forall c, loc (fst (run sched)) = Returned ->
                  loop_step (fst (run sched)) c = None).
Proof.
  intros sched t. unfold t, run.
  pose proof (exec_step_ind Shut Shut_step sched init [] Shut_init)
    as [Hq Hr Hd Ha Ho].
  split; [exact Hd|]. split; [exact Ho|]. split; [exact Ha|].
  split; [symmetry; exact Hr|].
  intros c Hl. unfold loop_step. rewrite Hl. reflexivity.
Qed.

End SchedulerMore.

Section SchedulerOrder.

Variable M : Type.

Implicit Types (s : State M) (t : list (Ev M)) (e : Ev M).

Definition is_dispatched (e : Ev M) : option M :=
  match e with Dispatched m => Some m | _ => None end.

Definition is_normal_begun (e : Ev M) : option M :=
  match e with WriteBegin NormalMessage m => Some m | _ => None end.

(** The normal messages in submission order, in the order the loop took
    them, in dispatch order, and in the order their writes were entered. *)
Definition normal_submitted t : list M := pick is_normal_submitted t.
Definition normal_taken t : list M := pick is_normal_taken t.
Definition dispatched t : list M := pick is_dispatched t.
Definition normal_begun t : list M := pick is_normal_begun t.

(** The normal message the loop holds between taking and dispatching. *)
Definition holds_normal_list (l : Loc M) : list M :=
  match l with
  | Draining nm | DrainGot nm _ | DrainWriting nm _ | Dispatching nm => [nm]
  | _ => []
  end.

Lemma Permutation_remove_nth {A : Type} (l : list A) : forall i x,
  nth_error l i = Some x -> Permutation l (x :: remove_nth i l).
Proof.
  induction l as [|y l IH]; intros [|i] x Hx; simpl in *; try discriminate.
  - injection Hx as ->. apply Permutation_refl.
  - eapply perm_trans;
      [apply perm_skip, (IH i x Hx)|apply perm_swap].
Qed.

Record Disp s t : Prop := {
  disp_prefix :
    exists dropped, normal_taken t = dispatched t ++ dropped
                    /\ (length dropped <= 1)%nat;
  disp_live :
    loc s <> Returned -> normal_taken t = dispatched t ++ holds_normal_list (loc s);
  disp_spawned :
    Permutation (dispatched t) (normal_begun t ++ spawned s)
}.

Lemma Disp_init : Disp init [].
Proof.
  split.
  - exists []. split; [reflexivity | simpl; lia].
  - reflexivity.
  - apply Permutation_refl.
Qed.

Lemma Disp_step s t (a : Action M) s' e :
  Disp s t -> step s a = Some (s', e) -> Disp s' (t ++ [e]).
Proof.
  intros [[dropped [Hp Hd]] Hl Hs] Ha.
  pose proof (step_shutdown_facts M _ _ _ _ Ha) as (_ & Fret & _).
  apply step_sound in Ha.
  unfold normal_taken, dispatched, normal_begun in *.
  split; unfold normal_taken, dispatched, normal_begun.
  - (* prefix *)
    rewrite !pick_snoc.
    destruct e as [mp m| |um|nm|mp m|mp m|nm|nm|]; simpl;
      rewrite ?app_nil_r; try (exists dropped; split; [exact Hp | exact Hd]).
    + assert (El : Scheduler.loc s = AtSelect)
        by (inversion Ha; subst; assumption).
      rewrite Hl by (rewrite El; discriminate).
      rewrite El. simpl. rewrite app_nil_r.
      exists [nm]. split; [reflexivity | simpl; lia].
    + assert (El : Scheduler.loc s = Dispatching nm)
        by (inversion Ha; subst; assumption).
      rewrite Hl by (rewrite El; discriminate).
      rewrite El. simpl. exists [].
      split; [rewrite app_nil_r; reflexivity | simpl; lia].
  - (* while the loop runs *)
    intros Hnr. rewrite !pick_snoc.
    assert (Hr0 : Scheduler.loc s <> Returned).
    { intros Hr. apply Hnr. apply (Fret Hr). }
    specialize (Hl Hr0).
    destruct Ha; simpl in *;
      try match goal with
          | D : Scheduler.loc _ = _ \/ _ |- _ => destruct D as [D|[? D]]
          end;
      repeat match goal with
             | E : Scheduler.loc _ = _ |- _ => rewrite E in *
             end;
      simpl in *; rewrite ?app_nil_r in *; rewrite ?Hl;
      rewrite <- ?app_assoc; simpl; try reflexivity; try congruence.
  - (* dispatched and not yet writing *)
    rewrite !pick_snoc.
    destruct Ha; simpl in *;
      repeat match goal with
             | E : Scheduler.spawned _ = _ |- _ => rewrite E in *
             end;
      rewrite ?app_nil_r; try exact Hs.
    + (* dispatch *)
      rewrite app_assoc. apply Permutation_app_tail. exact Hs.
    + (* the spawned send starts *)
      eapply perm_trans; [exact Hs|].
      rewrite <- app_assoc. apply Permutation_app_head.
      simpl. eapply Permutation_remove_nth. eassumption.
Qed.

(** X12: normal messages are dispatched in submission order, none skipped:
    in every schedule, at every point and also after the loop has
    returned, the normal messages dispatched so far are an initial segment
    of those the loop has taken, which are an initial segment of those
    submitted; at most one taken message is not yet dispatched, and while
    the loop runs it is the one the loop holds; and every normal write
    that was entered belongs to a dispatched message, each dispatch being
    written at most once. *)
Theorem normal_dispatch_in_submission_order :
  forall (sched : list (Action M)),
    let s := fst (run sched) in
    let t := snd (run sched) in
    (exists later, normal_submitted t = dispatched t ++ later)
    /\ (exists later, normal_submitted t = normal_taken t ++ later)
    /\ (exists held, normal_taken t = dispatched t ++ held
                     /\ (length held <= 1)%nat)
    /\ (loc s <> Returned ->
        normal_taken t = dispatched t ++ holds_normal_list (loc s))
    /\ (exists waiting,
          Permutation (dispatched t) (normal_begun t ++ waiting))
    /\ (length (normal_begun t) <= length (dispatched t))%nat.
Proof.
  intros sched s t. unfold s, t, run.
  pose proof (exec_step_ind M (fun s t => Disp s t)
                (fun s t a s' e => Disp_step s t a s' e) sched init [] Disp_init)
    as [[dropped [Hp Hd]] Hl Hs].
  destruct (exec_invariant M sched init [] (Inv_init M) (fun _ => Ord_init M))
    as [HI _].
  pose proof (inv_normal_ch M _ _ HI) as Hch.
  unfold normal_submitted, normal_taken in *.
  split; [|split; [|split; [|split; [|split]]]].
  - rewrite Hch, Hp, <- app_assoc. eauto.
  - eauto.
  - exists dropped. split; [exact Hp | exact Hd].
  - exact Hl.
  - eauto.
  - apply Permutation_length in Hs.
    rewrite length_app in Hs. lia.
Qed.

(** X13: urgent sends never overlap.  In every schedule the urgent
    messages whose write was entered are those whose write has returned,
    followed by at most one message (the one being written); both lists
    are initial segments of the urgent submissions. *)
Theorem urgent_writes_are_serialized :
  forall (sched : list (Action M)),
    let t := snd (run sched) in
    exists inflight later,
      urgent_begun t = urgent_written t ++ inflight
      /\ (length inflight <= 1)%nat
      /\ urgent_submitted t = urgent_begun t ++ later.
Proof.
  intros sched t. unfold t, run.
  destruct (exec_invariant M sched init [] (Inv_init M) (fun _ => Ord_init M))
    as [HI _].
  pose proof (inv_urgent_ch M _ _ HI) as Hch.
  pose proof (inv_urgent_held M _ _ HI) as Hh.
  pose proof (inv_urgent_begun M _ _ HI) as Hb.
  unfold urgent_begun, urgent_written, urgent_submitted.
  rewrite Hch.
  set (ch := urgentCh (fst (exec sched init []))) in *.
  set (taken := pick is_urgent_taken (snd (exec sched init []))) in *.
  set (begun := pick is_urgent_begun (snd (exec sched init []))) in *.
  set (written := pick is_urgent_written (snd (exec sched init []))) in *.
  clearbody ch taken begun written.
  rewrite Hb in Hh. rewrite Hb. clear Hb Hch.
  destruct (Scheduler.loc (fst (exec sched init [])))
    as [|um|um|nm|nm um|nm um|nm|];
    simpl in Hh |- *; repeat rewrite app_nil_r in Hh; repeat rewrite app_nil_r.
  - exists [], ch. rewrite app_nil_r. repeat split; auto.
  - apply app_inj_tail in Hh as [Hh _].
    exists [], ([um] ++ ch). rewrite app_nil_r, app_assoc.
    repeat split; auto.
  - exists [um], ch. simpl. repeat split; auto.
  - exists [], ch. rewrite app_nil_r. repeat split; auto.
  - apply app_inj_tail in Hh as [Hh _].
    exists [], ([um] ++ ch). rewrite app_nil_r, app_assoc.
    repeat split; auto.
  - exists [um], ch. simpl. repeat split; auto.
  - exists [], ch. rewrite app_nil_r. repeat split; auto.
  - exists [], ch. rewrite app_nil_r. repeat split; auto.
Qed.

End SchedulerOrder.

(** ** The frame reader on well-formed and on oversized frames *)

Lemma be_value_nonneg (b : bytes) : 0 <= GoInt.be_value b.
Proof.
  unfold GoInt.be_value.
  assert (Hgen : forall acc, 0 <= acc ->
            0 <= fold_left (fun a x => Z.lor (Z.shiftl a 8) (GoInt.Z_of_byte x)) b acc).
  { induction b as [|x b IH]; intros acc Hacc; [exact Hacc|].
    cbn [fold_left]. apply IH. apply Z.lor_nonneg. split.
    - apply Z.shiftl_nonneg. exact Hacc.
    - unfold GoInt.Z_of_byte. lia. }
  apply Hgen. lia.
Qed.

Lemma read_u32_nonneg (l : bytes) a b v : read_u32 l a b = Some v -> 0 <= v.
Proof.
  unfold read_u32, GoInt.be_uint32.
  destruct (go_slice l a b) as [field|]; [|discriminate].
  destruct (length field <? 4)%nat; [discriminate|].
  intros [= <-]. apply be_value_nonneg.
Qed.

Section ReaderMore.

Context {F : Type} `{BloomFilter F}.

(** X14: a well-formed frame is delivered.  When the header is read in
    full, carries the configured chain identifier and a length with
    [dataBegin + length + 8] below 2^32, the [length + 8] further bytes
    arrive and the codec parses header and body into a message, one
    iteration of the reader consumes exactly these bytes and hands that
    message to [handleMessage], and the loop goes on with the rest. *)
Theorem readFrame_delivers_valid_frame :
  forall (cfg : ReaderConfig) (input header rest body rest' : bytes)
         (len : Z) (msg : p2pMessage) (fuel : nat) (p : Peer F),
    ReadFull input (dataBegin cfg) = Some (header, rest) ->
    read_u32 header (chainIDBegin cfg) (chainIDEnd cfg) = Some (ChainID cfg) ->
    read_u32 header (dataLengthBegin cfg) (dataLengthEnd cfg) = Some len ->
    Z.of_nat (dataBegin cfg) + len + 8 < 2 ^ 32 ->
    ReadFull rest (Z.to_nat len + 8) = Some (body, rest') ->
    parseP2PMessage cfg (header ++ body) = inl msg ->
    readFrame cfg input = FrameDelivered msg rest'
    /\ input = header ++ body ++ rest'
    /\ length (header ++ body) = (dataBegin cfg + Z.to_nat len + 8)%nat
    /\ readLoop (S fuel) cfg input p
       = (let '(r, p', ev) := readLoop fuel cfg rest' (fst (handleMessage p msg)) in
          (r, p', EvHandleMessage msg :: ev)).
Proof.
  intros cfg input header rest body rest' len msg fuel p Eh Ec El Hfit Eb Ep.
  pose proof (read_u32_nonneg _ _ _ _ El) as Hlen.
  pose proof (ReadFull_Some _ _ _ _ Eh) as (Hin & Hlh & _).
  pose proof (ReadFull_Some _ _ _ _ Eb) as (Hrest & Hlb & _).
  assert (Ef : readFrame cfg input = FrameDelivered msg rest').
  { unfold readFrame. rewrite Eh, Ec, Z.eqb_refl, El. cbn [negb].
    unfold GoInt.wrap_u32.
    rewrite (Z.mod_small (Z.of_nat (dataBegin cfg) + len + 8)) by lia.
    destruct (Z.ltb_spec (Z.of_nat (dataBegin cfg) + len + 8)
                         (Z.of_nat (dataBegin cfg))); [lia|].
    replace (Z.to_nat (Z.of_nat (dataBegin cfg) + len + 8) - dataBegin cfg)%nat
      with (Z.to_nat len + 8)%nat by lia.
    rewrite Eb, Ep.
    rewrite (Z.mod_small (Z.of_nat (dataBegin cfg) + len)) by lia.
    unfold go_slice_from, go_slice.
    assert (Hld : length (header ++ body) = (dataBegin cfg + Z.to_nat len + 8)%nat)
      by (rewrite length_app; lia).
    rewrite Hld.
    replace (Z.to_nat (Z.of_nat (dataBegin cfg) + len))
      with (dataBegin cfg + Z.to_nat len)%nat by lia.
    destruct (Nat.leb_spec (dataBegin cfg + Z.to_nat len)
                           (dataBegin cfg + Z.to_nat len + 8)); [|lia].
    rewrite Nat.leb_refl. cbn [andb].
    unfold GoInt.be_uint64.
    destruct (Nat.ltb_spec
                (length (firstn (dataBegin cfg + Z.to_nat len + 8
                                 - (dataBegin cfg + Z.to_nat len))
                           (skipn (dataBegin cfg + Z.to_nat len) (header ++ body))))
                8) as [Hshort|_]; [|reflexivity].
    rewrite length_firstn, length_skipn, Hld in Hshort. lia. }
  split; [exact Ef|]. split; [rewrite Hin, Hrest; reflexivity|].
  split; [rewrite length_app; lia|].
  apply readLoop_step. exact Ef.
Qed.

(** X15: a length field that makes [dataBegin + length + 8] wrap around
    2^32 to less than [dataBegin] makes the reader panic on the slice
    [data[dataBegin:]], with only the header consumed and nothing
    delivered. *)
Theorem readFrame_oversized_length_panics :
  forall (cfg : ReaderConfig) (input header rest : bytes) (len : Z)
         (fuel : nat) (p : Peer F),
    ReadFull input (dataBegin cfg) = Some (header, rest) ->
    read_u32 header (chainIDBegin cfg) (chainIDEnd cfg) = Some (ChainID cfg) ->
    read_u32 header (dataLengthBegin cfg) (dataLengthEnd cfg) = Some len ->
    2 ^ 32 <= Z.of_nat (dataBegin cfg) + len + 8
           < 2 ^ 32 + Z.of_nat (dataBegin cfg) ->
    Z.of_nat (dataBegin cfg) < 2 ^ 32 ->
    readFrame cfg input = FrameExit Panicked rest
    /\ readLoop (S fuel) cfg input p = (Exited Panicked rest, p, []).
Proof.
  intros cfg input header rest len fuel p Eh Ec El Hwrap Hdb.
  assert (Ef : readFrame cfg input = FrameExit Panicked rest).
  { unfold readFrame. rewrite Eh, Ec, Z.eqb_refl, El. cbn [negb].
    unfold GoInt.wrap_u32.
    replace ((Z.of_nat (dataBegin cfg) + len + 8) mod 2 ^ 32)
      with (Z.of_nat (dataBegin cfg) + len + 8 - 2 ^ 32).
    - destruct (Z.ltb_spec (Z.of_nat (dataBegin cfg) + len + 8 - 2 ^ 32)
                           (Z.of_nat (dataBegin cfg))); [reflexivity|lia].
    - apply Z.mod_unique with (q := 1); lia. }
  split; [exact Ef|]. apply readLoop_exit. exact Ef.
Qed.

Lemma readLoop_pool_untouched (cfg : ReaderConfig) (fuel : nat) :
  forall (input : bytes) (p : Peer F),
    let '(r, p', ev) := readLoop fuel cfg input p in
    streams p' = streams p /\ streamCount p' = streamCount p
    /\ urgentMsgCh p' = urgentMsgCh p /\ normalMsgCh p' = normalMsgCh p
    /\ quitWriteCh p' = quitWriteCh p
    /\ Forall (fun e => exists m, e = EvHandleMessage m) ev.
Proof.
  induction fuel as [|fuel IH]; intros input p.
  - simpl. repeat split; auto.
  - destruct (readFrame cfg input) as [msg rest|why rest] eqn:Ef.
    + rewrite (readLoop_step _ _ _ _ _ _ Ef).
      specialize (IH rest (fst (handleMessage p msg))).
      destruct (readLoop fuel cfg rest _) as [[r p'] ev].
      destruct IH as (H1 & H2 & H3 & H4 & H5 & H6).
      assert (Hh : streams (fst (handleMessage p msg)) = streams p
                   /\ streamCount (fst (handleMessage p msg)) = streamCount p
                   /\ urgentMsgCh (fst (handleMessage p msg)) = urgentMsgCh p
                   /\ normalMsgCh (fst (handleMessage p msg)) = normalMsgCh p
                   /\ quitWriteCh (fst (handleMessage p msg)) = quitWriteCh p).
      { unfold handleMessage. cbn [fst].
        destruct (needDedup msg); [|auto].
        pose proof (recordMessage_queues p msg). tauto. }
      destruct Hh as (G1 & G2 & G3 & G4 & G5).
      rewrite H1, H2, H3, H4, H5.
      repeat (split; [assumption|]). constructor; [eauto|assumption].
    + rewrite (readLoop_exit _ _ _ _ _ _ Ef). repeat split; auto.
Qed.

(** X16: the reader never retires its stream.  Whatever ends [readLoop]
    (a failed read, another chain, a refused frame, a panic), it leaves the
    idle channel, the live stream count, both message queues and the quit
    channel as they were, and the only calls it makes are the deliveries
    to the peer manager: no stream is closed and no neighbour removed. *)
Theorem readLoop_never_retires_stream :
  forall (cfg : ReaderConfig) (fuel : nat) (input : bytes) (p : Peer F),
    streams (snd (fst (readLoop fuel cfg input p))) = streams p
    /\ streamCount (snd (fst (readLoop fuel cfg input p))) = streamCount p
    /\ urgentMsgCh (snd (fst (readLoop fuel cfg input p))) = urgentMsgCh p
    /\ normalMsgCh (snd (fst (readLoop fuel cfg input p))) = normalMsgCh p
    /\ quitWriteCh (snd (fst (readLoop fuel cfg input p))) = quitWriteCh p
    /\ (forall e, In e (snd (readLoop fuel cfg input p)) ->
          exists m, e = EvHandleMessage m)
    /\ (forall s, ~ In (EvStreamClose s) (snd (readLoop fuel cfg input p)))
    /\ ~ In EvRemoveNeighbor (snd (readLoop fuel cfg input p)).
Proof.
  intros cfg fuel input p.
  pose proof (readLoop_pool_untouched cfg fuel input p) as Hu.
  destruct (readLoop fuel cfg input p) as [[r p'] ev]. cbn [fst snd].
  destruct Hu as (H1 & H2 & H3 & H4 & H5 & H6).
  rewrite Forall_forall in H6.
  do 5 (split; [assumption|]). split; [|split].
  - intros e He. apply (H6 e He).
  - intros s Hin. destruct (H6 _ Hin) as (m & [=]).
  - intros Hin. destruct (H6 _ Hin) as (m & [=]).
Qed.

End ReaderMore.

Lemma readFrame_delivers_valid_frame_witness :
  readFrame (layout8 7) (frame_of 7 hello)
  = FrameDelivered {| content := frame_of 7 hello; needDedup := true |} [].
Proof.
  assert (Hfit : Z.of_nat (dataBegin (layout8 7)) + 12 + 8 < 2 ^ 32)
    by (vm_compute; reflexivity).
  exact (proj1 (readFrame_delivers_valid_frame (layout8 7) (frame_of 7 hello)
                  (firstn 8 (frame_of 7 hello)) (skipn 8 (frame_of 7 hello))
                  (skipn 8 (frame_of 7 hello)) [] 12
                  {| content := frame_of 7 hello; needDedup := true |}
                  0%nat (emptyPeer : Peer Z)
                  eq_refl eq_refl eq_refl Hfit eq_refl eq_refl)).
Defined.

Lemma readFrame_oversized_length_panics_witness :
  readFrame (layout8 7) (GoInt.be_put32 7 ++ [xff; xff; xff; xf0] ++ hello)
  = FrameExit Panicked hello.
Proof.
  assert (Hwrap : 2 ^ 32 <= Z.of_nat (dataBegin (layout8 7)) + 4294967280 + 8
                  < 2 ^ 32 + Z.of_nat (dataBegin (layout8 7)))
    by (vm_compute; split; [discriminate|reflexivity]).
  assert (Hdb : Z.of_nat (dataBegin (layout8 7)) < 2 ^ 32)
    by (vm_compute; reflexivity).
  exact (proj1 (readFrame_oversized_length_panics (layout8 7)
                  (GoInt.be_put32 7 ++ [xff; xff; xff; xf0] ++ hello)
                  (GoInt.be_put32 7 ++ [xff; xff; xff; xf0]) hello 4294967280
                  0%nat (emptyPeer : Peer Z)
                  eq_refl eq_refl eq_refl Hwrap Hdb)).
Defined.

(** ** The time within a slot ([calculateTime]) *)

(** [calculateTime(t)] for [t.UnixNano() = unixNano], as the [int64] the
    code converts to [float64]; [SlotLength] is [common.SlotLength],
    declared outside peer.go.  [None] is the panic of a division by
    zero. *)
Definition calculateTime (SlotLength unixNano : Z) : option Z :=
  let slot := GoInt.wrap64 (1000000000 * SlotLength) in
  if slot =? 0 then None
  else
    let currentSlot := GoInt.wrap64 (Z.quot unixNano slot) in
    Some (Z.quot
            (GoInt.wrap64
               (unixNano
                - GoInt.wrap64 (GoInt.wrap64 (currentSlot * 1000000000) * SlotLength)))
            1000000).

(** X17: for a time at or after the epoch and a positive slot length (in
    seconds, with the slot's nanoseconds fitting 64 bits), [calculateTime]
    is the whole milliseconds elapsed since the start of the slot the time
    falls in: it lies between 0 and 1000 * SlotLength - 1 (so its
    conversion to [float64] is exact), and no intermediate product
    overflows. *)
Theorem calculateTime_is_offset_in_slot :
  forall (SlotLength unixNano : Z),
    0 < SlotLength -> 1000000000 * SlotLength < 2 ^ 63 ->
    0 <= unixNano < 2 ^ 63 ->
    calculateTime SlotLength unixNano
    = Some (unixNano mod (1000000000 * SlotLength) / 1000000)
    /\ 0 <= unixNano mod (1000000000 * SlotLength) / 1000000 < 1000 * SlotLength
    /\ unixNano mod (1000000000 * SlotLength) / 1000000 < 2 ^ 53.
Proof.
  intros SL ns Hsl Hfit Hns. unfold calculateTime.
  remember (1000000000 * SL) as S eqn:HS.
  assert (Hpos : 0 < S) by lia.
  rewrite (wrap64_id S) by (unfold GoInt.in_int64; lia).
  destruct (Z.eqb_spec S 0) as [E|_]; [lia|].
  rewrite (Z.quot_div_nonneg ns S) by lia.
  pose proof (Z.mod_pos_bound ns S Hpos) as Hm.
  pose proof (Z.div_mod ns S ltac:(lia)) as Hdm.
  assert (Hq : 0 <= ns / S) by (apply Z.div_pos; lia).
  remember (ns / S) as q eqn:Eq.
  assert (Hsq : q * 1000000000 * SL = S * q) by (rewrite HS; ring).
  assert (Hq2 : 0 <= q * 1000000000 <= S * q) by (rewrite <- Hsq; nia).
  rewrite (wrap64_id q) by (unfold GoInt.in_int64; nia).
  rewrite (wrap64_id (q * 1000000000)) by (unfold GoInt.in_int64; lia).
  rewrite Hsq.
  rewrite (wrap64_id (S * q)) by (unfold GoInt.in_int64; lia).
  replace (ns - S * q) with (ns mod S) by lia.
  rewrite (wrap64_id (ns mod S)) by (unfold GoInt.in_int64; lia).
  rewrite Z.quot_div_nonneg by lia.
  assert (Hr : 0 <= ns mod S / 1000000 < 1000 * SL).
  { split; [apply Z.div_pos; lia|].
    apply Z.div_lt_upper_bound; lia. }
  split; [reflexivity|]. split; [exact Hr|]. lia.
Qed.

Lemma calculateTime_is_offset_in_slot_witness :
  calculateTime 3 1540000001234567890 = Some 2234.
Proof.
  assert (H1 : 0 < 3) by lia.
  assert (H2 : 1000000000 * 3 < 2 ^ 63) by (vm_compute; reflexivity).
  assert (H3 : 0 <= 1540000001234567890 < 2 ^ 63)
    by (vm_compute; split; [discriminate|reflexivity]).
  exact (proj1 (calculateTime_is_offset_in_slot 3 1540000001234567890 H1 H2 H3)).
Defined.

(** ** The naive network: framed input, peer lookup, listen address *)

(** X18: what the handler of [Listen] hands to [Unmarshal].  For a body
    behind its four-byte big-endian length, with the head arriving in one
    read: the decoded length is the body's, and the buffer is always as
    long as the body, whatever the second [conn.Read] returned; the bytes
    that read did not deliver stay zero.  The body comes out whole exactly
    when the transport delivers it in that one read, or the bytes it held
    back are zero themselves. *)
Theorem Listen_handler_pads_short_read :
  forall (body : bytes) (limit1 limit2 : nat),
    Z.of_nat (length body) < 2 ^ 32 ->
    (4 <= limit1)%nat ->
    let n := Nat.min (length body) limit2 in
    let buf := firstn n body ++ repeat x00 (length body - n) in
    NaiveNetwork.Listen_handler
      (GoInt.be_put32 (Z.of_nat (length body)) ++ body) limit1 limit2
    = Some (Z.of_nat (length body), n, buf)
    /\ length buf = length body
    /\ (buf = body <->
        (length body <= limit2)%nat
        \/ skipn n body = repeat x00 (length body - n)).
Proof.
  intros body limit1 limit2 Hlen H1 n buf.
  pose proof (be_put32_uint32 (Z.of_nat (length body)) ltac:(lia)) as Hrt.
  assert (Hn : (n <= length body)%nat) by (subst n; lia).
  split; [|split].
  - unfold NaiveNetwork.Listen_handler, NaiveNetwork.conn_Read,
      NaiveNetwork.HEADLENGTH.
    rewrite length_app.
    change (length (GoInt.be_put32 (Z.of_nat (length body)))) with 4%nat.
    replace (Nat.min (Nat.min 4 limit1) (4 + length body)) with 4%nat by lia.
    change (firstn 4 (GoInt.be_put32 (Z.of_nat (length body)) ++ body))
      with (GoInt.be_put32 (Z.of_nat (length body))).
    change (skipn 4 (GoInt.be_put32 (Z.of_nat (length body)) ++ body)) with body.
    cbn [Nat.sub repeat]. rewrite app_nil_r, Hrt, Nat2Z.id.
    replace (Nat.min (Nat.min (length body) limit2) (length body)) with n
      by (subst n; lia).
    reflexivity.
  - subst buf. rewrite length_app, length_firstn, repeat_length. lia.
  - subst buf. split.
    + intros E. right.
      rewrite <- (firstn_skipn n body) in E at 3.
      apply app_inv_head in E. symmetry. exact E.
    + intros [Hle | Hz].
      * replace n with (length body) by (subst n; lia).
        rewrite firstn_all, Nat.sub_diag. apply app_nil_r.
      * rewrite <- Hz. apply firstn_skipn.
Qed.

Lemma Listen_handler_pads_short_read_witness :
  NaiveNetwork.Listen_handler
    (GoInt.be_put32 (Z.of_nat (length hello)) ++ hello) 4 5
  = Some (12, 5%nat, firstn 5 hello ++ repeat x00 7).
Proof.
  assert (Hlen : Z.of_nat (length hello) < 2 ^ 32) by (vm_compute; reflexivity).
  assert (H1 : (4 <= 4)%nat) by lia.
  exact (proj1 (Listen_handler_pads_short_read hello 4 5 Hlen H1)).
Defined.

(** The peer list of [NaiveNetwork] is used through [Put] and [Get] only:
    a key-value store on byte strings, where a key that was never put is
    not found. *)
Class KVStore (D : Type) := {
  kv_empty : D;
  kv_put : bytes -> bytes -> D -> D;
  kv_get : bytes -> D -> option bytes;
  kv_get_empty : forall k, kv_get k kv_empty = None;
  kv_get_put_same : forall k v d, kv_get k (kv_put k v d) = Some v;
  kv_get_put_other :
    forall k k' v d, k <> k' -> kv_get k' (kv_put k v d) = kv_get k' d
}.

(** The store as an association list, newest binding first. *)
Module AssocStore.

Definition bytes_eq_dec : forall x y : bytes, {x = y} + {x <> y} :=
  list_eq_dec Byte.byte_eq_dec.

Definition put (k v : bytes) (d : list (bytes * bytes)) : list (bytes * bytes) :=
  (k, v) :: d.

Fixpoint get (k : bytes) (d : list (bytes * bytes)) : option bytes :=
  match d with
  | [] => None
  | (k', v) :: rest => if bytes_eq_dec k' k then Some v else get k rest
  end.

Lemma get_put_same k v d : get k (put k v d) = Some v.
Proof. simpl. destruct (bytes_eq_dec k k); congruence. Qed.

Lemma get_put_other k k' v d : k <> k' -> get k' (put k v d) = get k' d.
Proof. intros Hne. simpl. destruct (bytes_eq_dec k k'); congruence. Qed.

End AssocStore.

#[export] Instance AssocKV : KVStore (list (bytes * bytes)) := {|
  kv_empty := [];
  kv_put := AssocStore.put;
  kv_get := AssocStore.get;
  kv_get_empty := fun _ => eq_refl;
  kv_get_put_same := AssocStore.get_put_same;
  kv_get_put_other := AssocStore.get_put_other
|}.

Section NaivePeers.

Context {D : Type} `{KVStore D}.

(** The peer list [NewNaiveNetwork] fills: under the one-character keys
    "1" and "2", the addresses "1.1.1.1" and "2.2.2.2". *)
Definition NewNaiveNetwork_peerList : D :=
  kv_put [x32] [x32; x2e; x32; x2e; x32; x2e; x32]
    (kv_put [x31] [x31; x2e; x31; x2e; x31; x2e; x31] kv_empty).

(** The address [Send] gets for peer [i]: it looks up the four bytes that
    [binary.Write] makes of [int32(i)]. *)
Definition Send_addr (i : Z) : option bytes :=
  kv_get (NaiveNetwork.Send_key i) NewNaiveNetwork_peerList.

(** X19: [Send] finds no peer.  The keys it looks up are the four-byte
    big-endian encodings of 1 and 2, the keys [NewNaiveNetwork] stored are
    the one-byte strings "1" and "2": for every peer number the lookup
    finds nothing, while both addresses are in the list under the keys
    they were stored with. *)
Theorem Send_finds_no_peer :
  forall (i : Z),
    Send_addr i = None
    /\ length (NaiveNetwork.Send_key i) = 4%nat
    /\ map fst (NaiveNetwork.Send [x00])
       = [[x00; x00; x00; x01]; [x00; x00; x00; x02]]
    /\ kv_get [x31] NewNaiveNetwork_peerList
       = Some [x31; x2e; x31; x2e; x31; x2e; x31]
    /\ kv_get [x32] NewNaiveNetwork_peerList
       = Some [x32; x2e; x32; x2e; x32; x2e; x32].
Proof.
  intros i. unfold Send_addr, NewNaiveNetwork_peerList.
  split; [|split; [reflexivity|split; [reflexivity|split]]].
  - rewrite !kv_get_put_other, kv_get_empty; [reflexivity| |];
      intros E; apply (f_equal (@length byte)) in E; discriminate.
  - rewrite kv_get_put_other by discriminate. apply kv_get_put_same.
  - apply kv_get_put_same.
Qed.

End NaivePeers.

(** ** The address [Listen] binds *)

Module GoString.

(** [string(r)] for an integer [r]: the UTF-8 encoding of the code point
    [r]; a surrogate half or a value past the last code point gives the
    replacement character U+FFFD. *)
Definition utf8 (r : Z) : bytes :=
  if r <? 128 then [GoInt.byte_of_Z r]
  else if r <? 2048 then
    [GoInt.byte_of_Z (192 + Z.shiftr r 6);
     GoInt.byte_of_Z (128 + Z.land r 63)]
  else if r <? 65536 then
    [GoInt.byte_of_Z (224 + Z.shiftr r 12);
     GoInt.byte_of_Z (128 + Z.land (Z.shiftr r 6) 63);
     GoInt.byte_of_Z (128 + Z.land r 63)]
  else
    [GoInt.byte_of_Z (240 + Z.shiftr r 18);
     GoInt.byte_of_Z (128 + Z.land (Z.shiftr r 12) 63);
     GoInt.byte_of_Z (128 + Z.land (Z.shiftr r 6) 63);
     GoInt.byte_of_Z (128 + Z.land r 63)].

Definition string_of_rune (r : Z) : bytes :=
  if (r <? 0) || (1114111 <? r) || ((55296 <=? r) && (r <=? 57343))
  then [xef; xbf; xbd]
  else utf8 r.

(** The decimal numeral of a non-negative integer ([strconv.Itoa]), most
    significant digit first. *)
Fixpoint digits (fuel : nat) (n : Z) (acc : bytes) : bytes :=
  match fuel with
  | O => acc
  | S fuel' =>
      let acc' := GoInt.byte_of_Z (48 + n mod 10) :: acc in
      if n / 10 =? 0 then acc' else digits fuel' (n / 10) acc'
  end.

Definition Itoa (n : Z) : bytes := digits 20 n [].

Definition is_digit (b : byte) : bool :=
  (48 <=? GoInt.Z_of_byte b) && (GoInt.Z_of_byte b <=? 57).

Definition bytes_eqb (a b : bytes) : bool :=
  if list_eq_dec Byte.byte_eq_dec a b then true else false.

End GoString.

(** The address [Listen] passes to [net.Listen] for a [uint16] port:
    [":" + string(port)]. *)
Definition Listen_addr (port : Z) : bytes :=
  x3a :: GoString.string_of_rune port.

(** What the address of a port should have in common with its number,
    decided for one port. *)
Definition Listen_addr_check (port : Z) : bool :=
  negb (GoString.bytes_eqb (Listen_addr port) (x3a :: GoString.Itoa port))
  && Bool.eqb (forallb GoString.is_digit (GoString.string_of_rune port))
       ((48 <=? port) && (port <=? 57))
  && (if (48 <=? port) && (port <=? 57)
      then GoString.bytes_eqb (Listen_addr port)
             (x3a :: GoString.Itoa (port - 48))
      else true).

Lemma Listen_addr_check_low :
  forallb Listen_addr_check (map Z.of_nat (seq 0 128)) = true.
Proof. vm_compute. reflexivity. Qed.

Lemma bytes_eqb_true a b : GoString.bytes_eqb a b = true <-> a = b.
Proof.
  unfold GoString.bytes_eqb.
  destruct (list_eq_dec Byte.byte_eq_dec a b); split; congruence.
Qed.

Lemma digits_all_digit fuel :
  forall n acc,
    0 <= n ->
    forallb GoString.is_digit acc = true ->
    forallb GoString.is_digit (GoString.digits fuel n acc) = true.
Proof.
  induction fuel as [|fuel IH]; intros n acc Hn Hacc; [exact Hacc|].
  cbn [GoString.digits].
  assert (Hd : forallb GoString.is_digit
                 (GoInt.byte_of_Z (48 + n mod 10) :: acc) = true).
  { cbn [forallb]. rewrite Hacc, andb_true_r.
    unfold GoString.is_digit. rewrite Z_of_byte_of_Z.
    pose proof (Z.mod_pos_bound n 10 ltac:(lia)).
    rewrite Z.mod_small by lia.
    apply andb_true_iff. rewrite !Z.leb_le. lia. }
  destruct (n / 10 =? 0); [exact Hd|].
  apply IH; [apply Z.div_pos; lia | exact Hd].
Qed.

Lemma string_of_rune_high port :
  128 <= port < 65536 ->
  exists b rest,
    GoString.string_of_rune port = b :: rest
    /\ GoString.is_digit b = false.
Proof.
  intros Hp. unfold GoString.string_of_rune, GoString.utf8.
  replace (port <? 0) with false by (symmetry; apply Z.ltb_ge; lia).
  replace (1114111 <? port) with false by (symmetry; apply Z.ltb_ge; lia).
  cbn [orb].
  destruct ((55296 <=? port) && (port <=? 57343)).
  { eexists; eexists; split; reflexivity. }
  replace (port <? 128) with false by (symmetry; apply Z.ltb_ge; lia).
  replace (port <? 65536) with true by (symmetry; apply Z.ltb_lt; lia).
  destruct (port <? 2048) eqn:E2;
    [apply Z.ltb_lt in E2 | apply Z.ltb_ge in E2];
    (eexists; eexists; split; [reflexivity|]);
    unfold GoString.is_digit; rewrite Z_of_byte_of_Z, Z.shiftr_div_pow2 by lia.
  - assert (2 <= port / 2 ^ 6 < 32)
      by (split; [apply Z.div_le_lower_bound | apply Z.div_lt_upper_bound]; lia).
    rewrite Z.mod_small by lia.
    apply andb_false_iff. right. apply Z.leb_gt. lia.
  - assert (0 <= port / 2 ^ 12 < 16)
      by (split; [apply Z.div_pos | apply Z.div_lt_upper_bound]; lia).
    rewrite Z.mod_small by lia.
    apply andb_false_iff. right. apply Z.leb_gt. lia.
Qed.

(** X20: [Listen] does not bind the port it is given.  For every [uint16]
    port the address [":" + string(port)] differs from [":"] followed by
    the port's decimal numeral: the conversion yields the character with
    that code point.  The text after the colon is a number only for the
    ports 48 to 57, where it is the single digit [port - 48]. *)
Theorem Listen_addr_is_not_port_number :
  forall port : Z,
    0 <= port < 65536 ->
    Listen_addr port <> x3a :: GoString.Itoa port
    /\ (forallb GoString.is_digit (GoString.string_of_rune port) = true
        <-> 48 <= port <= 57)
    /\ (48 <= port <= 57 ->
        Listen_addr port = x3a :: GoString.Itoa (port - 48)).
Proof.
  intros port Hp.
  destruct (Z_lt_le_dec port 128) as [Hlow | Hhigh].
  - pose proof Listen_addr_check_low as Hall.
    rewrite forallb_forall in Hall.
    assert (Hin : In port (map Z.of_nat (seq 0 128))).
    { apply in_map_iff. exists (Z.to_nat port). split; [lia|].
      apply in_seq. lia. }
    specialize (Hall port Hin). unfold Listen_addr_check in Hall.
    apply andb_true_iff in Hall. destruct Hall as [Hall H3].
    apply andb_true_iff in Hall. destruct Hall as [H1 H2].
    apply negb_true_iff in H1. apply Bool.eqb_prop in H2.
    split; [|split].
    + intros E. apply bytes_eqb_true in E. congruence.
    + rewrite H2, andb_true_iff, !Z.leb_le. reflexivity.
    + intros Hr.
      replace ((48 <=? port) && (port <=? 57)) with true in H3
        by (symmetry; apply andb_true_iff; rewrite !Z.leb_le; exact Hr).
      apply bytes_eqb_true. exact H3.
  - destruct (string_of_rune_high port ltac:(lia)) as (b & rest & Hs & Hb).
    split; [|split].
    + unfold Listen_addr. rewrite Hs. intros E.
      injection E as E.
      pose proof (digits_all_digit 20 port [] ltac:(lia) eq_refl) as Hd.
      fold (GoString.Itoa port) in Hd. rewrite <- E in Hd.
      cbn [forallb] in Hd. rewrite Hb in Hd. discriminate.
    + rewrite Hs. cbn [forallb]. rewrite Hb. cbn [andb].
      split; [discriminate | lia].
    + lia.
Qed.

Lemma Listen_addr_is_not_port_number_witness :
  Listen_addr 8080 <> x3a :: GoString.Itoa 8080.
Proof.
  assert (Hp : 0 <= 8080 < 65536) by lia.
  exact (proj1 (Listen_addr_is_not_port_number 8080 Hp)).
Defined.
